(** * SVG batch fixers of botserver: a shallow embedding and its properties

    The scripts under review rewrite SVG files as plain text, with Python's
    [re] module and [str] methods.  The embedding below follows them line by
    line:

    - text is a list of 8-bit characters (code points 0..255);
    - a regular expression is a list of atoms, run by a backtracking matcher
      that tries alternatives in the order of Python's engine (greedy
      repetitions give characters back one at a time);
    - [re.sub], [re.search], [str.replace], [str.split], [str.strip] and the
      like are functions on text;
    - files live in a finite map from path to content; [open] can raise, and
      a raised exception is threaded through a small state-and-error monad.

    In string literals of this file the backquote character stands for the
    double quote of the Python source (see [txt]).

    Two things the concrete transformations and the first disk operations
    leave out are put back where a statement depends on them.  Python's
    [int] and [str] raise beyond 4300 digits, which [int_of_text] and
    [str_of_N] do not: the statements about what the loops write are made
    over any transformation, raising or not.  [open(p, `w`)] truncates the
    file before anything is written, so a write can fail with the file
    already emptied: the loops over any transformation take such late
    failures as a further parameter. *)

From Stdlib Require Import Ascii String ZArith NArith Lia Bool.
From Stdlib Require Import DecimalString DecimalN DecimalZ DecimalPos DecimalFacts.
From stdpp Require Import gmap strings list.

Local Open Scope list_scope.

(* ===================================================================== *)
(** * Part 1: definitions                                                 *)
(* ===================================================================== *)

(** ** Text and characters *)

Abbreviation text := (list ascii).

Definition dq : ascii := ascii_of_nat 34.
Definition bslash : ascii := ascii_of_nat 92.
Definition nl : ascii := ascii_of_nat 10.

(** [txt s] is the text of the literal [s], every backquote read as a
    double quote. *)
Definition txt (s : string) : text :=
  map (fun c => if Ascii.eqb c "`"%char then dq else c) (list_ascii_of_string s).

Arguments txt s%_string.

Definition code (c : ascii) : nat := nat_of_ascii c.

(** [\d] on 8-bit text. *)
Definition is_digit (c : ascii) : bool :=
  (48 <=? code c) && (code c <=? 57).

(** [\s] and [str.isspace] on 8-bit text: TAB..CR, FS..US, space, NEL, NBSP. *)
Definition is_space (c : ascii) : bool :=
  let n := code c in
  ((9 <=? n) && (n <=? 13)) || ((28 <=? n) && (n <=? 32))
  || (n =? 133) || (n =? 160).

(** The class [[a-z-]]. *)
Definition is_lower_or_dash (c : ascii) : bool :=
  ((97 <=? code c) && (code c <=? 122)) || (code c =? 45).

Definition is_octal (c : ascii) : bool :=
  (48 <=? code c) && (code c <=? 55).

Definition is_ascii_letter (c : ascii) : bool :=
  ((65 <=? code c) && (code c <=? 90)) || ((97 <=? code c) && (code c <=? 122)).

Definition is_char (a : ascii) (c : ascii) : bool := Ascii.eqb c a.
Definition not_char (a : ascii) (c : ascii) : bool := negb (Ascii.eqb c a).

(** [str.lower] on one 8-bit character. *)
Definition lower_char (c : ascii) : ascii :=
  let n := code c in
  if ((65 <=? n) && (n <=? 90))
     || ((192 <=? n) && (n <=? 222) && negb (n =? 215))
  then ascii_of_nat (n + 32) else c.

Definition lower (s : text) : text := map lower_char s.

(** A literal pattern character under [re.IGNORECASE]. *)
Definition is_char_ci (a : ascii) (c : ascii) : bool :=
  Ascii.eqb (lower_char c) (lower_char a).

Definition text_eqb (a b : text) : bool := bool_decide (a = b).

Fixpoint starts_with (p s : text) : bool :=
  match p, s with
  | [], _ => true
  | a :: p', c :: s' => Ascii.eqb a c && starts_with p' s'
  | _ :: _, [] => false
  end.

(** [sub in s] for a non-empty [sub]. *)
Fixpoint contains (p s : text) : bool :=
  starts_with p s ||
  match s with
  | [] => false
  | _ :: s' => contains p s'
  end.

Definition ends_with (p s : text) : bool := starts_with (rev p) (rev s).

Fixpoint lstrip (s : text) : text :=
  match s with
  | c :: s' => if is_space c then lstrip s' else s
  | [] => []
  end.

Definition rstrip (s : text) : text := rev (lstrip (rev s)).
Definition strip (s : text) : text := rstrip (lstrip s).

Fixpoint lstrip_char (a : ascii) (s : text) : text :=
  match s with
  | c :: s' => if Ascii.eqb c a then lstrip_char a s' else s
  | [] => []
  end.

(** [s.rstrip(a)] for a one-character argument. *)
Definition rstrip_char (a : ascii) (s : text) : text :=
  rev (lstrip_char a (rev s)).

(** [s.split(a)] for a one-character separator: never empty. *)
Fixpoint split_on (a : ascii) (s : text) : list text :=
  match s with
  | [] => [[]]
  | c :: s' =>
      if Ascii.eqb c a then [] :: split_on a s'
      else match split_on a s' with
           | l :: ls => (c :: l) :: ls
           | [] => [[c]]
           end
  end.

(** [a.join(ls)]. *)
Fixpoint join_with (a : ascii) (ls : list text) : text :=
  match ls with
  | [] => []
  | [l] => l
  | l :: ls' => l ++ a :: join_with a ls'
  end.

(** [s.split(a)[0]]. *)
Definition before_first (a : ascii) (s : text) : text :=
  match split_on a s with
  | l :: _ => l
  | [] => []
  end.

(** [s.replace(old, new)] for a non-empty [old]: leftmost occurrences, not
    overlapping.  [skip] counts the characters of an occurrence still to be
    dropped. *)
Fixpoint replace_from (old new : text) (skip : nat) (s : text) : text :=
  match s with
  | [] => []
  | c :: s' =>
      match skip with
      | S k => replace_from old new k s'
      | O =>
          if starts_with old s
          then new ++ replace_from old new (length old - 1) s'
          else c :: replace_from old new 0 s'
      end
  end.

Definition replace (old new s : text) : text := replace_from old new 0 s.

(** [str(n)] and [int(s)] on decimal digits; Python integers are unbounded. *)
Definition str_of_N (n : N) : text :=
  list_ascii_of_string (NilEmpty.string_of_uint (N.to_uint n)).

Definition str_of_Z (z : Z) : text :=
  list_ascii_of_string (NilEmpty.string_of_int (Z.to_int z)).

Definition int_of_text (ds : text) : N :=
  match NilEmpty.uint_of_string (string_of_list_ascii ds) with
  | Some u => N.of_uint u
  | None => 0%N
  end.

(** ** Regular expressions *)

Module Re.

(** The patterns of the scripts are sequences of single characters (or
    classes), greedy repetitions of a class, and group parentheses. *)
Inductive atom : Type :=
| Chr (p : ascii -> bool)
| Rep (p : ascii -> bool) (lo : nat)
| Open (g : nat)
| Close (g : nat).

Abbreviation regex := (list atom).

(** Literal text as a pattern, case-sensitive or under [re.IGNORECASE]. *)
Definition lit (s : text) : regex := map (fun a => Chr (is_char a)) s.
Definition lit_ci (s : text) : regex := map (fun a => Chr (is_char_ci a)) s.

(** The pattern [L(P{lo,})stop R]: a literal, group 1 holding a greedy run
    of the class [P], and a literal beginning with the character [stop]. *)
Definition bracketed (L R : text) (P : ascii -> bool) (lo : nat) (stop : ascii)
  : regex :=
  lit L ++ [Open 1; Rep P lo; Close 1] ++ lit (stop :: R).

(** Captures: where each open group started, and the closed groups. *)
Record captures : Type := mkCaptures {
  marks : list (nat * text);
  groups : list (nat * text)
}.

Definition no_captures : captures := mkCaptures [] [].

Fixpoint assoc (g : nat) (l : list (nat * text)) : option text :=
  match l with
  | [] => None
  | (k, v) :: l' => if Nat.eqb k g then Some v else assoc g l'
  end.

Definition mark (g : nat) (s : text) (cs : captures) : captures :=
  mkCaptures ((g, s) :: marks cs) (groups cs).

Definition capture (g : nat) (s : text) (cs : captures) : captures :=
  match assoc g (marks cs) with
  | Some s0 =>
      mkCaptures (marks cs) ((g, firstn (length s0 - length s) s0) :: groups cs)
  | None => cs
  end.

(** Length of the longest prefix of [s] inside the class [p]. *)
Fixpoint run (p : ascii -> bool) (s : text) : nat :=
  match s with
  | c :: s' => if p c then S (run p s') else 0
  | [] => 0
  end.

(** Greedy backtracking: try [n], then [n-1], ... down to [lo]. *)
Fixpoint backoff {A : Type} (k : nat -> option A) (lo n : nat) : option A :=
  if n <? lo then None
  else match k n with
       | Some r => Some r
       | None => match n with
                 | O => None
                 | S n' => backoff k lo n'
                 end
       end.

(** [rmatch re s cs]: match [re] at the start of [s]; the result is the text
    left after the match and the captures. *)
Fixpoint rmatch (re : regex) (s : text) (cs : captures)
  : option (text * captures) :=
  match re with
  | [] => Some (s, cs)
  | Chr p :: re' =>
      match s with
      | c :: s' => if p c then rmatch re' s' cs else None
      | [] => None
      end
  | Rep p lo :: re' =>
      backoff (fun n => rmatch re' (skipn n s) cs) lo (run p s)
  | Open g :: re' => rmatch re' s (mark g s cs)
  | Close g :: re' => rmatch re' s (capture g s cs)
  end.

(** A match object: [group(0)] and the numbered groups. *)
Record mobj : Type := mkMobj {
  whole : text;
  caps : captures
}.

Definition group (m : mobj) (g : nat) : text :=
  match g with
  | O => whole m
  | _ => match assoc g (groups (caps m)) with
         | Some v => v
         | None => []
         end
  end.

(** [re.match]: the match object and the text after the match. *)
Definition match_at (re : regex) (s : text) : option (mobj * text) :=
  match rmatch re s no_captures with
  | Some (rest, cs) =>
      Some (mkMobj (firstn (length s - length rest) s) cs, rest)
  | None => None
  end.

(** [re.search]: the leftmost match. *)
Fixpoint search (re : regex) (s : text) : option mobj :=
  match match_at re s with
  | Some (m, _) => Some m
  | None => match s with
            | [] => None
            | _ :: s' => search re s'
            end
  end.

Definition dec_count (count : option nat) : option nat :=
  match count with
  | Some n => Some (n - 1)
  | None => None
  end.

Definition exhausted (count : option nat) : bool :=
  match count with
  | Some O => true
  | _ => false
  end.

(** [re.sub(re, repl, s, count)] with [repl] a function of the match object;
    [count = None] is Python's default (replace all).  [skip] counts the
    characters of the last match still to be dropped.  An empty match is
    replaced and the scan moves on by one character. *)
Fixpoint sub_from (re : regex) (repl : mobj -> text) (count : option nat)
  (skip : nat) (s : text) : text :=
  match s with
  | [] =>
      match skip, exhausted count, match_at re [] with
      | O, false, Some (m, _) => repl m
      | _, _, _ => []
      end
  | c :: s' =>
      match skip with
      | S k => sub_from re repl count k s'
      | O =>
          if exhausted count then c :: sub_from re repl count 0 s'
          else
            match match_at re s with
            | Some (m, _) =>
                repl m ++
                match length (whole m) with
                | O => c :: sub_from re repl (dec_count count) 0 s'
                | S k => sub_from re repl (dec_count count) k s'
                end
            | None => c :: sub_from re repl count 0 s'
            end
      end
  end.

Definition sub (re : regex) (repl : mobj -> text) (count : option nat)
  (s : text) : text :=
  sub_from re repl count 0 s.

(** *** Replacement templates

    A replacement string goes through [re]'s template parser: a backslash
    starts a group reference or an escape.  CPython 3.12 rules. *)
Inductive piece : Type :=
| Lit (t : text)
| Grp (g : nat).

Definition expand_piece (m : mobj) (p : piece) : text :=
  match p with
  | Lit t => t
  | Grp g => group m g
  end.

Definition expand (tpl : list piece) (m : mobj) : text :=
  concat (map (expand_piece m) tpl).

Definition escape_char (e : ascii) : option ascii :=
  match code e with
  | 97 => Some (ascii_of_nat 7)     (* \a *)
  | 98 => Some (ascii_of_nat 8)     (* \b *)
  | 102 => Some (ascii_of_nat 12)   (* \f *)
  | 110 => Some (ascii_of_nat 10)   (* \n *)
  | 114 => Some (ascii_of_nat 13)   (* \r *)
  | 116 => Some (ascii_of_nat 9)    (* \t *)
  | 118 => Some (ascii_of_nat 11)   (* \v *)
  | 92 => Some bslash               (* \\ *)
  | _ => None
  end.

Definition digit_val (c : ascii) : nat := code c - 48.

Definition group_ref (ngroups g : nat) : option piece :=
  if g <=? ngroups then Some (Grp g) else None.

(** [\g<name>]: the name up to [>], which must be a group number. *)
Fixpoint until_gt (s : text) : option (text * text) :=
  match s with
  | [] => None
  | c :: s' =>
      if Ascii.eqb c ">"%char then Some ([], s')
      else match until_gt s' with
           | Some (n, r) => Some (c :: n, r)
           | None => None
           end
  end.

Fixpoint parse_template_fuel (fuel ngroups : nat) (t : text)
  : option (list piece) :=
  match fuel with
  | O => match t with [] => Some [] | _ => None end
  | S fuel' =>
    let continue (p : piece) (rest : text) :=
      match parse_template_fuel fuel' ngroups rest with
      | Some ps => Some (p :: ps)
      | None => None
      end in
    match t with
    | [] => Some []
    | c :: t1 =>
      if negb (Ascii.eqb c bslash) then continue (Lit [c]) t1
      else
        match t1 with
        | [] => None                                   (* bad escape at end *)
        | e :: t2 =>
          if Ascii.eqb e "g"%char then
            match t2 with
            | lt :: t3 =>
                if Ascii.eqb lt "<"%char then
                  match until_gt t3 with
                  | Some (name, rest) =>
                      if negb (forallb is_digit name) then None
                      else match name with
                           | [] => None                (* missing group name *)
                           | _ =>
                             match group_ref ngroups (N.to_nat (int_of_text name)) with
                             | Some p => continue p rest
                             | None => None
                             end
                           end
                  | None => None                       (* missing > *)
                  end
                else None                              (* missing < *)
            | [] => None
            end
          else if Ascii.eqb e "0"%char then
            (* octal escape: up to two more octal digits *)
            match t2 with
            | x1 :: t3 =>
                if is_octal x1 then
                  match t3 with
                  | x2 :: t4 =>
                      if is_octal x2
                      then continue
                             (Lit [ascii_of_nat
                                     ((digit_val x1 * 8 + digit_val x2) mod 256)]) t4
                      else continue (Lit [ascii_of_nat (digit_val x1)]) t3
                  | [] => continue (Lit [ascii_of_nat (digit_val x1)]) t3
                  end
                else continue (Lit [ascii_of_nat 0]) t2
            | [] => continue (Lit [ascii_of_nat 0]) t2
            end
          else if is_digit e then
            match t2 with
            | x1 :: t3 =>
                if is_digit x1 then
                  match t3 with
                  | x2 :: t4 =>
                      if is_octal e && is_octal x1 && is_octal x2 then
                        let v := (digit_val e * 8 + digit_val x1) * 8 + digit_val x2 in
                        if 255 <? v then None          (* octal escape out of range *)
                        else continue (Lit [ascii_of_nat v]) t4
                      else
                        match group_ref ngroups (digit_val e * 10 + digit_val x1) with
                        | Some p => continue p t3
                        | None => None
                        end
                  | [] =>
                      match group_ref ngroups (digit_val e * 10 + digit_val x1) with
                      | Some p => continue p t3
                      | None => None
                      end
                  end
                else
                  match group_ref ngroups (digit_val e) with
                  | Some p => continue p t2
                  | None => None
                  end
            | [] =>
                match group_ref ngroups (digit_val e) with
                | Some p => continue p t2
                | None => None
                end
            end
          else
            match escape_char e with
            | Some x => continue (Lit [x]) t2
            | None =>
                if is_ascii_letter e then None         (* bad escape *)
                else continue (Lit [c; e]) t2
            end
        end
    end
  end.

(** [None] stands for the [re.error] (or [IndexError]) raised on a bad
    template. *)
Definition parse_template (ngroups : nat) (t : text) : option (list piece) :=
  parse_template_fuel (length t) ngroups t.

End Re.

Import Re.

(** Python's [x if c else y] on optional match objects, and the option
    monad for a step that can raise. *)
Definition raise_or {A : Type} (o : option A) (k : A -> option text)
  : option text :=
  match o with
  | Some a => k a
  | None => None
  end.

(** ** fix_svgs_properly.py *)

Module FixSvgsProperly.

(** [viewBox=`([^`]+)`] *)
Definition re_viewBox : regex :=
  lit (txt "viewBox=`") ++ [Open 1; Rep (not_char dq) 1; Close 1] ++ lit (txt "`").

(** [width=`(\d+)`] and [height=`(\d+)`] *)
Definition re_width : regex :=
  lit (txt "width=`") ++ [Open 1; Rep is_digit 1; Close 1] ++ lit (txt "`").
Definition re_height : regex :=
  lit (txt "height=`") ++ [Open 1; Rep is_digit 1; Close 1] ++ lit (txt "`").

(** [<svg[^>]*>] *)
Definition svg_pattern : regex :=
  lit (txt "<svg") ++ [Rep (not_char ">"%char) 0] ++ lit (txt ">").

Definition svg_replacement (viewbox : text) : text :=
  txt "<svg viewBox=`" ++ viewbox ++
  txt "` xmlns=`http://www.w3.org/2000/svg` style=`width: 100%; height: auto; max-width: 100%; display: block;`>".

(** [font-size=`(\d+)`] *)
Definition re_font_size : regex :=
  lit (txt "font-size=`") ++ [Open 1; Rep is_digit 1; Close 1] ++ lit (txt "`").

Definition font_size_attr (n : N) : text :=
  txt "font-size=`" ++ str_of_N n ++ txt "`".

Definition new_font_size (size : N) : N :=
  if (size <? 14)%N then 16%N
  else if (size <? 16)%N then 18%N
  else if (size <? 18)%N then 20%N
  else (size + 4)%N.

Definition increase_font_size (m : mobj) : text :=
  let size := int_of_text (group m 1) in
  font_size_attr (new_font_size size).

Definition color_replacements : list (text * text) :=
  [ (txt "#CBD5E0", txt "#1F2937");
    (txt "#A0AEC0", txt "#374151");
    (txt "#E2E8F0", txt "#1F2937");
    (txt "#EDF2F7", txt "#111827");
    (txt "#F7FAFC", txt "#111827");
    (txt "#9CA3AF", txt "#374151");
    (txt "#D1D5DB", txt "#4B5563");
    (txt "#718096", txt "#374151");
    (txt "#4A5568", txt "#1F2937");
    (txt "#90CDF4", txt "#1E40AF");
    (txt "#63B3ED", txt "#2563EB");
    (txt "#4A90E2", txt "#1D4ED8");
    (txt "#81E6D9", txt "#0E7490");
    (txt "#4FD1C5", txt "#0891B2");
    (txt "#38D4B2", txt "#0D9488");
    (txt "#E9D8FD", txt "#6B21A8");
    (txt "#D6BCFA", txt "#7C3AED");
    (txt "#B794F4", txt "#9333EA");
    (txt "#9F7AEA", txt "#7C3AED");
    (txt "#FBD38D", txt "#C2410C");
    (txt "#F6AD55", txt "#EA580C");
    (txt "#ED8936", txt "#C2410C");
    (txt "#FEB2B2", txt "#B91C1C");
    (txt "#FC8181", txt "#DC2626");
    (txt "#E53E3E", txt "#DC2626");
    (txt "#9AE6B4", txt "#047857");
    (txt "#68D391", txt "#059669");
    (txt "#48BB78", txt "#047857");
    (txt "#38A169", txt "#059669");
    (txt "#B2F5EA", txt "#047857");
    (txt "#888", txt "#374151");
    (txt "#888888", txt "#374151");
    (txt "#FAFAFA", txt "transparent");
    (txt "#fff", txt "#111827");
    (txt "#ffffff", txt "#111827");
    (txt "#FFF", txt "#111827");
    (txt "#FFFFFF", txt "#111827") ].

(** [re.sub(old, new, content, flags=re.IGNORECASE)] for texts without
    pattern or template metacharacters (the table's colours are [#] and hex
    digits, the attribute prefixes are letters, [=], [:] and quotes). *)
Definition sub_ci (old new content : text) : text :=
  sub (lit_ci old) (fun _ => new) None content.

(** The body of the loop over [color_replacements.items()]. *)
Definition replace_color (content : text) (entry : text * text) : text :=
  let '(old_color, new_color) := entry in
  let content :=
    sub_ci (txt "fill=`" ++ old_color ++ txt "`")
           (txt "fill=`" ++ new_color ++ txt "`") content in
  let content :=
    sub_ci (txt "stroke=`" ++ old_color ++ txt "`")
           (txt "stroke=`" ++ new_color ++ txt "`") content in
  let content :=
    sub_ci (txt "fill:" ++ old_color) (txt "fill:" ++ new_color) content in
  sub_ci (txt "stroke:" ++ old_color) (txt "stroke:" ++ new_color) content.

Definition remap_colors (content : text) : text :=
  fold_left replace_color color_replacements content.

(** [<rect[^>]*fill=`COLOR`[^>]*>] *)
Definition re_rect_fill (color : text) : regex :=
  lit (txt "<rect") ++ [Rep (not_char ">"%char) 0] ++
  lit (txt "fill=`" ++ color ++ txt "`") ++
  [Rep (not_char ">"%char) 0] ++ lit (txt ">").

Definition remove_backgrounds (content : text) : text :=
  let content := sub (re_rect_fill (txt "#FAFAFA")) (fun _ => []) None content in
  let content := sub (re_rect_fill (txt "white")) (fun _ => []) None content in
  let content := sub (re_rect_fill (txt "#FFFFFF")) (fun _ => []) None content in
  sub (re_rect_fill (txt "#ffffff")) (fun _ => []) None content.

(** [font-family=`[^`]*`] *)
Definition re_font_family : regex :=
  lit (txt "font-family=`") ++ [Rep (not_char dq) 0] ++ lit (txt "`").

(** [viewBox=`(\d+)\s+(\d+)\s+(\d+)\s+(\d+)`] *)
Definition re_viewBox_ints : regex :=
  lit (txt "viewBox=`") ++
  [Open 1; Rep is_digit 1; Close 1; Rep is_space 1;
   Open 2; Rep is_digit 1; Close 2; Rep is_space 1;
   Open 3; Rep is_digit 1; Close 3; Rep is_space 1;
   Open 4; Rep is_digit 1; Close 4] ++ lit (txt "`").

(** [viewBox=`[^`]*`] *)
Definition re_viewBox_any : regex :=
  lit (txt "viewBox=`") ++ [Rep (not_char dq) 0] ++ lit (txt "`").

(** Step 1: the responsive [<svg>] header.  The replacement holds text of
    the file, so its template can be ill-formed: [None] is the exception. *)
Definition fix_header (content : text) : option text :=
  if contains (txt "<svg") content then
    let viewbox_match := search re_viewBox content in
    let width_match := search re_width content in
    let height_match := search re_height content in
    let viewbox :=
      match viewbox_match, width_match, height_match with
      | Some vb, _, _ => group vb 1
      | None, Some w, Some h => txt "0 0 " ++ group w 1 ++ txt " " ++ group h 1
      | _, _, _ => txt "0 0 800 600"
      end in
    match parse_template 0 (svg_replacement viewbox) with
    | Some tpl => Some (sub svg_pattern (expand tpl) (Some 1) content)
    | None => None
    end
  else Some content.

(** Step 9: padding of the viewBox. *)
Definition pad_viewBox (content : text) : text :=
  match search re_viewBox_ints content with
  | Some vm =>
      let x := Z.of_N (int_of_text (group vm 1)) in
      let y := Z.of_N (int_of_text (group vm 2)) in
      let width := Z.of_N (int_of_text (group vm 3)) in
      let height := Z.of_N (int_of_text (group vm 4)) in
      let new_viewbox :=
        txt "viewBox=`" ++ str_of_Z (x - 20) ++ txt " " ++ str_of_Z (y - 20)
        ++ txt " " ++ str_of_Z (width + 40) ++ txt " " ++ str_of_Z (height + 40)
        ++ txt "`" in
      sub re_viewBox_any (fun _ => new_viewbox) (Some 1) content
  | None => content
  end.

(** Steps 2 to 9 cannot raise. *)
Definition fix_body (content : text) : text :=
  (* 2. font sizes *)
  let content := sub re_font_size increase_font_size None content in
  (* 3. colours *)
  let content := remap_colors content in
  (* 4. white and light backgrounds *)
  let content := remove_backgrounds content in
  (* 5. stroke widths *)
  let content :=
    sub (lit (txt "stroke-width=`1`")) (fun _ => txt "stroke-width=`2`") None content in
  let content :=
    sub (lit (txt "stroke-width=`0.5`")) (fun _ => txt "stroke-width=`2`") None content in
  (* 6. font weights *)
  let content :=
    sub (lit (txt "font-weight=`bold`")) (fun _ => txt "font-weight=`700`") None content in
  (* 7. font families *)
  let content :=
    sub re_font_family
      (fun _ => txt "font-family=`system-ui, -apple-system, BlinkMacSystemFont, Segoe UI, Roboto, sans-serif`")
      None content in
  (* 8. arrow markers *)
  let content :=
    sub (lit (txt "<path d=`M0,0 L0,6 L9,3 z` fill=`#888`/>"))
      (fun _ => txt "<path d=`M0,0 L0,6 L9,3 z` fill=`#374151`/>") None content in
  (* 9. padding *)
  pad_viewBox content.

Definition fix_svg_content (content filename : text) : option text :=
  raise_or (fix_header content) (fun content => Some (fix_body content)).

End FixSvgsProperly.


(** ** fix_svg_attributes.py *)

Module FixSvgAttributes.

(** [rx=`([^`]+)`\s*/] and [ry=`([^`]+)`\s*/], replaced by [rx=`\1`]. *)
Definition re_radius_slash (name : text) : regex :=
  lit (name ++ txt "=`") ++ [Open 1; Rep (not_char dq) 1; Close 1] ++
  lit (txt "`") ++ [Rep is_space 0] ++ lit (txt "/").

Definition tpl_radius (name : text) : list piece :=
  [Lit (name ++ txt "=`"); Grp 1; Lit (txt "`")].

(** [rx=`([^`]+)`/\s*filter=`([^`]+)`], replaced by [rx=`\1` filter=`\2`]. *)
Definition re_rx_filter : regex :=
  lit (txt "rx=`") ++ [Open 1; Rep (not_char dq) 1; Close 1] ++
  lit (txt "`/") ++ [Rep is_space 0] ++ lit (txt "filter=`") ++
  [Open 2; Rep (not_char dq) 1; Close 2] ++ lit (txt "`").

Definition tpl_rx_filter : list piece :=
  [Lit (txt "rx=`"); Grp 1; Lit (txt "` filter=`"); Grp 2; Lit (txt "`")].

(** [/>>], replaced by [/>]. *)
Definition re_double_close : regex := lit (txt "/>>").

(** [`\s+([a-z-]+)=`], replaced by [` \1=`]. *)
Definition re_attr_gap : regex :=
  lit (txt "`") ++ [Rep is_space 1; Open 1; Rep is_lower_or_dash 1; Close 1] ++
  lit (txt "=`").

Definition tpl_attr_gap : list piece :=
  [Lit (txt "` "); Grp 1; Lit (txt "=`")].

(** [<rect([^>]+)`\s*/\s+([a-z-]+)=`([^`]+)`>], replaced by
    [<rect\1` \2=`\3`>]. *)
Definition re_rect_ending : regex :=
  lit (txt "<rect") ++ [Open 1; Rep (not_char ">"%char) 1; Close 1] ++
  lit (txt "`") ++ [Rep is_space 0] ++ lit (txt "/") ++
  [Rep is_space 1; Open 2; Rep is_lower_or_dash 1; Close 2] ++
  lit (txt "=`") ++ [Open 3; Rep (not_char dq) 1; Close 3] ++ lit (txt "`>").

Definition tpl_rect_ending : list piece :=
  [Lit (txt "<rect"); Grp 1; Lit (txt "` "); Grp 2; Lit (txt "=`"); Grp 3;
   Lit (txt "`>")].

(** [stroke-width=`(\d+)`\s+rx=`(\d+)`/\s*filter=`([^`]+)`>], replaced by
    [stroke-width=`\1` rx=`\2` filter=`\3`>]. *)
Definition re_stroke_rx_filter : regex :=
  lit (txt "stroke-width=`") ++ [Open 1; Rep is_digit 1; Close 1] ++
  lit (txt "`") ++ [Rep is_space 1] ++ lit (txt "rx=`") ++
  [Open 2; Rep is_digit 1; Close 2] ++ lit (txt "`/") ++ [Rep is_space 0] ++
  lit (txt "filter=`") ++ [Open 3; Rep (not_char dq) 1; Close 3] ++
  lit (txt "`>").

Definition tpl_stroke_rx_filter : list piece :=
  [Lit (txt "stroke-width=`"); Grp 1; Lit (txt "` rx=`"); Grp 2;
   Lit (txt "` filter=`"); Grp 3; Lit (txt "`>")].

(** [=`(V)`\s*/] with [V] the class [[^`]] repeated zero or more times,
    replaced by [=`\1`]. *)
Definition re_quote_slash : regex :=
  lit (txt "=`") ++ [Open 1; Rep (not_char dq) 0; Close 1] ++
  lit (txt "`") ++ [Rep is_space 0] ++ lit (txt "/").

Definition tpl_quote_slash : list piece :=
  [Lit (txt "=`"); Grp 1; Lit (txt "`")].

(** The eight substitutions, in order. *)
Definition fix_rx (c : text) : text :=
  sub (re_radius_slash (txt "rx")) (expand (tpl_radius (txt "rx"))) None c.
Definition fix_ry (c : text) : text :=
  sub (re_radius_slash (txt "ry")) (expand (tpl_radius (txt "ry"))) None c.
Definition fix_rx_filter (c : text) : text :=
  sub re_rx_filter (expand tpl_rx_filter) None c.
Definition fix_double_close (c : text) : text :=
  sub re_double_close (fun _ => txt "/>") None c.
Definition fix_attr_gap (c : text) : text :=
  sub re_attr_gap (expand tpl_attr_gap) None c.
Definition fix_rect_ending (c : text) : text :=
  sub re_rect_ending (expand tpl_rect_ending) None c.
Definition fix_stroke_rx_filter (c : text) : text :=
  sub re_stroke_rx_filter (expand tpl_stroke_rx_filter) None c.
Definition fix_quote_slash (c : text) : text :=
  sub re_quote_slash (expand tpl_quote_slash) None c.

Definition substitutions (content : text) : text :=
  fix_quote_slash
    (fix_stroke_rx_filter
       (fix_rect_ending
          (fix_attr_gap
             (fix_double_close
                (fix_rx_filter (fix_ry (fix_rx content))))))).

(** The body of the loop over the lines. *)
Definition fix_line (line : text) : text :=
  if contains (txt "<rect") line
     && ends_with (txt ">") (strip line)
     && negb (ends_with (txt "/>") (strip line))
  then
    if contains (txt "fill=`none`") line
       || contains (txt "fill=`transparent`") line
       || contains (txt "fill=`white`") line
    then rstrip_char ">"%char line ++ txt "/>"
    else line
  else line.

Definition fix_lines (content : text) : text :=
  join_with nl (map fix_line (split_on nl content)).

Definition fix_malformed_attributes (content : text) : text :=
  fix_lines (substitutions content).

End FixSvgAttributes.

(** ** safe_svg_improve.py, the rewriting of the content *)

Module SafeSvgImprove.

(** Group 1 is [<svg[^>]*], group 2 is [>]; the match is replaced by
    [\1 style=`max-width: 100%; height: auto;`\2]. *)
Definition re_svg_open : regex :=
  [Open 1] ++ lit (txt "<svg") ++ [Rep (not_char ">"%char) 0; Close 1; Open 2]
  ++ lit (txt ">") ++ [Close 2].

Definition tpl_style : list piece :=
  [Grp 1; Lit (txt " style=`max-width: 100%; height: auto;`"); Grp 2].

Definition add_style (content : text) : text :=
  if negb (contains (txt "style=") (before_first ">"%char content))
  then sub re_svg_open (expand tpl_style) (Some 1) content
  else content.

Definition re_font_size : regex := FixSvgsProperly.re_font_size.

Definition increase_font_size (m : mobj) : text :=
  let size := int_of_text (group m 1) in
  if (size <? 12)%N then txt "font-size=`" ++ str_of_N 14 ++ txt "`"
  else if (size =? 12)%N || (size =? 13)%N
       then txt "font-size=`" ++ str_of_N 14 ++ txt "`"
       else group m 0.

Definition text_color_improvements : list (text * text) :=
  [ (txt "#CBD5E0", txt "#374151");
    (txt "#A0AEC0", txt "#4B5563");
    (txt "#718096", txt "#374151");
    (txt "#E9D8FD", txt "#6B21A8");
    (txt "#FBD38D", txt "#92400E");
    (txt "#90CDF4", txt "#1E40AF");
    (txt "#B2F5EA", txt "#047857");
    (txt "#9AE6B4", txt "#047857") ].

(** Group 1 is [<text[^>]*fill=`], then the old colour, group 2 is the
    closing quote; all under [re.IGNORECASE]; replaced by [\1NEW\2]. *)
Definition re_text_fill (old_color : text) : regex :=
  [Open 1] ++ lit_ci (txt "<text") ++ [Rep (not_char ">"%char) 0] ++
  lit_ci (txt "fill=`") ++ [Close 1] ++ lit_ci old_color ++
  [Open 2] ++ lit_ci (txt "`") ++ [Close 2].

Definition improve_text_color (content : text) (entry : text * text) : text :=
  let '(old_color, new_color) := entry in
  sub (re_text_fill old_color) (expand [Grp 1; Lit new_color; Grp 2]) None content.

(** [<rect[^>]*/>] *)
Definition re_rect_selfclosed : regex :=
  lit (txt "<rect") ++ [Rep (not_char ">"%char) 0] ++ lit (txt "/>").

Definition add_rounded_corners (m : mobj) : text :=
  let rect := group m 0 in
  if negb (contains (txt "rx=") rect) && contains (txt "fill=`none`") rect
  then firstn (length rect - 2) rect ++ txt " rx=`4`/>"
  else rect.

Definition improve (content : text) : text :=
  let content := add_style content in
  let content := sub re_font_size increase_font_size None content in
  let content := fold_left improve_text_color text_color_improvements content in
  let content :=
    sub (lit (txt "stroke-width=`1`")) (fun _ => txt "stroke-width=`2`") None content in
  let content :=
    sub (lit (txt "stroke-width=`0.5`")) (fun _ => txt "stroke-width=`2`") None content in
  let content := sub re_rect_selfclosed add_rounded_corners None content in
  let content :=
    sub (lit (txt "fill=`#888`")) (fun _ => txt "fill=`#374151`") None content in
  let content :=
    sub (lit (txt "font-family=`Arial, sans-serif`"))
      (fun _ => txt "font-family=`-apple-system, BlinkMacSystemFont, 'Segoe UI', Roboto, Arial, sans-serif`")
      None content in
  sub (lit (txt "font-weight=`bold`")) (fun _ => txt "font-weight=`600`") None content.

End SafeSvgImprove.

(** ** minimal_svg_fix.py, the rewriting of the content *)

Module MinimalSvgFix.

Definition re_font_size : regex := FixSvgsProperly.re_font_size.

Definition new_font_size (size : N) : N :=
  if (size <=? 11)%N then 16%N
  else if (size =? 12)%N then 18%N
  else if (size <=? 14)%N then 20%N
  else (size + 4)%N.

Definition fix_font_size (m : mobj) : text :=
  let size := int_of_text (group m 1) in
  txt "font-size=`" ++ str_of_N (new_font_size size) ++ txt "`".

(** The [content.replace('fill=`OLD`', 'fill=`NEW`')] calls, in order. *)
Definition fill_replacements : list (text * text) :=
  [ (txt "#CBD5E0", txt "#1F2937");
    (txt "#A0AEC0", txt "#374151");
    (txt "#718096", txt "#374151");
    (txt "#E2E8F0", txt "#1F2937");
    (txt "#90CDF4", txt "#1E40AF");
    (txt "#63B3ED", txt "#2563EB");
    (txt "#E9D8FD", txt "#7C3AED");
    (txt "#D6BCFA", txt "#9333EA");
    (txt "#B794F4", txt "#9333EA");
    (txt "#FBD38D", txt "#EA580C");
    (txt "#F6AD55", txt "#D97706");
    (txt "#FEB2B2", txt "#DC2626");
    (txt "#FC8181", txt "#EF4444");
    (txt "#9AE6B4", txt "#10B981");
    (txt "#68D391", txt "#059669");
    (txt "#48BB78", txt "#047857");
    (txt "#81E6D9", txt "#0891B2");
    (txt "#4FD1C5", txt "#0891B2");
    (txt "#B2F5EA", txt "#0E7490");
    (txt "#888", txt "#4B5563") ].

Definition replace_fill (content : text) (entry : text * text) : text :=
  let '(old_color, new_color) := entry in
  replace (txt "fill=`" ++ old_color ++ txt "`")
          (txt "fill=`" ++ new_color ++ txt "`") content.

Definition remap_fills (content : text) : text :=
  fold_left replace_fill fill_replacements content.

Definition add_style (content : text) : text :=
  if contains (txt "<svg") content
     && negb (contains (txt "style=") (before_first ">"%char content))
  then sub SafeSvgImprove.re_svg_open (expand SafeSvgImprove.tpl_style) (Some 1) content
  else content.

Definition fix_content (content : text) : text :=
  let content := sub re_font_size fix_font_size None content in
  let content := remap_fills content in
  add_style content.

End MinimalSvgFix.

(** ** fix_all_svgs.py, the colour map *)

Module FixAllSvgs.

Definition color_map : list (text * text) :=
  [ (txt "#63B3ED", txt "#2563EB");
    (txt "#90CDF4", txt "#3B82F6");
    (txt "#4A90E2", txt "#2563EB");
    (txt "#CBD5E0", txt "#1F2937");
    (txt "#A0AEC0", txt "#4B5563");
    (txt "#68D391", txt "#059669");
    (txt "#48BB78", txt "#10B981");
    (txt "#38A169", txt "#059669");
    (txt "#9AE6B4", txt "#10B981");
    (txt "#B794F4", txt "#7C3AED");
    (txt "#D6BCFA", txt "#8B5CF6");
    (txt "#9F7AEA", txt "#7C3AED");
    (txt "#E9D8FD", txt "#8B5CF6");
    (txt "#F6AD55", txt "#EA580C");
    (txt "#FBD38D", txt "#F97316");
    (txt "#ED8936", txt "#EA580C");
    (txt "#FC8181", txt "#DC2626");
    (txt "#FEB2B2", txt "#EF4444");
    (txt "#E53E3E", txt "#DC2626");
    (txt "#4FD1C5", txt "#0891B2");
    (txt "#81E6D9", txt "#06B6D4");
    (txt "#38D4B2", txt "#0891B2");
    (txt "#B2F5EA", txt "#06B6D4");
    (txt "#4A5568", txt "#6B7280");
    (txt "#718096", txt "#6B7280");
    (txt "#888", txt "#6B7280") ].

(** The body of the loop over [color_map.items()]. *)
Definition replace_color (main_content : text) (entry : text * text) : text :=
  let '(old_color, new_color) := entry in
  let main_content :=
    replace (txt "fill=`" ++ old_color ++ txt "`")
            (txt "fill=`" ++ new_color ++ txt "`") main_content in
  let main_content :=
    replace (txt "stroke=`" ++ old_color ++ txt "`")
            (txt "stroke=`" ++ new_color ++ txt "`") main_content in
  let main_content :=
    replace (txt "fill=`" ++ lower old_color ++ txt "`")
            (txt "fill=`" ++ new_color ++ txt "`") main_content in
  replace (txt "stroke=`" ++ lower old_color ++ txt "`")
          (txt "stroke=`" ++ new_color ++ txt "`") main_content.

Definition remap_colors (main_content : text) : text :=
  fold_left replace_color color_map main_content.

(** [font-size=`(\d+)`], as in the other scripts. *)
Definition re_font_size : regex := FixSvgsProperly.re_font_size.

(** The callback of the font-size pass: sizes below 14 become 14, sizes
    above 24 become 24, the others keep their text. *)
Definition fix_font_size (m : mobj) : text :=
  let size := int_of_text (group m 1) in
  if (size <? 12)%N then txt "font-size=`" ++ str_of_N 14 ++ txt "`"
  else if (size <? 14)%N then txt "font-size=`" ++ str_of_N 14 ++ txt "`"
  else if (24 <? size)%N then txt "font-size=`" ++ str_of_N 24 ++ txt "`"
  else group m 0.

(** [<rect[^>]*/>], as in safe_svg_improve.py. *)
Definition re_rect_selfclosed : regex := SafeSvgImprove.re_rect_selfclosed.

(** The callback of the pass over [<rect[^>]*/>]: [rect[:-1]] drops the
    closing [>] only. *)
Definition add_rounded_corners (m : mobj) : text :=
  let rect := group m 0 in
  if negb (contains (txt "rx=") rect)
  then firstn (length rect - 1) rect ++ txt " rx=`6`/>"
  else rect.

End FixAllSvgs.

(** ** beautify_all_svgs.py, the font-size callback and the new file *)

Module BeautifyAllSvgs.

(** The dictionary [FONT_SIZES]; its values are strings. *)
Definition font_title : text := txt "24".
Definition font_heading : text := txt "18".
Definition font_body : text := txt "16".
Definition font_label : text := txt "14".
Definition font_small : text := txt "12".

(** [font-size=`(\d+)`], as in the other scripts. *)
Definition re_font_size : regex := FixSvgsProperly.re_font_size.

Definition update_font_size (m : mobj) : text :=
  let size := int_of_text (group m 1) in
  if (20 <=? size)%N then txt "font-size=`" ++ font_title ++ txt "`"
  else if (16 <=? size)%N then txt "font-size=`" ++ font_heading ++ txt "`"
  else if (14 <=? size)%N then txt "font-size=`" ++ font_body ++ txt "`"
  else if (12 <=? size)%N then txt "font-size=`" ++ font_label ++ txt "`"
  else txt "font-size=`" ++ font_small ++ txt "`".

(** The entries of [COLORS] and [LAYOUT] that [create_improved_svg] uses. *)
Definition primary_blue : text := txt "#2563EB".
Definition primary_green : text := txt "#059669".
Definition primary_purple : text := txt "#7C3AED".
Definition primary_orange : text := txt "#EA580C".
Definition bg_light : text := txt "#F9FAFB".
Definition border_secondary : text := txt "#9CA3AF".
Definition margin : Z := 40.
Definition corner_radius : Z := 8.

(** The f-string [new_header], piece by piece. *)
Definition new_header (new_width new_height : Z) : text :=
  txt "<svg viewBox=`0 0 "
  ++ str_of_Z new_width
  ++ txt " "
  ++ str_of_Z new_height
  ++ txt "`
     xmlns=`http://www.w3.org/2000/svg`
     style=`max-width: 100%; height: auto; min-height: 400px;`>

  <!-- Beautiful gradient definitions for depth -->
  <defs>
    <linearGradient id=`blueGradient` x1=`0%` y1=`0%` x2=`0%` y2=`100%`>
      <stop offset=`0%` style=`stop-color:"
  ++ primary_blue
  ++ txt ";stop-opacity:0.9` />
      <stop offset=`100%` style=`stop-color:"
  ++ primary_blue
  ++ txt ";stop-opacity:1` />
    </linearGradient>

    <linearGradient id=`greenGradient` x1=`0%` y1=`0%` x2=`0%` y2=`100%`>
      <stop offset=`0%` style=`stop-color:"
  ++ primary_green
  ++ txt ";stop-opacity:0.9` />
      <stop offset=`100%` style=`stop-color:"
  ++ primary_green
  ++ txt ";stop-opacity:1` />
    </linearGradient>

    <linearGradient id=`purpleGradient` x1=`0%` y1=`0%` x2=`0%` y2=`100%`>
      <stop offset=`0%` style=`stop-color:"
  ++ primary_purple
  ++ txt ";stop-opacity:0.9` />
      <stop offset=`100%` style=`stop-color:"
  ++ primary_purple
  ++ txt ";stop-opacity:1` />
    </linearGradient>

    <linearGradient id=`orangeGradient` x1=`0%` y1=`0%` x2=`0%` y2=`100%`>
      <stop offset=`0%` style=`stop-color:"
  ++ primary_orange
  ++ txt ";stop-opacity:0.9` />
      <stop offset=`100%` style=`stop-color:"
  ++ primary_orange
  ++ txt ";stop-opacity:1` />
    </linearGradient>

    <!-- Enhanced arrow markers -->
    <marker id=`arrow` markerWidth=`12` markerHeight=`12` refX=`11` refY=`6`
            orient=`auto` markerUnits=`strokeWidth`>
      <path d=`M0,0 L0,12 L12,6 z` fill=`"
  ++ primary_blue
  ++ txt "` />
    </marker>

    <marker id=`arrowGreen` markerWidth=`12` markerHeight=`12` refX=`11` refY=`6`
            orient=`auto` markerUnits=`strokeWidth`>
      <path d=`M0,0 L0,12 L12,6 z` fill=`"
  ++ primary_green
  ++ txt "` />
    </marker>

    <!-- Drop shadow filter for depth -->
    <filter id=`shadow` x=`-50%` y=`-50%` width=`200%` height=`200%`>
      <feGaussianBlur in=`SourceAlpha` stdDeviation=`3`/>
      <feOffset dx=`2` dy=`2` result=`offsetblur`/>
      <feComponentTransfer>
        <feFuncA type=`linear` slope=`0.2`/>
      </feComponentTransfer>
      <feMerge>
        <feMergeNode/>
        <feMergeNode in=`SourceGraphic`/>
      </feMerge>
    </filter>

    <!-- Soft shadow for text -->
    <filter id=`textShadow` x=`-50%` y=`-50%` width=`200%` height=`200%`>
      <feGaussianBlur in=`SourceAlpha` stdDeviation=`1`/>
      <feOffset dx=`1` dy=`1` result=`offsetblur`/>
      <feComponentTransfer>
        <feFuncA type=`linear` slope=`0.15`/>
      </feComponentTransfer>
      <feMerge>
        <feMergeNode/>
        <feMergeNode in=`SourceGraphic`/>
      </feMerge>
    </filter>
  </defs>

  <!-- White background with subtle border -->
  <rect x=`0` y=`0` width=`"
  ++ str_of_Z new_width
  ++ txt "` height=`"
  ++ str_of_Z new_height
  ++ txt "`
        fill=`"
  ++ bg_light
  ++ txt "` stroke=`"
  ++ border_secondary
  ++ txt "`
        stroke-width=`1` rx=`"
  ++ str_of_Z corner_radius
  ++ txt "` />

  <!-- Content container with proper margins -->
  <g transform=`translate("
  ++ str_of_Z margin
  ++ txt ", "
  ++ str_of_Z margin
  ++ txt ")`>".

Definition new_footer : text :=
  txt "
  </g>
</svg>".

(** The line of [new_header] by which the loop recognises a file it has
    already rewritten. *)
Definition marker : text := txt "Beautiful gradient definitions".

Section CreateImprovedSvg.

(** Two parts of [create_improved_svg] stay abstract: the reading of the
    size off the content (the three [re.search] calls and the [int]
    conversions, which raise on a viewBox with fewer than four fields or a
    field that is no integer), and the chain of [re.sub] calls over the
    body.  [None] is an exception. *)
Variable dimensions : text -> option (Z * Z).
Variable restyle : text -> option text.

Definition create_improved_svg (content filename : text) : option text :=
  match dimensions content with
  | None => None
  | Some (width, height) =>
      let new_width := (width + margin * 2)%Z in
      let new_height := (height + margin * 2)%Z in
      match restyle content with
      | None => None
      | Some content => Some (new_header new_width new_height ++ content ++ new_footer)
      end
  end.

End CreateImprovedSvg.

End BeautifyAllSvgs.

(** ** validate_svgs.py, the check for small fonts *)

Module ValidateSvgs.

(** [re.findall(re, s)] for a pattern with one group: the text of group 1
    of each match, left to right, the matches not overlapping.  [skip]
    counts the characters of the last match still to be passed; after an
    empty match the scan moves on by one character. *)
Fixpoint findall_from (re : regex) (skip : nat) (s : text) : list text :=
  match s with
  | [] =>
      match skip, match_at re [] with
      | O, Some (m, _) => [group m 1]
      | _, _ => []
      end
  | c :: s' =>
      match skip with
      | S k => findall_from re k s'
      | O =>
          match match_at re s with
          | Some (m, _) =>
              group m 1 ::
              match length (whole m) with
              | O => findall_from re 0 s'
              | S k => findall_from re k s'
              end
          | None => findall_from re 0 s'
          end
      end
  end.

Definition findall (re : regex) (s : text) : list text := findall_from re 0 s.

(** [font-size=`(\d+)`], as in the other scripts. *)
Definition re_font_size : regex := FixSvgsProperly.re_font_size.

(** The list [small_fonts] of [analyze_svg]: the sizes below 12 among the
    font sizes found.  The issue [Small fonts found] is reported when it is
    not empty; with no font size in the content nothing is reported. *)
Definition small_fonts (content : text) : list N :=
  let font_sizes := findall re_font_size content in
  let sizes := map int_of_text font_sizes in
  filter (fun s => (s <? 12)%N) sizes.

End ValidateSvgs.

(** ** rebuild_svgs.py, the curved arrow *)

Module RebuildSvgs.

Section CurvedArrow.

(** Python floats stay abstract: only the test [opacity < 1.0] and the text
    of [str(opacity)] are used. *)
Variable float : Type.
Variable lt_one : float -> bool.
Variable float_str : float -> text.

Definition point : Type := (Z * Z)%type.

Definition coords (p : point) : text :=
  str_of_Z (fst p) ++ txt "," ++ str_of_Z (snd p).

Definition create_curved_arrow (points : list point) (dashed : bool)
  (opacity : float) : text :=
  let dash_attr := if dashed then txt " stroke-dasharray=`3,3`" else [] in
  let opacity_attr :=
    if lt_one opacity then txt " opacity=`" ++ float_str opacity ++ txt "`"
    else [] in
  if length points <? 3 then []
  else
    let at_ (i : nat) : point := nth i points (0%Z, 0%Z) in
    let path := txt "M" ++ coords (at_ 0) in
    let path :=
      if length points =? 3
      then path ++ txt " Q" ++ coords (at_ 1) ++ txt " " ++ coords (at_ 2)
      else fold_left (fun path i => path ++ txt " L" ++ coords (at_ i))
                     (seq 1 (length points - 1)) path in
    txt "<path d=`" ++ path ++ txt "` marker-end=`url(#arrow)`" ++ dash_attr
    ++ opacity_attr ++ txt "/>".

Definition create_arrow (x1 y1 x2 y2 : Z) (dashed : bool) (opacity : float)
  : text :=
  let dash_attr := if dashed then txt " stroke-dasharray=`3,3`" else [] in
  let opacity_attr :=
    if lt_one opacity then txt " opacity=`" ++ float_str opacity ++ txt "`"
    else [] in
  txt "<line x1=`" ++ str_of_Z x1 ++ txt "` y1=`" ++ str_of_Z y1
  ++ txt "` x2=`" ++ str_of_Z x2 ++ txt "` y2=`" ++ str_of_Z y2
  ++ txt "` marker-end=`url(#arrow)`" ++ dash_attr ++ opacity_attr ++ txt "/>".

(** What follows the path data in the result: the marker and the optional
    attributes. *)
Definition arrow_tail (dashed : bool) (opacity : float) : text :=
  txt "` marker-end=`url(#arrow)`"
  ++ (if dashed then txt " stroke-dasharray=`3,3`" else [])
  ++ (if lt_one opacity then txt " opacity=`" ++ float_str opacity ++ txt "`"
      else [])
  ++ txt "/>".

End CurvedArrow.

(** The anchor of the label of a box: [//] is Python's floor division. *)
Definition center_x (x width : Z) : Z := (x + width / 2)%Z.
Definition center_y (y height : Z) : Z := (y + height / 2 + 5)%Z.

Definition create_box (x y width height : Z) (color label : text) : text :=
  txt "<rect x=`" ++ str_of_Z x ++ txt "` y=`" ++ str_of_Z y
  ++ txt "` width=`" ++ str_of_Z width ++ txt "` height=`" ++ str_of_Z height
  ++ txt "` fill=`none` stroke=`" ++ color ++ txt "` stroke-width=`2` rx=`5`/>"
  ++ [nl] ++ txt "  <text x=`" ++ str_of_Z (center_x x width)
  ++ txt "` y=`" ++ str_of_Z (center_y y height)
  ++ txt "` text-anchor=`middle` font-family=`Arial, sans-serif` font-size=`14` fill=`#333`>"
  ++ label ++ txt "</text>".

End RebuildSvgs.

(** ** Files, exceptions and the batch loops *)

Module Fs.

Abbreviation path := (list ascii).

(** The disk and its faults: [read_fault p = Some msg] makes [open(p)] for
    reading raise with message [msg]; [write_fault] likewise for writing.
    [writes] logs every completed [f.write], oldest first. *)
Record state : Type := mkState {
  files : gmap path text;
  read_fault : path -> option text;
  write_fault : path -> option text;
  writes : list (path * text)
}.

Inductive outcome (A : Type) : Type :=
| Ok (a : A)
| Raised (msg : text).

Arguments Ok {A} a.
Arguments Raised {A} msg.

(** Computations on the disk that may raise. *)
Definition M (A : Type) : Type := state -> state * outcome A.

Definition ret {A : Type} (a : A) : M A := fun st => (st, Ok a).

Definition bind {A B : Type} (m : M A) (k : A -> M B) : M B :=
  fun st =>
    match m st with
    | (st', Ok a) => k a st'
    | (st', Raised msg) => (st', Raised msg)
    end.

Definition raise {A : Type} (msg : text) : M A := fun st => (st, Raised msg).

(** [try: body except Exception as e: handler(str(e))] *)
Definition try_except {A : Type} (body : M A) (handler : text -> M A) : M A :=
  fun st =>
    match body st with
    | (st', Ok a) => (st', Ok a)
    | (st', Raised msg) => handler msg st'
    end.

Declare Scope fs_scope.
Delimit Scope fs_scope with fs.
Notation "'do' x <- m ;; k" := (bind m (fun x => k))
  (at level 10, x name, m at level 99, k at level 200) : fs_scope.

Definition missing_msg (p : path) : text :=
  txt "[Errno 2] No such file or directory: '" ++ p ++ txt "'".

(** [with open(p, `r`) as f: f.read()] *)
Definition read_file (p : path) : M text :=
  fun st =>
    match read_fault st p with
    | Some msg => (st, Raised msg)
    | None =>
        match files st !! p with
        | Some c => (st, Ok c)
        | None => (st, Raised (missing_msg p))
        end
    end.

(** [with open(p, `w`) as f: f.write(c)], taken as one step. *)
Definition write_file (p : path) (c : text) : M unit :=
  fun st =>
    match write_fault st p with
    | Some msg => (st, Raised msg)
    | None =>
        (mkState (<[p := c]> (files st)) (read_fault st) (write_fault st)
                 (writes st ++ [(p, c)]), Ok tt)
    end.

(** [os.path.exists(p)] *)
Definition path_exists (p : path) : M bool :=
  fun st => (st, Ok (bool_decide (is_Some (files st !! p)))).

(** The test shared by all scripts:
    [`fontawesome` in str(p).lower() or `favicon` in str(p).lower()]. *)
Definition is_font_or_favicon (p : path) : bool :=
  contains (txt "fontawesome") (lower p) || contains (txt "favicon") (lower p).

(** [for x in l: acc = body(x, acc)] *)
Fixpoint for_each {A : Type} (body : path -> A -> M A) (l : list path) (acc : A)
  : M A :=
  match l with
  | [] => ret acc
  | x :: l' => bind (body x acc) (fun acc' => for_each body l' acc')
  end.

End Fs.

Import Fs.
Local Open Scope fs_scope.

(** *** fix_svgs_properly.py: process_all_svgs *)

Module FixSvgsProperlyMain.

Record counts : Type := mkCounts { fixed : nat; errors : nat }.

(** The body of the [try] for one file. *)
Definition fix_one (svg_file : path) : M unit :=
  do content <- read_file svg_file ;;
  match FixSvgsProperly.fix_svg_content content svg_file with
  | None => raise (txt "re.error")
  | Some fixed_content => write_file svg_file fixed_content
  end.

Definition loop_body (svg_file : path) (c : counts) : M counts :=
  try_except
    (do _ <- fix_one svg_file ;; ret (mkCounts (fixed c + 1) (errors c)))
    (fun _ => ret (mkCounts (fixed c) (errors c + 1))).

(** [glob] is the list found by [docs_dir.glob]. *)
Definition process_all_svgs (glob : list path) : M counts :=
  let svg_files := filter (fun f => negb (is_font_or_favicon f)) glob in
  for_each loop_body svg_files (mkCounts 0 0).

End FixSvgsProperlyMain.

(** *** fix_svg_attributes.py: fix_svg_file and main *)

Module FixSvgAttributesMain.

Inductive status : Type := fixed | unchanged | skipped | error.

Definition fix_svg_file (filepath : path) : M (status * option text) :=
  try_except
    (do content <- read_file filepath ;;
     if is_font_or_favicon filepath then ret (skipped, None)
     else
       let fixed_content := FixSvgAttributes.fix_malformed_attributes content in
       if negb (text_eqb fixed_content content)
       then do _ <- write_file filepath fixed_content ;; ret (fixed, None)
       else ret (unchanged, None))
    (fun e => ret (error, Some e)).

(** The dictionary [stats]. *)
Record stats : Type := mkStats {
  n_fixed : nat; n_unchanged : nat; n_skipped : nat; n_error : nat
}.

Definition bump (s : stats) (st : status) : stats :=
  match st with
  | fixed => mkStats (n_fixed s + 1) (n_unchanged s) (n_skipped s) (n_error s)
  | unchanged => mkStats (n_fixed s) (n_unchanged s + 1) (n_skipped s) (n_error s)
  | skipped => mkStats (n_fixed s) (n_unchanged s) (n_skipped s + 1) (n_error s)
  | error => mkStats (n_fixed s) (n_unchanged s) (n_skipped s) (n_error s + 1)
  end.

Definition loop_body (svg_file : path) (s : stats) : M stats :=
  do r <- fix_svg_file svg_file ;; ret (bump s (fst r)).

Definition main (glob : list path) : M stats :=
  for_each loop_body glob (mkStats 0 0 0 0).

End FixSvgAttributesMain.

(** *** safe_svg_improve.py: safe_improve_svg and main *)

Module SafeSvgImproveMain.

Definition backup_of (filepath : path) : path := filepath ++ txt ".backup".

Definition safe_improve_svg (filepath : path) : M (bool * text) :=
  try_except
    (do content <- read_file filepath ;;
     if is_font_or_favicon filepath then ret (false, txt "Skipped (font/favicon)")
     else
       let original_content := content in
       let content := SafeSvgImprove.improve content in
       if negb (text_eqb content original_content) then
         let backup_path := backup_of filepath in
         do there <- path_exists backup_path ;;
         do _ <- (if negb there then write_file backup_path original_content
               else ret tt) ;;
         do _ <- write_file filepath content ;;
         ret (true, txt "Improved successfully")
       else ret (false, txt "No changes needed"))
    (fun e => ret (false, txt "Error: " ++ e)).

Record counts : Type := mkCounts {
  improved : nat; skipped : nat; unchanged : nat; errors : nat
}.

Definition loop_body (svg_file : path) (c : counts) : M counts :=
  do r <- safe_improve_svg svg_file ;;
  let '(success, message) := r in
  if success
  then ret (mkCounts (improved c + 1) (skipped c) (unchanged c) (errors c))
  else if contains (txt "Skipped") message
  then ret (mkCounts (improved c) (skipped c + 1) (unchanged c) (errors c))
  else if contains (txt "No changes") message
  then ret (mkCounts (improved c) (skipped c) (unchanged c + 1) (errors c))
  else ret (mkCounts (improved c) (skipped c) (unchanged c) (errors c + 1)).

Definition main (glob : list path) : M counts :=
  for_each loop_body glob (mkCounts 0 0 0 0).

End SafeSvgImproveMain.

(** *** minimal_svg_fix.py: minimal_fix_svg and main *)

Module MinimalSvgFixMain.

Definition minimal_fix_svg (filepath : path) : M bool :=
  do content <- read_file filepath ;;
  if is_font_or_favicon filepath then ret false
  else
    do _ <- write_file filepath (MinimalSvgFix.fix_content content) ;;
    ret true.

(** The only counter of [main] is [fixed]. *)
Definition loop_body (svg_file : path) (fixed : nat) : M nat :=
  try_except
    (do ok <- minimal_fix_svg svg_file ;;
     if ok then ret (fixed + 1) else ret fixed)
    (fun _ => ret fixed).

Definition main (glob : list path) : M nat :=
  for_each loop_body glob 0.

End MinimalSvgFixMain.

(** *** fix_all_svgs.py and beautify_all_svgs.py: the loops

    Their rewriting of the content is long and plays no part in what is
    proved about the loops, so it is a parameter here: any function of the
    content (and the file name) that returns the new content or raises. *)

Module FixAllSvgsMain.

Section Loop.

Variable rewrite : text -> option text.

Definition fix_svg_file (filepath : path) : M bool :=
  try_except
    (do content <- read_file filepath ;;
     if is_font_or_favicon filepath then ret false
     else
       match rewrite content with
       | None => raise (txt "error")
       | Some final_svg => do _ <- write_file filepath final_svg ;; ret true
       end)
    (fun _ => ret false).

Record counts : Type := mkCounts {
  fixed_count : nat; skipped_count : nat; error_count : nat
}.

Definition loop_body (svg_file : path) (c : counts) : M counts :=
  if is_font_or_favicon svg_file
  then ret (mkCounts (fixed_count c) (skipped_count c + 1) (error_count c))
  else
    do result <- fix_svg_file svg_file ;;
    if result
    then ret (mkCounts (fixed_count c + 1) (skipped_count c) (error_count c))
    else ret (mkCounts (fixed_count c) (skipped_count c) (error_count c + 1)).

Definition main (glob : list path) : M counts :=
  for_each loop_body glob (mkCounts 0 0 0).

End Loop.

End FixAllSvgsMain.

Module BeautifyAllSvgsMain.

Section Loop.

Variable create_improved_svg : text -> path -> option text.

Definition loop_body (svg_file : path) (_ : unit) : M unit :=
  if is_font_or_favicon svg_file then ret tt
  else
    try_except
      (do content <- read_file svg_file ;;
       if contains (txt "Beautiful gradient definitions") content then ret tt
       else
         match create_improved_svg content svg_file with
         | None => raise (txt "error")
         | Some improved => write_file svg_file improved
         end)
      (fun _ => ret tt).

Definition process_all_svgs (glob : list path) : M unit :=
  for_each loop_body glob tt.

End Loop.

End BeautifyAllSvgsMain.

(** ** The loops over any transformation, with writes that can fail late

    What a loop does with a file (read, skip, compare, back up, write,
    count) does not depend on what the transformation computes.  In the
    modules below the transformation is therefore a parameter: any function
    from the content to a new content or to an exception.  This covers the
    exceptions that the concrete transformations above leave out (Python's
    [int] and [str] raise [ValueError] beyond 4300 digits).

    A write can fail in two ways.  Either [open(p, `w`)] raises and the
    file stays as it was: the field [write_fault] of the disk.  Or the file
    is opened, and so truncated, and [f.write] or the closing of the file
    raises: [late p c] then gives the text left in the file and the text of
    the exception. *)

Module FsLate.

Definition late_fault : Type := path -> text -> option (text * text).

(** No write fails after the file was opened. *)
Definition no_late : late_fault := fun _ _ => None.

(** [with open(p, `w`) as f: f.write(c)] *)
Definition write_file (late : late_fault) (p : path) (c : text) : M unit :=
  fun st =>
    match write_fault st p with
    | Some msg => (st, Raised msg)
    | None =>
        match late p c with
        | Some (remains, msg) =>
            (mkState (<[p := remains]> (files st)) (read_fault st)
                     (write_fault st) (writes st ++ [(p, remains)]), Raised msg)
        | None =>
            (mkState (<[p := c]> (files st)) (read_fault st) (write_fault st)
                     (writes st ++ [(p, c)]), Ok tt)
        end
    end.

(** A computation that does not touch the disk. *)
Definition pure_step {A : Type} (o : outcome A) : M A := fun st => (st, o).

(** [None] read as an exception.  Nothing in the loops looks into the text
    of an exception; it is only printed. *)
Definition of_option (o : option text) : outcome text :=
  match o with
  | Some c => Ok c
  | None => Raised (txt "re.error")
  end.

End FsLate.

(** *** fix_svgs_properly.py: process_all_svgs *)

Module FixSvgsProperlyAny.

Section Loop.

Variable fix_svg_content : text -> path -> outcome text.
Variable late : FsLate.late_fault.

(** The body of the [try] for one file. *)
Definition fix_one (svg_file : path) : M unit :=
  do content <- read_file svg_file ;;
  do fixed_content <- FsLate.pure_step (fix_svg_content content svg_file) ;;
  FsLate.write_file late svg_file fixed_content.

Definition loop_body (svg_file : path) (c : FixSvgsProperlyMain.counts)
  : M FixSvgsProperlyMain.counts :=
  try_except
    (do _ <- fix_one svg_file ;;
     ret (FixSvgsProperlyMain.mkCounts (FixSvgsProperlyMain.fixed c + 1)
                                       (FixSvgsProperlyMain.errors c)))
    (fun _ => ret (FixSvgsProperlyMain.mkCounts (FixSvgsProperlyMain.fixed c)
                     (FixSvgsProperlyMain.errors c + 1))).

Definition process_all_svgs (glob : list path) : M FixSvgsProperlyMain.counts :=
  let svg_files := filter (fun f => negb (is_font_or_favicon f)) glob in
  for_each loop_body svg_files (FixSvgsProperlyMain.mkCounts 0 0).

End Loop.

End FixSvgsProperlyAny.

(** *** fix_svg_attributes.py: fix_svg_file and main *)

Module FixSvgAttributesAny.

Section Loop.

Variable fix_malformed_attributes : text -> outcome text.
Variable late : FsLate.late_fault.

(** The body of the [try] of [fix_svg_file].  The validation of the result
    only prints a warning and is left out. *)
Definition fix_svg_file_try (filepath : path)
  : M (FixSvgAttributesMain.status * option text) :=
  do content <- read_file filepath ;;
  if is_font_or_favicon filepath then ret (FixSvgAttributesMain.skipped, None)
  else
    do fixed_content <- FsLate.pure_step (fix_malformed_attributes content) ;;
    if negb (text_eqb fixed_content content)
    then do _ <- FsLate.write_file late filepath fixed_content ;;
         ret (FixSvgAttributesMain.fixed, None)
    else ret (FixSvgAttributesMain.unchanged, None).

Definition fix_svg_file (filepath : path)
  : M (FixSvgAttributesMain.status * option text) :=
  try_except (fix_svg_file_try filepath)
             (fun e => ret (FixSvgAttributesMain.error, Some e)).

Definition loop_body (svg_file : path) (s : FixSvgAttributesMain.stats)
  : M FixSvgAttributesMain.stats :=
  do r <- fix_svg_file svg_file ;; ret (FixSvgAttributesMain.bump s (fst r)).

Definition main (glob : list path) : M FixSvgAttributesMain.stats :=
  for_each loop_body glob (FixSvgAttributesMain.mkStats 0 0 0 0).

End Loop.

End FixSvgAttributesAny.

(** *** safe_svg_improve.py: safe_improve_svg *)

Module SafeSvgImproveAny.

Section Loop.

(** Steps 1 to 8 of [safe_improve_svg], from [original_content] to the new
    [content]. *)
Variable improve : text -> outcome text.
Variable late : FsLate.late_fault.

(** The body of the [try]. *)
Definition safe_improve_svg_try (filepath : path) : M (bool * text) :=
  do content <- read_file filepath ;;
  if is_font_or_favicon filepath then ret (false, txt "Skipped (font/favicon)")
  else
    let original_content := content in
    do content <- FsLate.pure_step (improve content) ;;
    if negb (text_eqb content original_content) then
      let backup_path := SafeSvgImproveMain.backup_of filepath in
      do there <- path_exists backup_path ;;
      do _ <- (if negb there
               then FsLate.write_file late backup_path original_content
               else ret tt) ;;
      do _ <- FsLate.write_file late filepath content ;;
      ret (true, txt "Improved successfully")
    else ret (false, txt "No changes needed").

Definition safe_improve_svg (filepath : path) : M (bool * text) :=
  try_except (safe_improve_svg_try filepath)
             (fun e => ret (false, txt "Error: " ++ e)).

End Loop.

End SafeSvgImproveAny.

(** *** minimal_svg_fix.py: minimal_fix_svg and main *)

Module MinimalSvgFixAny.

Section Loop.

(** Steps 1 to 3 of [minimal_fix_svg]. *)
Variable fix_content : text -> outcome text.
Variable late : FsLate.late_fault.

Definition minimal_fix_svg (filepath : path) : M bool :=
  do content <- read_file filepath ;;
  if is_font_or_favicon filepath then ret false
  else
    do content <- FsLate.pure_step (fix_content content) ;;
    do _ <- FsLate.write_file late filepath content ;;
    ret true.

Definition loop_body (svg_file : path) (fixed : nat) : M nat :=
  try_except
    (do ok <- minimal_fix_svg svg_file ;;
     if ok then ret (fixed + 1) else ret fixed)
    (fun _ => ret fixed).

Definition main (glob : list path) : M nat :=
  for_each loop_body glob 0.

End Loop.

End MinimalSvgFixAny.

(** *** beautify_all_svgs.py: process_all_svgs *)

Module BeautifyAllSvgsAny.

Section Loop.

Variable create_improved_svg : text -> path -> outcome text.
Variable late : FsLate.late_fault.

Definition loop_body (svg_file : path) (_ : unit) : M unit :=
  if is_font_or_favicon svg_file then ret tt
  else
    try_except
      (do content <- read_file svg_file ;;
       if contains (txt "Beautiful gradient definitions") content then ret tt
       else
         do improved <- FsLate.pure_step (create_improved_svg content svg_file) ;;
         FsLate.write_file late svg_file improved)
      (fun _ => ret tt).

Definition process_all_svgs (glob : list path) : M unit :=
  for_each loop_body glob tt.

End Loop.

End BeautifyAllSvgsAny.

(** ** Vocabulary of the statements *)

(** [writes_only S st st']: from [st] to [st'] only files under [S] were
    written; nothing else on the disk moved. *)
Definition writes_only (S : path -> Prop) (st st' : state) : Prop :=
  read_fault st' = read_fault st /\ write_fault st' = write_fault st /\
  (forall q, ~ S q -> files st' !! q = files st !! q) /\
  exists new, writes st' = writes st ++ new /\ Forall (fun w => S (fst w)) new.

(** [p] was left alone from [st] to [st']: same content (or absence), and
    no write to [p] in the log since [st]. *)
Definition untouched (p : path) (st st' : state) : Prop :=
  files st' !! p = files st !! p /\
  exists new, writes st' = writes st ++ new /\ Forall (fun w => fst w <> p) new.

(** The disk after a completed write of [c] to [p]. *)
Definition after_write (p : path) (c : text) (st : state) : state :=
  mkState (<[p := c]> (files st)) (read_fault st) (write_fault st)
          (writes st ++ [(p, c)]).

(** A disk without faults holding the given files, nothing written yet. *)
Definition disk (fs : list (path * text)) : state :=
  mkState (list_to_map fs) (fun _ => None) (fun _ => None) [].

(** The files accounted for by the counters of fix_svg_attributes.py. *)
Definition stats_total (s : FixSvgAttributesMain.stats) : nat :=
  FixSvgAttributesMain.n_fixed s + FixSvgAttributesMain.n_unchanged s
  + FixSvgAttributesMain.n_skipped s + FixSvgAttributesMain.n_error s.

(** ** Occurrences of a literal *)

(** [starts_by eqv p s]: [s] begins with an occurrence of [p], each pattern
    character [a] compared with the text character [c] by [eqv a c]
    ([is_char] for an exact occurrence, [is_char_ci] for one in any letter
    case). *)
Fixpoint starts_by (eqv : ascii -> ascii -> bool) (p s : text) : bool :=
  match p, s with
  | [], _ => true
  | a :: p', c :: s' => eqv a c && starts_by eqv p' s'
  | _ :: _, [] => false
  end.

Fixpoint occurs_by (eqv : ascii -> ascii -> bool) (p s : text) : bool :=
  starts_by eqv p s ||
  match s with
  | [] => false
  | _ :: s' => occurs_by eqv p s'
  end.

(** A literal as a pattern, for either comparison. *)
Definition lit_by (eqv : ascii -> ascii -> bool) (p : text) : regex :=
  map (fun a => Chr (eqv a)) p.

(** [agree eqv q r]: [q] and [r] match on their common length. *)
Fixpoint agree (eqv : ascii -> ascii -> bool) (q r : text) : bool :=
  match q, r with
  | a :: q', c :: r' => eqv a c && agree eqv q' r'
  | _, _ => true
  end.

(** [clash eqv q r]: no occurrence of [q] can share a character with a copy
    of [r], whatever surrounds the copy: [q] laid over [r] at any offset
    disagrees with it somewhere on the overlap. *)
Definition clash (eqv : ascii -> ascii -> bool) (q r : text) : bool :=
  forallb (fun d => negb (agree eqv q (skipn d r))) (seq 0 (length r))
  && forallb (fun e => negb (agree eqv (skipn e q) r)) (seq 1 (length q - 1)).

(** [settles eqv q steps]: along the substitutions [steps] (pattern and
    replacement, all matched in any letter case or more strictly), some step
    replaces the occurrences of [q], and neither its replacement nor any
    later one can take part in a new occurrence of [q]. *)
Definition settles (eqv : ascii -> ascii -> bool) (same : text -> text -> bool)
  (q : text) (steps : list (text * text)) : bool :=
  fold_left
    (fun ok step => (ok || same q (fst step)) && clash eqv q (snd step))
    steps false.

(** [q] and [p] are the same literal up to letter case. *)
Definition same_ci (q p : text) : bool := text_eqb (lower q) (lower p).

(** The substitutions of the three colour loops, as (pattern, replacement)
    pairs in the order they run. *)
Definition fill_attr (color : text) : text := txt "fill=`" ++ color ++ txt "`".
Definition stroke_attr (color : text) : text := txt "stroke=`" ++ color ++ txt "`".

Definition properly_steps_of (entry : text * text) : list (text * text) :=
  [ (fill_attr (fst entry), fill_attr (snd entry));
    (stroke_attr (fst entry), stroke_attr (snd entry));
    (txt "fill:" ++ fst entry, txt "fill:" ++ snd entry);
    (txt "stroke:" ++ fst entry, txt "stroke:" ++ snd entry) ].

Definition properly_steps : list (text * text) :=
  flat_map properly_steps_of FixSvgsProperly.color_replacements.

Definition fix_all_steps_of (entry : text * text) : list (text * text) :=
  [ (fill_attr (fst entry), fill_attr (snd entry));
    (stroke_attr (fst entry), stroke_attr (snd entry));
    (fill_attr (lower (fst entry)), fill_attr (snd entry));
    (stroke_attr (lower (fst entry)), stroke_attr (snd entry)) ].

Definition fix_all_steps : list (text * text) :=
  flat_map fix_all_steps_of FixAllSvgs.color_map.

Definition minimal_steps : list (text * text) :=
  map (fun entry => (fill_attr (fst entry), fill_attr (snd entry)))
      MinimalSvgFix.fill_replacements.

(** A list of substitutions run in order, each by [step pattern replacement]. *)
Definition run_steps (step : text -> text -> text -> text)
  (steps : list (text * text)) (s : text) : text :=
  fold_left (fun c st => step (fst st) (snd st) c) steps s.

(** The decidable checks behind the colour theorems: every step has a
    non-empty pattern, and every watched attribute is settled by the steps. *)
Definition patterns_nonempty (steps : list (text * text)) : bool :=
  forallb (fun st => negb (text_eqb (fst st) [])) steps.

Definition all_settled (same : text -> text -> bool) (watch : list text)
  (steps : list (text * text)) : bool :=
  forallb (fun q => settles is_char same q steps) watch.

(** ** Font-size attributes in a text *)

(** [has_font_size out ds]: the attribute [font-size=`ds`], with [ds] a
    non-empty run of decimal digits, occurs somewhere in [out]. *)
Definition has_font_size (out ds : text) : Prop :=
  ds <> [] /\ forallb is_digit ds = true
  /\ exists pre post, out = pre ++ txt "font-size=`" ++ ds ++ dq :: post.

(** Every such attribute of [out] has a value that satisfies [ok]. *)
Definition font_sizes_satisfy (ok : N -> Prop) (out : text) : Prop :=
  forall ds, has_font_size out ds -> ok (int_of_text ds).

(** Every such attribute of [out] has a value of at least [min]. *)
Definition font_sizes_at_least (min : N) (out : text) : Prop :=
  forall ds, has_font_size out ds -> (min <= int_of_text ds)%N.

(** [font_foreign r]: a copy of [r] in a text shares no character with an
    attribute [font-size=`N`].  [r] does not begin with a digit or a quote;
    no proper suffix of the attribute's opening [font-size=`] can be laid
    over the beginning of [r]; and the opening cannot be laid over [r] at
    any offset. *)
Definition font_foreign (r : text) : bool :=
  match r with
  | [] => false
  | r0 :: _ =>
      negb (is_digit r0) && negb (Ascii.eqb r0 dq)
      && forallb (fun e => negb (agree is_char (skipn e (txt "font-size=`")) r))
                 (seq 1 10)
      && forallb (fun d => negb (agree is_char (txt "font-size=`") (skipn d r)))
                 (seq 0 (length r))
  end.

(** [edit good s out]: [out] is [s] with some of its pieces, one after the
    other and not overlapping, each replaced by a text that [good] accepts
    (a piece may be empty: an insertion); everything else is copied. *)
Inductive edit (good : text -> bool) : text -> text -> Prop :=
| edit_nil : edit good [] []
| edit_copy (c : ascii) (s out : text) :
    edit good s out -> edit good (c :: s) (c :: out)
| edit_put (o r s out : text) :
    good r = true -> edit good s out -> edit good (o ++ s) (r ++ out).

(* ===================================================================== *)
(** * Part 2: properties                                                  *)
(* ===================================================================== *)

(** ** The rect scenario of fix_svgs_properly.py *)

(** C1: on the input [<rect fill=`#FAFAFA` stroke-width=`1` width=`100`
    height=`50`/>], [fix_svg_content] returns a rect without
    [fill=`#FAFAFA`] and with [stroke-width=`2`]: the colour table turns the
    fill into [transparent] and the stroke pass widens the stroke. *)
Theorem C1_rect_scenario : forall filename : text,
  FixSvgsProperly.fix_svg_content
    (txt "<rect fill=`#FAFAFA` stroke-width=`1` width=`100` height=`50`/>")
    filename
  = Some (txt "<rect fill=`transparent` stroke-width=`2` width=`100` height=`50`/>")
  /\ contains (txt "fill=`#FAFAFA`")
       (txt "<rect fill=`transparent` stroke-width=`2` width=`100` height=`50`/>")
     = false
  /\ contains (txt "stroke-width=`2`")
       (txt "<rect fill=`transparent` stroke-width=`2` width=`100` height=`50`/>")
     = true
  /\ starts_with (txt "<rect")
       (txt "<rect fill=`transparent` stroke-width=`2` width=`100` height=`50`/>")
     = true.
Proof.
  intros filename. repeat split; vm_compute; reflexivity.
Qed.

(** ** The curved arrow of rebuild_svgs.py *)

Section CurvedArrowFacts.

Variable float : Type.
Variable lt_one : float -> bool.
Variable float_str : float -> text.

Abbreviation coords := RebuildSvgs.coords.
Abbreviation arrow_tail := (RebuildSvgs.arrow_tail float lt_one float_str).

Lemma fold_segments (pts : list RebuildSvgs.point) (d : RebuildSvgs.point)
  (f : RebuildSvgs.point -> text) :
  forall (n a : nat) (acc : text),
    a + n <= length pts ->
    fold_left (fun path i => path ++ f (nth i pts d)) (seq a n) acc
    = acc ++ concat (map f (firstn n (skipn a pts))).
Proof.
  induction n as [|n IH]; intros a acc Hle; simpl.
  - rewrite app_nil_r. reflexivity.
  - rewrite IH by lia.
    destruct (skipn a pts) as [|p rest] eqn:Hs.
    + apply (f_equal (@length _)) in Hs. rewrite length_skipn in Hs.
      simpl in Hs. lia.
    + assert (Hp : nth a pts d = p).
      { rewrite <- (firstn_skipn a pts) at 1. rewrite Hs.
        rewrite app_nth2; rewrite length_firstn; [|lia].
        replace (a - a `min` length pts) with 0 by lia. reflexivity. }
      assert (Hr : skipn (S a) pts = rest).
      { replace (S a) with (1 + a) by lia. rewrite <- skipn_skipn, Hs.
        reflexivity. }
      rewrite Hp, Hr. simpl. rewrite <- app_assoc. reflexivity.
Qed.


End CurvedArrowFacts.


(** ** Text lemmas *)

Lemma starts_with_spec (p s : text) :
  starts_with p s = true <-> exists v, s = p ++ v.
Proof.
  revert s. induction p as [|a p IH]; intros s; simpl.
  - split; [eauto | reflexivity].
  - destruct s as [|c s]; simpl.
    + split; [discriminate | intros [v Hv]; discriminate].
    + rewrite andb_true_iff, IH. split.
      * intros [He [v ->]]. apply Ascii.eqb_eq in He. subst. eauto.
      * intros [v Hv]. inversion Hv; subst. split; [apply Ascii.eqb_refl | eauto].
Qed.

Lemma contains_spec (p s : text) :
  contains p s = true <-> exists u v, s = u ++ p ++ v.
Proof.
  induction s as [|c s IH].
  - simpl. rewrite orb_false_r, starts_with_spec. split.
    + intros [v Hv]. exists [], v. exact Hv.
    + intros (u & v & H). destruct u; [eauto|discriminate].
  - cbn [contains]. rewrite orb_true_iff, starts_with_spec, IH. split.
    + intros [[v Hv] | (u & v & Hv)].
      * exists [], v. exact Hv.
      * exists (c :: u), v. rewrite Hv. reflexivity.
    + intros (u & v & Hv). destruct u as [|c' u].
      * left. eauto.
      * right. inversion Hv; subst. eauto.
Qed.

Lemma contains_false_spec (p s : text) :
  contains p s = false <-> forall u v, s <> u ++ p ++ v.
Proof.
  split.
  - intros H u v Hs. assert (contains p s = true) by (apply contains_spec; eauto).
    congruence.
  - intros H. destruct (contains p s) eqn:E; [|reflexivity].
    apply contains_spec in E as (u & v & Hs). exfalso. eapply H; eauto.
Qed.

Lemma lower_app (a b : text) : lower (a ++ b) = lower a ++ lower b.
Proof. apply map_app. Qed.

(** An occurrence of [w] in [a ++ b] lies in [a], lies in [b], or straddles
    the seam with a non-empty part on each side. *)
Lemma contains_app_cases (w a b : text) :
  contains w (a ++ b) = true ->
  contains w a = true \/ contains w b = true \/
  exists w1 w2, w = w1 ++ w2 /\ w1 <> [] /\ w2 <> [] /\
                (exists u, a = u ++ w1) /\ (exists v, b = w2 ++ v).
Proof.
  rewrite contains_spec. intros (u & v & H).
  apply app_eq_app in H as [l [[Ha Hb] | [Hu Hb]]].
  - (* a = u ++ l, w ++ v = l ++ b *)
    symmetry in Hb. apply app_eq_app in Hb as [l' [[Hl Hv] | [Hw Hb']]].
    + (* l = w ++ l' *) left. apply contains_spec. exists u, l'.
      rewrite Ha, Hl. reflexivity.
    + (* w = l ++ l', b = l' ++ v *)
      destruct l' as [|x l'].
      * left. apply contains_spec. exists u, []. rewrite app_nil_r in *.
        subst. reflexivity.
      * destruct l as [|y l].
        -- right; left. apply contains_spec. exists [], v.
           simpl in *. subst. reflexivity.
        -- right; right. exists (y :: l), (x :: l').
           repeat split; try discriminate; eauto.
  - (* u = a ++ l, b = l ++ w ++ v *)
    right; left. apply contains_spec. eauto.
Qed.

Lemma backup_keeps_font_or_favicon (p : path) :
  is_font_or_favicon (SafeSvgImproveMain.backup_of p) = true ->
  is_font_or_favicon p = true.
Proof.
  unfold is_font_or_favicon, SafeSvgImproveMain.backup_of.
  rewrite lower_app, !orb_true_iff.
  intros [H | H]; [left | right];
    apply contains_app_cases in H as [H | [H | (w1 & w2 & Hw & _ & Hw2 & _ & [v Hv])]];
    try exact H; try (vm_compute in H; discriminate).
  - destruct w2 as [|x w2]; [congruence|]. vm_compute in Hv.
    inversion Hv; subst x.
    assert (Hin : In "."%char (txt "fontawesome"))
      by (rewrite Hw; apply in_or_app; right; left; reflexivity).
    vm_compute in Hin. intuition discriminate.
  - destruct w2 as [|x w2]; [congruence|]. vm_compute in Hv.
    inversion Hv; subst x.
    assert (Hin : In "."%char (txt "favicon"))
      by (rewrite Hw; apply in_or_app; right; left; reflexivity).
    vm_compute in Hin. intuition discriminate.
Qed.

(** ** Framing: what a batch run can write *)

Lemma writes_only_refl (S : path -> Prop) (st : state) : writes_only S st st.
Proof.
  split; [reflexivity|]. split; [reflexivity|]. split; [reflexivity|].
  exists []. rewrite app_nil_r. auto.
Qed.

Lemma writes_only_trans (S : path -> Prop) (st1 st2 st3 : state) :
  writes_only S st1 st2 -> writes_only S st2 st3 -> writes_only S st1 st3.
Proof.
  intros (Hr1 & Hw1 & Hf1 & n1 & Hl1 & Hn1) (Hr2 & Hw2 & Hf2 & n2 & Hl2 & Hn2).
  split; [congruence|]. split; [congruence|]. split.
  - intros q Hq. rewrite Hf2, Hf1; auto.
  - exists (n1 ++ n2). rewrite Hl2, Hl1, app_assoc. split; auto.
    apply Forall_app; auto.
Qed.

Lemma writes_only_mono (S S' : path -> Prop) (st st' : state) :
  (forall q, S q -> S' q) -> writes_only S st st' -> writes_only S' st st'.
Proof.
  intros Hsub (Hr & Hw & Hf & n & Hl & Hn).
  split; [exact Hr|]. split; [exact Hw|]. split.
  - intros q Hq. apply Hf. auto.
  - exists n. split; auto. eapply Forall_impl; [exact Hn|]. simpl. auto.
Qed.

Lemma read_file_state (p : path) (st : state) : fst (read_file p st) = st.
Proof. unfold read_file. repeat case_match; reflexivity. Qed.

Lemma write_file_writes_only (S : path -> Prop) (p : path) (c : text) (st : state) :
  S p -> writes_only S st (fst (write_file p c st)).
Proof.
  intros HS. unfold write_file. destruct (write_fault st p); simpl.
  - apply writes_only_refl.
  - split; [reflexivity|]. split; [reflexivity|]. split.
    + intros q Hq. simpl. apply lookup_insert_ne. intros ->. auto.
    + exists [(p, c)]. split; auto.
Qed.

Lemma for_each_writes_only {A : Type} (body : path -> A -> M A)
  (S : path -> Prop) (l : list path) :
  (forall x acc st, In x l -> writes_only S st (fst (body x acc st))) ->
  forall acc st, writes_only S st (fst (for_each body l acc st)).
Proof.
  induction l as [|x l IH]; intros Hbody acc st; simpl.
  - apply writes_only_refl.
  - unfold bind. specialize (Hbody x acc st (or_introl eq_refl)) as Hx.
    destruct (body x acc st) as [st1 [acc1|msg]]; simpl in *; auto.
    eapply writes_only_trans; [exact Hx|].
    apply IH. intros; apply Hbody; right; auto.
Qed.

Lemma writes_only_untouched (S : path -> Prop) (p : path) (st st' : state) :
  ~ S p -> writes_only S st st' -> untouched p st st'.
Proof.
  intros Hp (_ & _ & Hf & n & Hl & Hn). split; auto.
  exists n. split; auto. eapply Forall_impl; [exact Hn|].
  simpl. intros w Hw Heq. apply Hp. rewrite <- Heq. exact Hw.
Qed.

(** Every script, on one file, writes at most files that are neither font
    nor favicon. *)
Abbreviation plain := (fun q : path => is_font_or_favicon q = false).

Ltac run_fs :=
  unfold try_except, bind, ret, raise, path_exists; simpl;
  repeat (first
    [ progress rewrite ?read_file_state
    | match goal with
      | |- context [read_file ?p ?st] =>
          let H := fresh "Hread" in
          pose proof (read_file_state p st) as H;
          destruct (read_file p st) as [? [?|?]]; simpl in H; subst; simpl
      | |- context [if ?b then _ else _] => destruct b eqn:?; simpl
      | |- context [match ?o with Some _ => _ | None => _ end] =>
          destruct o eqn:?; simpl
      end ]);
  try apply writes_only_refl.

Ltac write_steps :=
  repeat match goal with
  | |- context [write_file ?p ?c ?st] =>
      let Hw := fresh "Hw" in
      assert (Hw : writes_only plain st (fst (write_file p c st)))
        by (apply write_file_writes_only; assumption);
      destruct (write_file p c st) as [? [[]|?]]; simpl in *
  end;
  eauto using writes_only_trans, writes_only_refl.

Lemma fix_svgs_properly_body_plain (f : path) (c : FixSvgsProperlyMain.counts)
  (st : state) :
  is_font_or_favicon f = false ->
  writes_only plain st (fst (FixSvgsProperlyMain.loop_body f c st)).
Proof.
  intros Hf. unfold FixSvgsProperlyMain.loop_body, FixSvgsProperlyMain.fix_one.
  run_fs; write_steps.
Qed.

Lemma fix_svg_attributes_file_plain (f : path) (st : state) :
  writes_only plain st (fst (FixSvgAttributesMain.fix_svg_file f st)).
Proof.
  unfold FixSvgAttributesMain.fix_svg_file. run_fs; write_steps.
Qed.

Lemma minimal_body_plain (f : path) (n : nat) (st : state) :
  writes_only plain st (fst (MinimalSvgFixMain.loop_body f n st)).
Proof.
  unfold MinimalSvgFixMain.loop_body, MinimalSvgFixMain.minimal_fix_svg.
  run_fs; write_steps.
Qed.

Lemma safe_improve_svg_plain (f : path) (st : state) :
  writes_only plain st (fst (SafeSvgImproveMain.safe_improve_svg f st)).
Proof.
  unfold SafeSvgImproveMain.safe_improve_svg.
  generalize SafeSvgImprove.improve (txt "Skipped (font/favicon)")
    (txt "Improved successfully") (txt "No changes needed") (txt "Error: ").
  intros improve m1 m2 m3 m4. run_fs.
  all: assert (Hb : plain (SafeSvgImproveMain.backup_of f))
         by (destruct (is_font_or_favicon (SafeSvgImproveMain.backup_of f)) eqn:E;
             [apply backup_keeps_font_or_favicon in E; congruence | reflexivity]).
  all: write_steps.
Qed.

Lemma fix_all_svgs_file_plain (rewrite : text -> option text) (f : path)
  (st : state) :
  writes_only plain st (fst (FixAllSvgsMain.fix_svg_file rewrite f st)).
Proof.
  unfold FixAllSvgsMain.fix_svg_file. run_fs; write_steps.
Qed.

Lemma beautify_body_plain (create : text -> path -> option text) (f : path)
  (st : state) :
  writes_only plain st (fst (BeautifyAllSvgsMain.loop_body create f tt st)).
Proof.
  unfold BeautifyAllSvgsMain.loop_body. run_fs; write_steps.
Qed.

Lemma bind_ret_state {A B : Type} (m : M A) (f : A -> B) (st : state) :
  fst (bind m (fun a => ret (f a)) st) = fst (m st).
Proof. unfold bind, ret. destruct (m st) as [st' [a|msg]]; reflexivity. Qed.

Lemma fix_svgs_properly_main_plain (glob : list path) (st : state) :
  writes_only plain st (fst (FixSvgsProperlyMain.process_all_svgs glob st)).
Proof.
  unfold FixSvgsProperlyMain.process_all_svgs. apply for_each_writes_only.
  intros x acc st0 Hin. apply fix_svgs_properly_body_plain.
  apply list_elem_of_In, list_elem_of_filter in Hin as [Hx _].
  destruct (is_font_or_favicon x); [contradiction | reflexivity].
Qed.

Lemma fix_svg_attributes_main_plain (glob : list path) (st : state) :
  writes_only plain st (fst (FixSvgAttributesMain.main glob st)).
Proof.
  apply for_each_writes_only. intros x acc st0 _.
  unfold FixSvgAttributesMain.loop_body. rewrite bind_ret_state.
  apply fix_svg_attributes_file_plain.
Qed.

Lemma safe_svg_improve_main_plain (glob : list path) (st : state) :
  writes_only plain st (fst (SafeSvgImproveMain.main glob st)).
Proof.
  apply for_each_writes_only. intros x acc st0 _.
  unfold SafeSvgImproveMain.loop_body, bind.
  pose proof (safe_improve_svg_plain x st0) as H.
  destruct (SafeSvgImproveMain.safe_improve_svg x st0) as [st1 [[ok msg]|e]];
    simpl in *; [|exact H].
  unfold ret. repeat case_match; exact H.
Qed.

Lemma minimal_main_plain (glob : list path) (st : state) :
  writes_only plain st (fst (MinimalSvgFixMain.main glob st)).
Proof.
  apply for_each_writes_only. intros x acc st0 _. apply minimal_body_plain.
Qed.

Lemma fix_all_svgs_main_plain (rewrite : text -> option text)
  (glob : list path) (st : state) :
  writes_only plain st (fst (FixAllSvgsMain.main rewrite glob st)).
Proof.
  apply for_each_writes_only. intros x acc st0 _.
  unfold FixAllSvgsMain.loop_body.
  destruct (is_font_or_favicon x); [apply writes_only_refl|].
  unfold bind. pose proof (fix_all_svgs_file_plain rewrite x st0) as H.
  destruct (FixAllSvgsMain.fix_svg_file rewrite x st0) as [st1 [ok|e]];
    simpl in *; [|exact H].
  unfold ret. destruct ok; exact H.
Qed.

Lemma beautify_main_plain (create : text -> path -> option text)
  (glob : list path) (st : state) :
  writes_only plain st (fst (BeautifyAllSvgsMain.process_all_svgs create glob st)).
Proof.
  apply for_each_writes_only. intros x [] st0 _. apply beautify_body_plain.
Qed.

(** ** The skip rule *)

(** C4: a file whose path contains [fontawesome] or [favicon], in any
    letter case, is left alone by a run of each of the six batch scripts
    over any list of files: its content is the same afterwards and no write
    to it happened (for fix_all_svgs.py and beautify_all_svgs.py whatever
    their rewriting of the content is). *)
Theorem C4_font_and_favicon_untouched :
  forall p : path,
    is_font_or_favicon p = true ->
    forall (glob : list path) (st : state)
           (rewrite : text -> option text)
           (create_improved_svg : text -> path -> option text),
      untouched p st (fst (FixSvgsProperlyMain.process_all_svgs glob st))
      /\ untouched p st (fst (FixSvgAttributesMain.main glob st))
      /\ untouched p st (fst (SafeSvgImproveMain.main glob st))
      /\ untouched p st (fst (MinimalSvgFixMain.main glob st))
      /\ untouched p st (fst (FixAllSvgsMain.main rewrite glob st))
      /\ untouched p st
           (fst (BeautifyAllSvgsMain.process_all_svgs create_improved_svg glob st)).
Proof.
  intros p Hp glob st rewrite create.
  assert (Hnot : ~ plain p) by (rewrite Hp; discriminate).
  refine (conj _ (conj _ (conj _ (conj _ (conj _ _)))));
    eapply writes_only_untouched; try exact Hnot.
  - apply fix_svgs_properly_main_plain.
  - apply fix_svg_attributes_main_plain.
  - apply safe_svg_improve_main_plain.
  - apply minimal_main_plain.
  - apply fix_all_svgs_main_plain.
  - apply beautify_main_plain.
Qed.

(** C4 at [docs/src/FavIcon.svg], globbed together with a diagram. *)
Lemma C4_font_and_favicon_untouched_witness :
  let p := txt "docs/src/FavIcon.svg" in
  let glob := [txt "docs/src/FavIcon.svg"; txt "docs/src/flow.svg"] in
  let st := mkState
              (<[txt "docs/src/FavIcon.svg" := txt "<svg><text font-size=`8`>f</text></svg>"]>
                 (<[txt "docs/src/flow.svg" := txt "<svg><text font-size=`8`>g</text></svg>"]> ∅))
              (fun _ => None) (fun _ => None) [] in
  is_font_or_favicon p = true
  /\ untouched p st (fst (FixSvgsProperlyMain.process_all_svgs glob st))
  /\ untouched p st (fst (SafeSvgImproveMain.main glob st)).
Proof.
  intros p glob st.
  assert (Hp : is_font_or_favicon p = true) by (vm_compute; reflexivity).
  pose proof (C4_font_and_favicon_untouched p Hp glob st
                (fun c => Some c) (fun c _ => Some c)) as (H1 & _ & H3 & _).
  split; [exact Hp|]. split; [exact H1 | exact H3].
Defined.

(** ** Writing back *)

Lemma read_file_ok (p : path) (st : state) (content : text) :
  read_fault st p = None -> files st !! p = Some content ->
  read_file p st = (st, Ok content).
Proof. intros Hr Hf. unfold read_file. rewrite Hr, Hf. reflexivity. Qed.

Lemma write_file_ok (p : path) (c : text) (st : state) :
  write_fault st p = None -> write_file p c st = (after_write p c st, Ok tt).
Proof. intros Hw. unfold write_file. rewrite Hw. reflexivity. Qed.

Lemma text_eqb_true (a b : text) : text_eqb a b = true <-> a = b.
Proof. unfold text_eqb. apply bool_decide_eq_true. Qed.

Lemma text_eqb_false (a b : text) : text_eqb a b = false <-> a <> b.
Proof. unfold text_eqb. apply bool_decide_eq_false. Qed.

(** ** The loops over any transformation *)

Lemma late_write_ok (late : FsLate.late_fault) (p : path) (c : text)
  (st : state) :
  write_fault st p = None -> late p c = None ->
  FsLate.write_file late p c st = (after_write p c st, Ok tt).
Proof. intros Hw Hl. unfold FsLate.write_file. rewrite Hw, Hl. reflexivity. Qed.

(** A write with no late failure is the write of the loops above. *)
Lemma late_write_none (p : path) (c : text) (st : state) :
  FsLate.write_file FsLate.no_late p c st = write_file p c st.
Proof.
  unfold FsLate.write_file, FsLate.no_late, write_file.
  destruct (write_fault st p); reflexivity.
Qed.

(** The loops of the first part are the loops over any transformation, at
    the transformation modelled there and without late failures. *)
Lemma fix_svgs_properly_instance (p : path) (st : state) :
  FixSvgsProperlyMain.fix_one p st
  = FixSvgsProperlyAny.fix_one
      (fun c f => FsLate.of_option (FixSvgsProperly.fix_svg_content c f))
      FsLate.no_late p st.
Proof.
  unfold FixSvgsProperlyMain.fix_one, FixSvgsProperlyAny.fix_one, bind,
    FsLate.pure_step, FsLate.of_option, raise.
  destruct (read_file p st) as [st1 [content|msg]]; [|reflexivity].
  destruct (FixSvgsProperly.fix_svg_content content p); [|reflexivity].
  unfold FsLate.write_file, FsLate.no_late, write_file.
  destruct (write_fault st1 p); reflexivity.
Qed.

Lemma fix_svg_attributes_instance (p : path) (st : state) :
  FixSvgAttributesMain.fix_svg_file p st
  = FixSvgAttributesAny.fix_svg_file
      (fun c => Ok (FixSvgAttributes.fix_malformed_attributes c))
      FsLate.no_late p st.
Proof.
  unfold FixSvgAttributesMain.fix_svg_file, FixSvgAttributesAny.fix_svg_file,
    FixSvgAttributesAny.fix_svg_file_try, try_except, bind, FsLate.pure_step.
  destruct (read_file p st) as [st1 [content|msg]]; [|reflexivity].
  destruct (is_font_or_favicon p); [reflexivity|].
  destruct (negb (text_eqb (FixSvgAttributes.fix_malformed_attributes content)
                           content)); [|reflexivity].
  unfold FsLate.write_file, FsLate.no_late, write_file.
  destruct (write_fault st1 p); reflexivity.
Qed.

Lemma minimal_instance (p : path) (st : state) :
  MinimalSvgFixMain.minimal_fix_svg p st
  = MinimalSvgFixAny.minimal_fix_svg
      (fun c => Ok (MinimalSvgFix.fix_content c)) FsLate.no_late p st.
Proof.
  unfold MinimalSvgFixMain.minimal_fix_svg, MinimalSvgFixAny.minimal_fix_svg,
    bind, FsLate.pure_step.
  destruct (read_file p st) as [st1 [content|msg]]; [|reflexivity].
  destruct (is_font_or_favicon p); [reflexivity|].
  unfold FsLate.write_file, FsLate.no_late, write_file.
  destruct (write_fault st1 p); reflexivity.
Qed.

Lemma safe_instance (p : path) (st : state) :
  SafeSvgImproveMain.safe_improve_svg p st
  = SafeSvgImproveAny.safe_improve_svg
      (fun c => Ok (SafeSvgImprove.improve c)) FsLate.no_late p st.
Proof.
  unfold SafeSvgImproveMain.safe_improve_svg,
    SafeSvgImproveAny.safe_improve_svg,
    SafeSvgImproveAny.safe_improve_svg_try, try_except, bind,
    FsLate.pure_step, path_exists.
  destruct (read_file p st) as [st1 [content|msg]]; [|reflexivity].
  destruct (is_font_or_favicon p); [reflexivity|].
  generalize (SafeSvgImprove.improve content). intros content'.
  destruct (negb (text_eqb content' content)); [|reflexivity].
  destruct (negb (bool_decide (is_Some (files st1 !! SafeSvgImproveMain.backup_of p)))).
  - unfold FsLate.write_file, FsLate.no_late, write_file.
    destruct (write_fault st1 (SafeSvgImproveMain.backup_of p));
      [reflexivity|]. cbn [write_fault].
    destruct (write_fault st1 p); reflexivity.
  - unfold ret, FsLate.write_file, FsLate.no_late, write_file.
    destruct (write_fault st1 p); reflexivity.
Qed.

(** C7, as the code has it, for any transformation.  fix_svg_attributes.py
    and safe_svg_improve.py compare the new content with the content read
    and write a processed file only when they differ, leaving the disk as
    it was otherwise; fix_svgs_properly.py and minimal_svg_fix.py write
    every processed file whose transformation returns, whether the content
    changed or not.  When the transformation raises, none of the four
    writes the file. *)
Theorem C7_write_back :
  forall (late : FsLate.late_fault) (p : path) (st : state) (content : text),
    read_fault st p = None ->
    files st !! p = Some content ->
    is_font_or_favicon p = false ->
    (forall (transform : text -> outcome text) (new : text),
        transform content = Ok new ->
        (new = content ->
         FixSvgAttributesAny.fix_svg_file transform late p st
         = (st, Ok (FixSvgAttributesMain.unchanged, None)))
        /\ (new <> content -> write_fault st p = None -> late p new = None ->
            FixSvgAttributesAny.fix_svg_file transform late p st
            = (after_write p new st, Ok (FixSvgAttributesMain.fixed, None))))
    /\ (forall (transform : text -> outcome text) (msg : text),
           transform content = Raised msg ->
           FixSvgAttributesAny.fix_svg_file transform late p st
           = (st, Ok (FixSvgAttributesMain.error, Some msg)))
    /\ (forall (improve : text -> outcome text) (new : text),
           improve content = Ok new ->
           (new = content ->
            SafeSvgImproveAny.safe_improve_svg improve late p st
            = (st, Ok (false, txt "No changes needed")))
           /\ (new <> content ->
               write_fault st p = None -> late p new = None ->
               write_fault st (SafeSvgImproveMain.backup_of p) = None ->
               late (SafeSvgImproveMain.backup_of p) content = None ->
               snd (SafeSvgImproveAny.safe_improve_svg improve late p st)
               = Ok (true, txt "Improved successfully")
               /\ files (fst (SafeSvgImproveAny.safe_improve_svg improve late p st))
                    !! p = Some new))
    /\ (forall (improve : text -> outcome text) (msg : text),
           improve content = Raised msg ->
           SafeSvgImproveAny.safe_improve_svg improve late p st
           = (st, Ok (false, txt "Error: " ++ msg)))
    /\ (forall (transform : text -> path -> outcome text) (new : text),
           transform content p = Ok new ->
           write_fault st p = None -> late p new = None ->
           FixSvgsProperlyAny.fix_one transform late p st
           = (after_write p new st, Ok tt))
    /\ (forall (transform : text -> path -> outcome text) (msg : text),
           transform content p = Raised msg ->
           FixSvgsProperlyAny.fix_one transform late p st = (st, Raised msg))
    /\ (forall (transform : text -> outcome text) (new : text),
           transform content = Ok new ->
           write_fault st p = None -> late p new = None ->
           MinimalSvgFixAny.minimal_fix_svg transform late p st
           = (after_write p new st, Ok true))
    /\ (forall (transform : text -> outcome text) (msg : text),
           transform content = Raised msg ->
           MinimalSvgFixAny.minimal_fix_svg transform late p st
           = (st, Raised msg)).
Proof.
  intros late p st content Hr Hf Hp.
  pose proof (read_file_ok _ _ _ Hr Hf) as Hread.
  refine (conj _ (conj _ (conj _ (conj _ (conj _ (conj _ (conj _ _))))))).
  - intros transform new Htr.
    unfold FixSvgAttributesAny.fix_svg_file,
      FixSvgAttributesAny.fix_svg_file_try, try_except, bind, FsLate.pure_step.
    rewrite Hread, Hp, Htr. split.
    + intros ->. replace (text_eqb content content) with true
        by (symmetry; apply text_eqb_true; reflexivity).
      reflexivity.
    + intros Hne Hw Hl. apply text_eqb_false in Hne. rewrite Hne. cbn [negb].
      rewrite (late_write_ok _ _ _ _ Hw Hl). reflexivity.
  - intros transform msg Htr.
    unfold FixSvgAttributesAny.fix_svg_file,
      FixSvgAttributesAny.fix_svg_file_try, try_except, bind, FsLate.pure_step.
    rewrite Hread, Hp, Htr. reflexivity.
  - intros improve new Htr.
    unfold SafeSvgImproveAny.safe_improve_svg,
      SafeSvgImproveAny.safe_improve_svg_try, try_except, bind,
      FsLate.pure_step, path_exists, ret.
    rewrite Hread, Hp, Htr. split.
    + intros ->. replace (text_eqb content content) with true
        by (symmetry; apply text_eqb_true; reflexivity).
      reflexivity.
    + intros Hne Hw Hl Hwb Hlb. apply text_eqb_false in Hne. rewrite Hne.
      cbn [negb].
      destruct (bool_decide (is_Some (files st !! SafeSvgImproveMain.backup_of p)));
        cbn [negb].
      * rewrite (late_write_ok _ _ _ _ Hw Hl). cbn [fst snd].
        split; [reflexivity|]. unfold after_write. cbn [files].
        apply lookup_insert_eq.
      * rewrite (late_write_ok _ _ _ _ Hwb Hlb).
        rewrite (late_write_ok late p new
                   (after_write (SafeSvgImproveMain.backup_of p) content st))
          by (unfold after_write; cbn [write_fault]; assumption).
        cbn [fst snd]. split; [reflexivity|]. unfold after_write. cbn [files].
        apply lookup_insert_eq.
  - intros improve msg Htr.
    unfold SafeSvgImproveAny.safe_improve_svg,
      SafeSvgImproveAny.safe_improve_svg_try, try_except, bind,
      FsLate.pure_step, ret.
    rewrite Hread, Hp, Htr. reflexivity.
  - intros transform new Htr Hw Hl.
    unfold FixSvgsProperlyAny.fix_one, bind, FsLate.pure_step.
    rewrite Hread, Htr. apply late_write_ok; assumption.
  - intros transform msg Htr.
    unfold FixSvgsProperlyAny.fix_one, bind, FsLate.pure_step.
    rewrite Hread, Htr. reflexivity.
  - intros transform new Htr Hw Hl.
    unfold MinimalSvgFixAny.minimal_fix_svg, bind, FsLate.pure_step, ret.
    rewrite Hread, Hp, Htr, (late_write_ok _ _ _ _ Hw Hl). reflexivity.
  - intros transform msg Htr.
    unfold MinimalSvgFixAny.minimal_fix_svg, bind, FsLate.pure_step.
    rewrite Hread, Hp, Htr. reflexivity.
Qed.

(** C7 on a disk with one diagram that every transformation leaves as it
    is: fix_svg_attributes.py does not write it, fix_svgs_properly.py
    does. *)
Lemma C7_write_back_witness :
  let p := txt "docs/a.svg" in
  let c := txt "<circle r=`5`>" in
  let st := disk [(p, c)] in
  FixSvgAttributesAny.fix_svg_file
    (fun c => Ok (FixSvgAttributes.fix_malformed_attributes c)) FsLate.no_late
    p st
  = (st, Ok (FixSvgAttributesMain.unchanged, None))
  /\ FixSvgsProperlyAny.fix_one
       (fun c f => FsLate.of_option (FixSvgsProperly.fix_svg_content c f))
       FsLate.no_late p st
     = (after_write p c st, Ok tt).
Proof.
  intros p c st.
  assert (Hr : read_fault st p = None) by reflexivity.
  assert (Hf : files st !! p = Some c) by (vm_compute; reflexivity).
  assert (Hp : is_font_or_favicon p = false) by (vm_compute; reflexivity).
  pose proof (C7_write_back FsLate.no_late p st c Hr Hf Hp)
    as (H1 & _ & _ & _ & H5 & _).
  split.
  - refine (proj1 (H1 _ c _) eq_refl). vm_compute. reflexivity.
  - apply H5; [vm_compute; reflexivity | reflexivity | reflexivity].
Defined.

(** The claim as worded fails for fix_svgs_properly.py: the diagram below is
    a fixed point of [fix_svg_content], and the run still writes it. *)
Lemma C7_counterexample :
  let p := txt "docs/a.svg" in
  let c := txt "<circle r=`5`/>" in
  FixSvgsProperly.fix_svg_content c p = Some c
  /\ is_font_or_favicon p = false
  /\ writes (fst (FixSvgsProperlyMain.process_all_svgs [p] (disk [(p, c)])))
     = [(p, c)].
Proof.
  intros p c. repeat split; vm_compute; reflexivity.
Qed.

(** ** The backup of safe_svg_improve.py *)

Lemma backup_of_neq (p : path) : SafeSvgImproveMain.backup_of p <> p.
Proof.
  unfold SafeSvgImproveMain.backup_of. intros H.
  apply (f_equal (@length _)) in H. rewrite length_app in H.
  vm_compute (length (txt ".backup")) in H. lia.
Qed.

(** C8, as the code has it: when [safe_improve_svg] modifies a file, the
    file then holds the improved content and the sibling [.backup] exists;
    the backup holds the content read from the file if there was no backup
    before, and is the earlier backup, unchanged, if there was one. *)
Theorem C8_backup :
  forall (p : path) (st st' : state) (msg : text),
    SafeSvgImproveMain.safe_improve_svg p st = (st', Ok (true, msg)) ->
    exists content,
      files st !! p = Some content
      /\ SafeSvgImprove.improve content <> content
      /\ files st' !! p = Some (SafeSvgImprove.improve content)
      /\ files st' !! SafeSvgImproveMain.backup_of p
         = Some (match files st !! SafeSvgImproveMain.backup_of p with
                 | Some earlier => earlier
                 | None => content
                 end).
Proof.
  intros p st st' msg.
  unfold SafeSvgImproveMain.safe_improve_svg, try_except, bind, path_exists, ret.
  unfold read_file.
  destruct (read_fault st p) as [e|]; [intros H; inversion H|].
  destruct (files st !! p) as [content|] eqn:Hf; [|intros H; inversion H].
  destruct (is_font_or_favicon p); [intros H; inversion H|].
  destruct (text_eqb (SafeSvgImprove.improve content) content) eqn:Hne;
    simpl; [intros H; inversion H|].
  apply text_eqb_false in Hne.
  pose proof (backup_of_neq p) as Hbk.
  destruct (files st !! SafeSvgImproveMain.backup_of p) as [earlier|] eqn:Hb.
  - replace (bool_decide (is_Some (Some earlier))) with true
      by (symmetry; apply bool_decide_eq_true; eauto).
    simpl. unfold write_file.
    destruct (write_fault st p); simpl; intros H; inversion H; subst; clear H.
    exists content. simpl. repeat split; auto.
    + apply lookup_insert_eq.
    + rewrite lookup_insert_ne by auto. exact Hb.
  - replace (bool_decide (is_Some (@None text))) with false
      by (symmetry; apply bool_decide_eq_false; intros [? ?]; discriminate).
    simpl. unfold write_file.
    destruct (write_fault st (SafeSvgImproveMain.backup_of p)); simpl;
      [intros H; inversion H|].
    destruct (write_fault st p); simpl; intros H; inversion H; subst; clear H.
    exists content. simpl. repeat split; auto.
    + apply lookup_insert_eq.
    + rewrite lookup_insert_ne by auto. apply lookup_insert_eq.
Qed.

(** C8 on a first run (no backup yet) and on a later run over an edited
    file (the earlier backup stays). *)
Lemma C8_backup_witness :
  let p := txt "docs/a.svg" in
  let c := txt "<line stroke-width=`1`/>" in
  let st := disk [(p, c)] in
  files (fst (SafeSvgImproveMain.safe_improve_svg p st))
    !! SafeSvgImproveMain.backup_of p = Some c.
Proof.
  intros p c st.
  destruct (SafeSvgImproveMain.safe_improve_svg p st) as [st' r] eqn:E.
  assert (Hr : r = Ok (true, txt "Improved successfully"))
    by (apply (f_equal snd) in E; vm_compute in E; symmetry; exact E).
  subst r.
  destruct (C8_backup p st st' _ E) as (content & Hf & _ & _ & Hb).
  assert (Hc : content = c)
    by (vm_compute in Hf; inversion Hf; reflexivity).
  subst content. simpl. rewrite Hb. vm_compute. reflexivity.
Defined.

(** The claim as worded fails when a backup is already there: the file is
    modified, and the backup afterwards is not the content the file had
    before this run. *)
Lemma C8_counterexample :
  let p := txt "docs/a.svg" in
  let c := txt "<line stroke-width=`1`/>" in
  let st := disk [(p, c); (SafeSvgImproveMain.backup_of p, txt "<line/>")] in
  let st' := fst (SafeSvgImproveMain.safe_improve_svg p st) in
  snd (SafeSvgImproveMain.safe_improve_svg p st)
  = Ok (true, txt "Improved successfully")
  /\ files st !! p = Some c
  /\ files st' !! p = Some (txt "<line stroke-width=`2`/>")
  /\ files st' !! SafeSvgImproveMain.backup_of p = Some (txt "<line/>")
  /\ txt "<line/>" <> c.
Proof.
  intros p c st st'. repeat split; try (vm_compute; reflexivity).
  vm_compute. discriminate.
Qed.

(** ** Exceptions in the batch loops *)

Lemma for_each_app {A : Type} (body : path -> A -> M A) (l1 l2 : list path)
  (acc : A) (st : state) :
  for_each body (l1 ++ l2) acc st
  = bind (for_each body l1 acc) (fun acc' => for_each body l2 acc') st.
Proof.
  revert acc st. induction l1 as [|x l1 IH]; intros acc st; simpl.
  - reflexivity.
  - unfold bind in *. destruct (body x acc st) as [st1 [a|msg]]; simpl; auto.
Qed.

(** A loop whose body never raises never raises, and an invariant of the
    accumulator can be carried along. *)
Lemma for_each_total {A : Type} (body : path -> A -> M A)
  (measure : A -> nat) (l : list path) :
  (forall x acc st, exists acc',
      snd (body x acc st) = Ok acc' /\ measure acc' = S (measure acc)) ->
  forall acc st, exists acc',
      snd (for_each body l acc st) = Ok acc'
      /\ measure acc' = length l + measure acc.
Proof.
  intros Hbody. induction l as [|x l IH]; intros acc st; simpl.
  - exists acc. split; reflexivity.
  - unfold bind. destruct (Hbody x acc st) as (acc1 & H1 & Hm).
    destruct (body x acc st) as [st1 [a|msg]]; simpl in H1; inversion H1; subst.
    destruct (IH acc1 st1) as (acc2 & H2 & Hm2).
    exists acc2. split; [exact H2 | lia].
Qed.

Lemma fix_svgs_properly_body_total (x : path) (c : FixSvgsProperlyMain.counts)
  (st : state) :
  exists c', snd (FixSvgsProperlyMain.loop_body x c st) = Ok c'
    /\ FixSvgsProperlyMain.fixed c' + FixSvgsProperlyMain.errors c'
       = S (FixSvgsProperlyMain.fixed c + FixSvgsProperlyMain.errors c).
Proof.
  unfold FixSvgsProperlyMain.loop_body, try_except, bind, ret.
  destruct (FixSvgsProperlyMain.fix_one x st) as [st1 [[]|msg]]; simpl;
    eexists; split; try reflexivity; simpl; lia.
Qed.

Lemma fix_svg_file_total (x : path) (st : state) :
  exists r, snd (FixSvgAttributesMain.fix_svg_file x st) = Ok r.
Proof.
  unfold FixSvgAttributesMain.fix_svg_file, try_except, bind, ret, read_file,
    write_file.
  repeat (case_match; simpl; simplify_eq); eauto.
Qed.

Lemma fix_svg_attributes_body_total (x : path) (s : FixSvgAttributesMain.stats)
  (st : state) :
  exists s', snd (FixSvgAttributesMain.loop_body x s st) = Ok s'
    /\ stats_total s' = S (stats_total s).
Proof.
  unfold FixSvgAttributesMain.loop_body, bind, ret.
  destruct (fix_svg_file_total x st) as (r & Hr).
  destruct (FixSvgAttributesMain.fix_svg_file x st) as [st1 [r'|msg]];
    simpl in Hr; inversion Hr; subst; simpl.
  eexists; split; [reflexivity|].
  unfold stats_total. destruct (fst r); simpl; lia.
Qed.

Lemma minimal_body_total (x : path) (n : nat) (st : state) :
  exists n', snd (MinimalSvgFixMain.loop_body x n st) = Ok n'.
Proof.
  unfold MinimalSvgFixMain.loop_body, try_except, bind, ret.
  destruct (MinimalSvgFixMain.minimal_fix_svg x st) as [st1 [[]|msg]]; simpl;
    eauto.
Qed.

Lemma minimal_main_total (l : list path) :
  forall (n : nat) (st : state),
    exists n', snd (for_each MinimalSvgFixMain.loop_body l n st) = Ok n'.
Proof.
  induction l as [|x l IH]; intros n st; simpl.
  - eauto.
  - unfold bind. destruct (minimal_body_total x n st) as (n1 & H1).
    destruct (MinimalSvgFixMain.loop_body x n st) as [st1 [a|msg]];
      simpl in H1; inversion H1; subst. apply IH.
Qed.

Lemma properly_any_body_total (transform : text -> path -> outcome text)
  (late : FsLate.late_fault) (x : path) (c : FixSvgsProperlyMain.counts)
  (st : state) :
  exists c', snd (FixSvgsProperlyAny.loop_body transform late x c st) = Ok c'
    /\ FixSvgsProperlyMain.fixed c' + FixSvgsProperlyMain.errors c'
       = S (FixSvgsProperlyMain.fixed c + FixSvgsProperlyMain.errors c).
Proof.
  unfold FixSvgsProperlyAny.loop_body, try_except, bind, ret.
  destruct (FixSvgsProperlyAny.fix_one transform late x st) as [st1 [[]|msg]]; simpl;
    eexists; split; try reflexivity; simpl; lia.
Qed.

Lemma attributes_any_file_total (transform : text -> outcome text)
  (late : FsLate.late_fault) (x : path) (st : state) :
  exists r, snd (FixSvgAttributesAny.fix_svg_file transform late x st) = Ok r.
Proof.
  unfold FixSvgAttributesAny.fix_svg_file, try_except, ret.
  destruct (FixSvgAttributesAny.fix_svg_file_try transform late x st)
    as [st1 [r|msg]]; simpl; eauto.
Qed.

Lemma attributes_any_body_total (transform : text -> outcome text)
  (late : FsLate.late_fault) (x : path) (s : FixSvgAttributesMain.stats)
  (st : state) :
  exists s', snd (FixSvgAttributesAny.loop_body transform late x s st) = Ok s'
    /\ stats_total s' = S (stats_total s).
Proof.
  unfold FixSvgAttributesAny.loop_body, bind, ret.
  destruct (attributes_any_file_total transform late x st) as (r & Hr).
  destruct (FixSvgAttributesAny.fix_svg_file transform late x st) as [st1 [r'|msg]];
    simpl in Hr; inversion Hr; subst; simpl.
  eexists; split; [reflexivity|].
  unfold stats_total. destruct (fst r); simpl; lia.
Qed.

Lemma minimal_any_main_total (transform : text -> outcome text)
  (late : FsLate.late_fault) (l : list path) :
  forall (n : nat) (st : state),
    exists n', snd (for_each (MinimalSvgFixAny.loop_body transform late) l n st) = Ok n'.
Proof.
  induction l as [|x l IH]; intros n st; simpl.
  - eauto.
  - unfold bind, MinimalSvgFixAny.loop_body at 1, try_except, bind, ret.
    destruct (MinimalSvgFixAny.minimal_fix_svg transform late x st)
      as [st1 [[]|msg]]; simpl; apply IH.
Qed.

(** C6, as the code has it, for any transformation and any failing write.
    In the loops of fix_svgs_properly.py and fix_svg_attributes.py no
    exception leaves the loop and every file ends up in exactly one
    counter; when the [try] block of a file raises, the file adds one to
    the error counter and the loop goes on with the files after it, from
    the disk as the failed block left it; and the block does raise when the
    read fails, when the transformation raises and when the write fails
    (at [open] or later).  The loop of minimal_svg_fix.py also catches the
    exception, raised in the same three ways, and goes on, but it has no
    error counter: the failure changes no count. *)
Theorem C6_exceptions_are_local :
  forall late : FsLate.late_fault,
    (forall (transform : text -> path -> outcome text) (glob : list path) (st : state),
        exists c,
          snd (FixSvgsProperlyAny.process_all_svgs transform late glob st) = Ok c
          /\ FixSvgsProperlyMain.fixed c + FixSvgsProperlyMain.errors c
             = length (filter (fun f => negb (is_font_or_favicon f)) glob))
    /\ (forall (transform : text -> path -> outcome text) (f : path)
               (rest : list path) (c : FixSvgsProperlyMain.counts)
               (st st1 : state) (msg : text),
           FixSvgsProperlyAny.fix_one transform late f st = (st1, Raised msg) ->
           for_each (FixSvgsProperlyAny.loop_body transform late) (f :: rest) c st
           = for_each (FixSvgsProperlyAny.loop_body transform late) rest
               (FixSvgsProperlyMain.mkCounts (FixSvgsProperlyMain.fixed c)
                                             (FixSvgsProperlyMain.errors c + 1))
               st1)
    /\ (forall (transform : text -> path -> outcome text) (f : path) (st : state),
           (forall msg,
               read_file f st = (st, Raised msg) ->
               FixSvgsProperlyAny.fix_one transform late f st = (st, Raised msg))
           /\ (forall content msg,
                  read_file f st = (st, Ok content) ->
                  transform content f = Raised msg ->
                  FixSvgsProperlyAny.fix_one transform late f st = (st, Raised msg))
           /\ (forall content fixed_content st1 msg,
                  read_file f st = (st, Ok content) ->
                  transform content f = Ok fixed_content ->
                  FsLate.write_file late f fixed_content st = (st1, Raised msg) ->
                  FixSvgsProperlyAny.fix_one transform late f st = (st1, Raised msg)))
    /\ (forall (transform : text -> outcome text) (glob : list path) (st : state),
           exists s,
             snd (FixSvgAttributesAny.main transform late glob st) = Ok s
             /\ stats_total s = length glob)
    /\ (forall (transform : text -> outcome text) (f : path) (rest : list path)
               (s : FixSvgAttributesMain.stats) (st st1 : state) (msg : text),
           FixSvgAttributesAny.fix_svg_file_try transform late f st
           = (st1, Raised msg) ->
           for_each (FixSvgAttributesAny.loop_body transform late) (f :: rest) s st
           = for_each (FixSvgAttributesAny.loop_body transform late) rest
               (FixSvgAttributesMain.bump s FixSvgAttributesMain.error) st1)
    /\ (forall (transform : text -> outcome text) (f : path) (st : state),
           (forall msg,
               read_file f st = (st, Raised msg) ->
               FixSvgAttributesAny.fix_svg_file_try transform late f st
               = (st, Raised msg))
           /\ (forall content msg,
                  read_file f st = (st, Ok content) ->
                  is_font_or_favicon f = false ->
                  transform content = Raised msg ->
                  FixSvgAttributesAny.fix_svg_file_try transform late f st
                  = (st, Raised msg))
           /\ (forall content fixed_content st1 msg,
                  read_file f st = (st, Ok content) ->
                  is_font_or_favicon f = false ->
                  transform content = Ok fixed_content ->
                  fixed_content <> content ->
                  FsLate.write_file late f fixed_content st = (st1, Raised msg) ->
                  FixSvgAttributesAny.fix_svg_file_try transform late f st
                  = (st1, Raised msg)))
    /\ (forall (transform : text -> outcome text) (glob : list path) (st : state),
           exists n, snd (MinimalSvgFixAny.main transform late glob st) = Ok n)
    /\ (forall (transform : text -> outcome text) (f : path) (rest : list path)
               (n : nat) (st st1 : state) (msg : text),
           MinimalSvgFixAny.minimal_fix_svg transform late f st = (st1, Raised msg) ->
           for_each (MinimalSvgFixAny.loop_body transform late) (f :: rest) n st
           = for_each (MinimalSvgFixAny.loop_body transform late) rest n st1)
    /\ (forall (transform : text -> outcome text) (f : path) (st : state),
           (forall msg,
               read_file f st = (st, Raised msg) ->
               MinimalSvgFixAny.minimal_fix_svg transform late f st
               = (st, Raised msg))
           /\ (forall content msg,
                  read_file f st = (st, Ok content) ->
                  is_font_or_favicon f = false ->
                  transform content = Raised msg ->
                  MinimalSvgFixAny.minimal_fix_svg transform late f st
                  = (st, Raised msg))
           /\ (forall content new st1 msg,
                  read_file f st = (st, Ok content) ->
                  is_font_or_favicon f = false ->
                  transform content = Ok new ->
                  FsLate.write_file late f new st = (st1, Raised msg) ->
                  MinimalSvgFixAny.minimal_fix_svg transform late f st
                  = (st1, Raised msg))).
Proof.
  intros late.
  refine (conj _ (conj _ (conj _ (conj _ (conj _ (conj _ (conj _ (conj _ _)))))))).
  - intros transform glob st. unfold FixSvgsProperlyAny.process_all_svgs.
    destruct (for_each_total (FixSvgsProperlyAny.loop_body transform late)
                (fun c => FixSvgsProperlyMain.fixed c + FixSvgsProperlyMain.errors c)
                (filter (fun f => negb (is_font_or_favicon f)) glob)
                (properly_any_body_total transform late)
                (FixSvgsProperlyMain.mkCounts 0 0) st) as (c & Hc & Hm).
    exists c. split; [exact Hc | simpl in Hm; lia].
  - intros transform f rest c st st1 msg Hf. cbn [for_each].
    unfold bind, FixSvgsProperlyAny.loop_body at 1, try_except, bind.
    rewrite Hf. reflexivity.
  - intros transform f st. unfold FixSvgsProperlyAny.fix_one, bind, FsLate.pure_step.
    refine (conj _ (conj _ _)).
    + intros msg Hr. rewrite Hr. reflexivity.
    + intros content msg Hr Htr. rewrite Hr, Htr. reflexivity.
    + intros content fixed_content st1 msg Hr Htr Hw. rewrite Hr, Htr.
      exact Hw.
  - intros transform glob st. unfold FixSvgAttributesAny.main.
    destruct (for_each_total (FixSvgAttributesAny.loop_body transform late)
                stats_total glob (attributes_any_body_total transform late)
                (FixSvgAttributesMain.mkStats 0 0 0 0) st) as (s & Hs & Hm).
    exists s. split; [exact Hs | unfold stats_total in *; simpl in Hm; lia].
  - intros transform f rest s st st1 msg Hf. cbn [for_each].
    unfold bind, FixSvgAttributesAny.loop_body at 1, bind,
      FixSvgAttributesAny.fix_svg_file, try_except.
    rewrite Hf. reflexivity.
  - intros transform f st.
    unfold FixSvgAttributesAny.fix_svg_file_try, bind, FsLate.pure_step.
    refine (conj _ (conj _ _)).
    + intros msg Hr. rewrite Hr. reflexivity.
    + intros content msg Hr Hp Htr. rewrite Hr, Hp, Htr. reflexivity.
    + intros content fixed_content st1 msg Hr Hp Htr Hne Hw.
      rewrite Hr, Hp, Htr. apply text_eqb_false in Hne. rewrite Hne.
      cbn [negb]. rewrite Hw. reflexivity.
  - intros transform glob st. apply minimal_any_main_total.
  - intros transform f rest n st st1 msg Hf. cbn [for_each].
    unfold bind, MinimalSvgFixAny.loop_body at 1, try_except, bind.
    rewrite Hf. reflexivity.
  - intros transform f st.
    unfold MinimalSvgFixAny.minimal_fix_svg, bind, FsLate.pure_step.
    refine (conj _ (conj _ _)).
    + intros msg Hr. rewrite Hr. reflexivity.
    + intros content msg Hr Hp Htr. rewrite Hr, Hp, Htr. reflexivity.
    + intros content new st1 msg Hr Hp Htr Hw. rewrite Hr, Hp, Htr, Hw.
      reflexivity.
Qed.

(** C6 on a list whose first file is missing and whose second is fine, and
    on a file that fix_svg_attributes.py cannot open for writing. *)
Lemma C6_exceptions_are_local_witness :
  let bad := txt "docs/missing.svg" in
  let good := txt "docs/a.svg" in
  let st := disk [(good, txt "<line stroke-width=`1`/>")] in
  let locked := mkState (list_to_map [(good, txt "<rect rx=`5`/ x=`1`>")])
                  (fun _ => None)
                  (fun _ => Some (txt "[Errno 13] Permission denied")) [] in
  snd (for_each
         (FixSvgsProperlyAny.loop_body
            (fun c f => FsLate.of_option (FixSvgsProperly.fix_svg_content c f))
            FsLate.no_late)
         [bad; good] (FixSvgsProperlyMain.mkCounts 0 0) st)
  = Ok (FixSvgsProperlyMain.mkCounts 1 1)
  /\ snd (for_each
            (FixSvgAttributesAny.loop_body
               (fun c => Ok (FixSvgAttributes.fix_malformed_attributes c))
               FsLate.no_late)
            [good] (FixSvgAttributesMain.mkStats 0 0 0 0) locked)
     = Ok (FixSvgAttributesMain.mkStats 0 0 0 1).
Proof.
  intros bad good st locked.
  pose proof (C6_exceptions_are_local FsLate.no_late)
    as (_ & H2 & _ & _ & H5 & _).
  split.
  - rewrite (H2 _ bad [good] _ st st (missing_msg bad)) by reflexivity.
    vm_compute. reflexivity.
  - rewrite (H5 _ good [] _ locked locked (txt "[Errno 13] Permission denied"))
      by (vm_compute; reflexivity).
    reflexivity.
Defined.

(** The claim as worded fails for minimal_svg_fix.py: reading the missing
    file raises, the loop catches it, and the run ends exactly as the run
    over no file at all; nothing counted the failure. *)
Lemma C6_counterexample :
  let bad := txt "docs/src/missing.svg" in
  let st := disk [] in
  MinimalSvgFixMain.minimal_fix_svg bad st = (st, Raised (missing_msg bad))
  /\ MinimalSvgFixMain.main [bad] st = (st, Ok 0)
  /\ MinimalSvgFixMain.main [] st = (st, Ok 0).
Proof.
  intros bad st. repeat split.
Qed.

(** ** The matcher and [re.sub] *)

Lemma backoff_sound {A : Type} (k : nat -> option A) (lo n : nat) (r : A) :
  backoff k lo n = Some r -> exists j, lo <= j <= n /\ k j = Some r.
Proof.
  induction n as [|n IH]; cbn [backoff].
  - destruct (Nat.ltb_spec 0 lo) as [Hlt|Hge]; [discriminate|].
    destruct (k 0) eqn:E; [|discriminate].
    intros Hb; inversion Hb; subst. exists 0. split; [lia | exact E].
  - destruct (Nat.ltb_spec (S n) lo) as [Hlt|Hge]; [discriminate|].
    destruct (k (S n)) eqn:E.
    + intros Hb; inversion Hb; subst. exists (S n). split; [lia | exact E].
    + intros Hb. destruct (IH Hb) as (j & Hj & Hk). exists j.
      split; [lia | exact Hk].
Qed.

Lemma backoff_first {A : Type} (k : nat -> option A) (lo n : nat) (r : A) :
  lo <= n -> k n = Some r -> backoff k lo n = Some r.
Proof.
  intros Hle Hk. destruct n; cbn [backoff];
    match goal with
    | |- context [?a <? lo] =>
        destruct (Nat.ltb_spec a lo) as [Hlt|Hge]; [lia|]
    end; rewrite Hk; reflexivity.
Qed.

Lemma backoff_none {A : Type} (k : nat -> option A) (lo n : nat) :
  (forall j, lo <= j <= n -> k j = None) -> backoff k lo n = None.
Proof.
  induction n as [|n IH]; intros Hk; cbn [backoff].
  - destruct (Nat.ltb_spec 0 lo) as [Hlt|Hge]; [reflexivity|].
    rewrite Hk by lia. reflexivity.
  - destruct (Nat.ltb_spec (S n) lo) as [Hlt|Hge]; [reflexivity|].
    rewrite Hk by lia. apply IH. intros j Hj. apply Hk. lia.
Qed.

Lemma run_le (p : ascii -> bool) (s : text) : run p s <= length s.
Proof. induction s as [|c s IH]; simpl; [lia|]. destruct (p c); simpl; lia. Qed.

Lemma run_all (p : ascii -> bool) (s : text) (j : nat) :
  j <= run p s -> forallb p (firstn j s) = true.
Proof.
  revert j. induction s as [|c s IH]; intros j Hj; simpl in *.
  - destruct j; reflexivity.
  - destruct j; [reflexivity|]. simpl. destruct (p c); [|lia].
    simpl. apply IH. lia.
Qed.

Lemma run_app_stop (p : ascii -> bool) (u : text) (c : ascii) (t : text) :
  forallb p u = true -> p c = false -> run p (u ++ c :: t) = length u.
Proof.
  intros Hu Hc. induction u as [|a u IH]; simpl in *.
  - rewrite Hc. reflexivity.
  - apply andb_true_iff in Hu as [Ha Hu]. rewrite Ha, IH by exact Hu. reflexivity.
Qed.

Lemma run_app_ge (p : ascii -> bool) (u t : text) :
  forallb p u = true -> length u <= run p (u ++ t).
Proof.
  intros Hu. induction u as [|a u IH]; simpl in *; [lia|].
  apply andb_true_iff in Hu as [Ha Hu]. rewrite Ha. specialize (IH Hu). lia.
Qed.

(** The matcher only consumes a prefix of the text. *)
Lemma rmatch_suffix (re : regex) :
  forall (s : text) (cs : captures) (rest : text) (cs' : captures),
    rmatch re s cs = Some (rest, cs') -> exists w, s = w ++ rest.
Proof.
  induction re as [|a re IH]; intros s cs rest cs' H; simpl in H.
  - inversion H; subst. exists []. reflexivity.
  - destruct a as [p|p lo|g|g].
    + destruct s as [|c s]; [discriminate|]. destruct (p c); [|discriminate].
      destruct (IH _ _ _ _ H) as [w Hw]. exists (c :: w). rewrite Hw. reflexivity.
    + apply backoff_sound in H as (j & _ & Hj).
      destruct (IH _ _ _ _ Hj) as [w Hw]. exists (firstn j s ++ w).
      rewrite <- app_assoc, <- Hw. symmetry. apply firstn_skipn.
    + eapply IH; eauto.
    + eapply IH; eauto.
Qed.

Lemma match_at_whole (re : regex) (s : text) (m : mobj) (rest : text) :
  match_at re s = Some (m, rest) -> s = whole m ++ rest.
Proof.
  unfold match_at. destruct (rmatch re s no_captures) as [[r cs]|] eqn:E;
    [|discriminate].
  intros H; inversion H; subst; clear H. simpl.
  destruct (rmatch_suffix _ _ _ _ _ E) as [w Hw]. subst s.
  rewrite length_app. replace (length w + length rest - length rest) with (length w) by lia.
  rewrite firstn_app, firstn_all, Nat.sub_diag. simpl. rewrite app_nil_r.
  reflexivity.
Qed.

Lemma sub_from_skip (re : regex) (repl : mobj -> text) (count : option nat) :
  forall (k : nat) (s : text),
    k <= length s ->
    sub_from re repl count k s = sub_from re repl count 0 (skipn k s).
Proof.
  induction k as [|k IH]; intros s Hk.
  - reflexivity.
  - destruct s as [|c s]; simpl in Hk; [lia|]. simpl. apply IH. lia.
Qed.

(** The equations of [re.sub] without a count. *)
Lemma sub_nil_none (re : regex) (repl : mobj -> text) :
  match_at re [] = None -> sub re repl None [] = [].
Proof. intros H. unfold sub. simpl. rewrite H. reflexivity. Qed.

Lemma sub_cons_none (re : regex) (repl : mobj -> text) (c : ascii) (s : text) :
  match_at re (c :: s) = None ->
  sub re repl None (c :: s) = c :: sub re repl None s.
Proof. intros H. unfold sub. simpl. rewrite H. reflexivity. Qed.

Lemma sub_cons_some (re : regex) (repl : mobj -> text) (s : text) (m : mobj)
  (rest : text) :
  match_at re s = Some (m, rest) -> whole m <> [] ->
  sub re repl None s = repl m ++ sub re repl None rest.
Proof.
  intros H Hne. pose proof (match_at_whole _ _ _ _ H) as Hs.
  destruct s as [|c s'].
  - destruct (whole m); [congruence | discriminate].
  - unfold sub. cbn [sub_from exhausted dec_count]. rewrite H. f_equal.
    destruct (whole m) as [|c0 w] eqn:Hw; [congruence|]. simpl.
    simpl in Hs. inversion Hs; subst.
    rewrite sub_from_skip by (rewrite length_app; lia).
    rewrite skipn_app, skipn_all, Nat.sub_diag. reflexivity.
Qed.

(** A step with a count of one: the leftmost match only. *)
Lemma sub_once_none (re : regex) (repl : mobj -> text) (s : text) :
  (forall j, match_at re (skipn j s) = None) -> sub re repl (Some 1) s = s.
Proof.
  unfold sub. induction s as [|c s IH]; intros Hn;
    pose proof (Hn 0) as H0; simpl in H0; simpl; rewrite H0.
  - reflexivity.
  - f_equal. apply IH. intros j. apply (Hn (S j)).
Qed.

Lemma sub_all_none (re : regex) (repl : mobj -> text) (s : text) :
  (forall j, match_at re (skipn j s) = None) -> sub re repl None s = s.
Proof.
  unfold sub. induction s as [|c s IH]; intros Hn;
    pose proof (Hn 0) as H0; simpl in H0; simpl; rewrite H0.
  - reflexivity.
  - f_equal. apply IH. intros j. apply (Hn (S j)).
Qed.

(** *** Literal patterns *)

Lemma starts_by_length (eqv : ascii -> ascii -> bool) (p s : text) :
  starts_by eqv p s = true -> length p <= length s.
Proof.
  revert s. induction p as [|a p IH]; intros [|c s] H; simpl in *; try lia;
    try discriminate.
  apply andb_true_iff in H as [_ H]. specialize (IH _ H). lia.
Qed.

Lemma rmatch_lit (eqv : ascii -> ascii -> bool) (p : text) (re : regex) :
  forall (s : text) (cs : captures),
    rmatch (lit_by eqv p ++ re) s cs
    = if starts_by eqv p s then rmatch re (skipn (length p) s) cs else None.
Proof.
  induction p as [|a p IH]; intros s cs; simpl.
  - reflexivity.
  - destruct s as [|c s]; [reflexivity|]. destruct (eqv a c); simpl; auto.
Qed.

Lemma match_at_lit (eqv : ascii -> ascii -> bool) (p s : text) :
  match_at (lit_by eqv p) s
  = if starts_by eqv p s
    then Some (mkMobj (firstn (length p) s) no_captures, skipn (length p) s)
    else None.
Proof.
  unfold match_at. rewrite <- (app_nil_r (lit_by eqv p)), rmatch_lit. simpl.
  destruct (starts_by eqv p s) eqn:E; [|reflexivity].
  apply starts_by_length in E. rewrite length_skipn.
  replace (length s - (length s - length p)) with (length p) by lia.
  reflexivity.
Qed.

Lemma sub_lit_nil (eqv : ascii -> ascii -> bool) (p r : text) :
  p <> [] -> sub (lit_by eqv p) (fun _ => r) None [] = [].
Proof.
  intros Hp. apply sub_nil_none. rewrite match_at_lit.
  destruct p; [congruence | reflexivity].
Qed.

Lemma sub_lit_cons (eqv : ascii -> ascii -> bool) (p r : text) (c : ascii)
  (s : text) :
  p <> [] ->
  sub (lit_by eqv p) (fun _ => r) None (c :: s)
  = if starts_by eqv p (c :: s)
    then r ++ sub (lit_by eqv p) (fun _ => r) None (skipn (length p) (c :: s))
    else c :: sub (lit_by eqv p) (fun _ => r) None s.
Proof.
  intros Hp. destruct (starts_by eqv p (c :: s)) eqn:E.
  - rewrite (sub_cons_some (lit_by eqv p) (fun _ => r) (c :: s)
               (mkMobj (firstn (length p) (c :: s)) no_captures)
               (skipn (length p) (c :: s))).
    + reflexivity.
    + rewrite match_at_lit, E. reflexivity.
    + simpl. destruct p; [congruence | discriminate].
  - apply sub_cons_none. rewrite match_at_lit, E. reflexivity.
Qed.

Lemma starts_with_by (p s : text) : starts_with p s = starts_by is_char p s.
Proof.
  revert s. induction p as [|a p IH]; intros [|c s]; simpl; auto.
  rewrite IH. unfold is_char. rewrite (Ascii.eqb_sym a c). reflexivity.
Qed.

Lemma replace_from_skip (old new : text) :
  forall (k : nat) (s : text),
    k <= length s ->
    replace_from old new k s = replace_from old new 0 (skipn k s).
Proof.
  induction k as [|k IH]; intros s Hk; [reflexivity|].
  destruct s as [|c s]; simpl in Hk; [lia|]. simpl. apply IH. lia.
Qed.

Lemma replace_cons (old new : text) (c : ascii) (s : text) :
  old <> [] ->
  replace old new (c :: s)
  = if starts_by is_char old (c :: s)
    then new ++ replace old new (skipn (length old) (c :: s))
    else c :: replace old new s.
Proof.
  intros Hp. unfold replace. cbn [replace_from].
  rewrite starts_with_by. destruct (starts_by is_char old (c :: s)) eqn:E;
    [|reflexivity].
  f_equal. apply starts_by_length in E. simpl in E.
  rewrite replace_from_skip by lia.
  destruct old as [|a old]; [congruence|]. simpl.
  rewrite Nat.sub_0_r. reflexivity.
Qed.

(** ** When a substitution leaves no occurrence of a literal *)

Lemma starts_by_app_agree (eqv : ascii -> ascii -> bool) (q r t : text) :
  starts_by eqv q (r ++ t) = true -> agree eqv q r = true.
Proof.
  revert r. induction q as [|a q IH]; intros [|c r] H; simpl in *; auto.
  apply andb_true_iff in H as [Ha H]. rewrite Ha. simpl. eauto.
Qed.

Lemma starts_by_nil_false (eqv : ascii -> ascii -> bool) (q : text) :
  q <> [] -> starts_by eqv q [] = false.
Proof. destruct q; [congruence | reflexivity]. Qed.

Lemma occurs_by_false (eqv : ascii -> ascii -> bool) (q s : text) :
  occurs_by eqv q s = false <-> forall j, starts_by eqv q (skipn j s) = false.
Proof.
  induction s as [|c s IH]; simpl.
  - rewrite orb_false_r. split.
    + intros H j. destruct j; exact H.
    + intros H. apply (H 0).
  - rewrite orb_false_iff, IH. split.
    + intros [H0 H] [|j]; [exact H0 | apply H].
    + intros H. split; [apply (H 0) | intros j; apply (H (S j))].
Qed.

Lemma clash_spec (eqv : ascii -> ascii -> bool) (q r : text) :
  clash eqv q r = true ->
  (forall d, d < length r -> agree eqv q (skipn d r) = false)
  /\ (forall e, 1 <= e < length q -> agree eqv (skipn e q) r = false).
Proof.
  unfold clash. rewrite andb_true_iff, !forallb_forall. intros [H1 H2]. split.
  - intros d Hd. apply negb_true_iff, H1, in_seq. lia.
  - intros e He. apply negb_true_iff, H2, in_seq. lia.
Qed.

(** An occurrence of [q] cannot start inside a copy of [r]. *)
Lemma occurs_by_over_copy (eqv : ascii -> ascii -> bool) (q t : text) :
  occurs_by eqv q t = false ->
  forall r, (forall d, d < length r -> agree eqv q (skipn d r) = false) ->
            occurs_by eqv q (r ++ t) = false.
Proof.
  intros Ht. induction r as [|c r IH]; intros Hr; [exact Ht|].
  cbn [app occurs_by]. apply orb_false_iff. split.
  - destruct (starts_by eqv q (c :: r ++ t)) eqn:E; [|reflexivity].
    apply (starts_by_app_agree eqv q (c :: r) t) in E.
    pose proof (Hr 0 ltac:(simpl; lia)) as H0. simpl in H0. congruence.
  - apply IH. intros d Hd. apply (Hr (S d)). simpl. lia.
Qed.

Section OneSubstitution.

(** [eqv_w] compares the watched literal [q], [eqv_s] the pattern [p] of the
    substitution; [scan] is any function with the two equations of a
    leftmost, non-overlapping replacement of [p] by [r]. *)
Variables eqv_w eqv_s : ascii -> ascii -> bool.
Variables p r q : text.
Variable scan : text -> text.

Hypothesis p_nonempty : p <> [].
Hypothesis q_nonempty : q <> [].
Hypothesis scan_nil : scan [] = [].
Hypothesis scan_cons : forall c s,
    scan (c :: s)
    = if starts_by eqv_s p (c :: s)
      then r ++ scan (skipn (length p) (c :: s))
      else c :: scan s.
Hypothesis q_clash : clash eqv_w q r = true.

(** What the output starts with, it copied from the input, unless a copy
    of [r] begins in there. *)
Lemma scan_prefix :
  forall q1 s,
    starts_by eqv_w q1 (scan s) = true ->
    starts_by eqv_w q1 s = true
    \/ exists e, e < length q1 /\ agree eqv_w (skipn e q1) r = true.
Proof.
  induction q1 as [|a q1 IH]; intros s H.
  - left. reflexivity.
  - destruct s as [|c s].
    + rewrite scan_nil in H. discriminate.
    + rewrite scan_cons in H. destruct (starts_by eqv_s p (c :: s)).
      * right. exists 0. split; [simpl; lia|].
        apply starts_by_app_agree in H. exact H.
      * simpl in H. apply andb_true_iff in H as [Ha H].
        destruct (IH _ H) as [Hl | (e & He & Hag)].
        -- left. simpl. rewrite Ha, Hl. reflexivity.
        -- right. exists (S e). split; [simpl; lia | exact Hag].
Qed.

(** If every occurrence of [q] in the input is a match of [p], the output
    has no occurrence of [q]. *)
Lemma scan_absent :
  forall s,
    (forall j, starts_by eqv_w q (skipn j s) = true ->
               starts_by eqv_s p (skipn j s) = true) ->
    occurs_by eqv_w q (scan s) = false.
Proof.
  destruct (clash_spec _ _ _ q_clash) as [Hin Hout].
  intros s. remember (length s) as n eqn:Hn. revert s Hn.
  induction n as [n IH] using lt_wf_ind. intros s Hn Hq.
  destruct s as [|c s].
  - rewrite scan_nil. simpl. rewrite starts_by_nil_false by exact q_nonempty.
    reflexivity.
  - rewrite scan_cons. destruct (starts_by eqv_s p (c :: s)) eqn:Ep.
    + apply occurs_by_over_copy; [|exact Hin].
      apply starts_by_length in Ep.
      apply (IH (length (skipn (length p) (c :: s)))); [| reflexivity |].
      * rewrite length_skipn. subst n. destruct p; [congruence|]. simpl in *. lia.
      * intros j. rewrite skipn_skipn. apply Hq.
    + cbn [occurs_by]. apply orb_false_iff. split.
      * destruct (starts_by eqv_w q (c :: scan s)) eqn:E; [|reflexivity].
        destruct q as [|a q'] eqn:Eq; [congruence|].
        simpl in E. apply andb_true_iff in E as [Ha E].
        destruct (scan_prefix _ _ E) as [Hl | (e & He & Hag)].
        -- specialize (Hq 0). simpl in Hq. rewrite Ha, Hl in Hq.
           rewrite Hq in Ep by reflexivity. discriminate.
        -- pose proof (Hout (S e) ltac:(simpl; lia)) as Ho. simpl in Ho.
           congruence.
      * apply (IH (length s)); [subst n; simpl; lia | reflexivity |].
        intros j. apply (Hq (S j)).
Qed.

End OneSubstitution.

(** The two substitutions of the scripts: [re.sub] with a literal pattern
    and [str.replace]. *)
Lemma sub_lit_absent (eqv_w eqv_s : ascii -> ascii -> bool) (p r q s : text) :
  p <> [] -> q <> [] -> clash eqv_w q r = true ->
  (forall j, starts_by eqv_w q (skipn j s) = true ->
             starts_by eqv_s p (skipn j s) = true) ->
  occurs_by eqv_w q (sub (lit_by eqv_s p) (fun _ => r) None s) = false.
Proof.
  intros Hp Hq Hc. apply (scan_absent eqv_w eqv_s p r q); auto.
  - apply sub_lit_nil, Hp.
  - intros c s0. apply sub_lit_cons, Hp.
Qed.

Lemma replace_nil (old new : text) : replace old new [] = [].
Proof. reflexivity. Qed.

Lemma replace_absent (eqv_w : ascii -> ascii -> bool) (old new q s : text) :
  old <> [] -> q <> [] -> clash eqv_w q new = true ->
  (forall j, starts_by eqv_w q (skipn j s) = true ->
             starts_by is_char old (skipn j s) = true) ->
  occurs_by eqv_w q (replace old new s) = false.
Proof.
  intros Hp Hq Hc. apply (scan_absent eqv_w is_char old new q); auto.
  - intros c s0. apply replace_cons, Hp.
Qed.

Section ManySubstitutions.

Variable eqv : ascii -> ascii -> bool.
Variable same : text -> text -> bool.
Variable step : text -> text -> text -> text.
Variable q : text.

Hypothesis step_absent : forall p r s,
    p <> [] -> clash eqv q r = true ->
    same q p = true \/ occurs_by eqv q s = false ->
    occurs_by eqv q (step p r s) = false.

Lemma settles_absent_from :
  forall steps ok s,
    Forall (fun st => fst st <> []) steps ->
    (ok = true -> occurs_by eqv q s = false) ->
    fold_left
      (fun ok st => (ok || same q (fst st)) && clash eqv q (snd st)) steps ok
    = true ->
    occurs_by eqv q (run_steps step steps s) = false.
Proof.
  induction steps as [|[p r] steps IH]; intros ok s Hne Hok Hfold; simpl in *.
  - auto.
  - inversion Hne as [|? ? Hp Hrest]; subst. simpl in Hp.
    apply (IH ((ok || same q p) && clash eqv q r) (step p r s) Hrest);
      [|exact Hfold].
    intros Hstep. apply andb_true_iff in Hstep as [Hsame Hclash].
    apply step_absent; auto.
    apply orb_true_iff in Hsame as [Hk | Hs]; auto.
Qed.

Lemma settles_absent (steps : list (text * text)) (s : text) :
  Forall (fun st => fst st <> []) steps ->
  settles eqv same q steps = true ->
  occurs_by eqv q (run_steps step steps s) = false.
Proof.
  intros Hne Hs. apply (settles_absent_from steps false s Hne);
    [discriminate | exact Hs].
Qed.

End ManySubstitutions.

Lemma contains_occurs_by (p s : text) : contains p s = occurs_by is_char p s.
Proof.
  induction s as [|c s IH]; simpl; rewrite starts_with_by; [reflexivity|].
  rewrite IH. reflexivity.
Qed.

Lemma lower_char_of_is_char (a c : ascii) :
  is_char a c = true -> lower_char c = lower_char a.
Proof. unfold is_char. intros H. apply Ascii.eqb_eq in H. congruence. Qed.

(** An exact occurrence of [q] is a match of [p] in any letter case when
    [q] and [p] differ by case only. *)
Lemma starts_exact_ci (q p t : text) :
  lower q = lower p ->
  starts_by is_char q t = true -> starts_by is_char_ci p t = true.
Proof.
  revert p t. induction q as [|a q IH]; intros [|b p] t Hl H; simpl in *;
    try discriminate; auto.
  destruct t as [|c t]; [discriminate|].
  apply andb_true_iff in H as [Ha H]. inversion Hl as [[Hab Hl']].
  apply lower_char_of_is_char in Ha. unfold is_char_ci.
  rewrite Ha, Hab, Ascii.eqb_refl. simpl. eauto.
Qed.

Lemma sub_ci_absent (q p r s : text) :
  p <> [] -> clash is_char q r = true ->
  same_ci q p = true \/ occurs_by is_char q s = false ->
  occurs_by is_char q (FixSvgsProperly.sub_ci p r s) = false.
Proof.
  intros Hp Hc Hq. destruct q as [|a q'] eqn:Eq.
  - (* an empty literal cannot clash with a copy of anything non-empty *)
    destruct Hq as [Hs | Ho].
    + apply text_eqb_true in Hs. destruct p; [congruence | discriminate].
    + destruct s; discriminate.
  - rewrite <- Eq in *.
    apply (sub_lit_absent is_char is_char_ci p r q s); auto; [congruence|].
    intros j Hj. destruct Hq as [Hs | Ho].
    + apply text_eqb_true in Hs. eapply starts_exact_ci; eauto.
    + rewrite occurs_by_false in Ho. rewrite Ho in Hj. discriminate.
Qed.

Lemma replace_step_absent (q p r s : text) :
  p <> [] -> clash is_char q r = true ->
  text_eqb q p = true \/ occurs_by is_char q s = false ->
  occurs_by is_char q (replace p r s) = false.
Proof.
  intros Hp Hc Hq. destruct q as [|a q'] eqn:Eq.
  - destruct Hq as [Hs | Ho].
    + apply text_eqb_true in Hs. congruence.
    + destruct s; discriminate.
  - rewrite <- Eq in *.
    apply (replace_absent is_char p r q s); auto; [congruence|].
    intros j Hj. destruct Hq as [Hs | Ho].
    + apply text_eqb_true in Hs. subst p. exact Hj.
    + rewrite occurs_by_false in Ho. rewrite Ho in Hj. discriminate.
Qed.

(** The three colour loops are runs of their steps. *)
Lemma fold_left_flat_map {A B C : Type} (f : A -> C -> A) (g : B -> list C)
  (l : list B) (a : A) :
  fold_left f (flat_map g l) a = fold_left (fun a x => fold_left f (g x) a) l a.
Proof.
  revert a. induction l as [|x l IH]; intros a; simpl; [reflexivity|].
  rewrite fold_left_app. apply IH.
Qed.

Lemma fold_left_same {A B : Type} (f g : A -> B -> A) (l : list B) (a : A) :
  (forall a x, f a x = g a x) -> fold_left f l a = fold_left g l a.
Proof.
  intros Hfg. revert a. induction l as [|x l IH]; intros a; simpl;
    [reflexivity|]. rewrite Hfg. apply IH.
Qed.

Lemma properly_remap_steps (content : text) :
  FixSvgsProperly.remap_colors content
  = run_steps FixSvgsProperly.sub_ci properly_steps content.
Proof.
  unfold FixSvgsProperly.remap_colors, run_steps, properly_steps.
  rewrite fold_left_flat_map. apply fold_left_same. intros c [old new].
  reflexivity.
Qed.

Lemma fix_all_remap_steps (content : text) :
  FixAllSvgs.remap_colors content = run_steps replace fix_all_steps content.
Proof.
  unfold FixAllSvgs.remap_colors, run_steps, fix_all_steps.
  rewrite fold_left_flat_map. apply fold_left_same. intros c [old new].
  reflexivity.
Qed.

Lemma minimal_remap_steps (content : text) :
  MinimalSvgFix.remap_fills content = run_steps replace minimal_steps content.
Proof.
  unfold MinimalSvgFix.remap_fills, run_steps, minimal_steps.
  generalize MinimalSvgFix.fill_replacements. intros l. revert content.
  induction l as [|[old new] l IH]; intros content; simpl; [reflexivity|].
  apply IH.
Qed.

Lemma patterns_nonempty_spec (steps : list (text * text)) :
  patterns_nonempty steps = true -> Forall (fun st => fst st <> []) steps.
Proof.
  unfold patterns_nonempty. rewrite forallb_forall, List.Forall_forall.
  intros H st Hin. specialize (H st Hin). apply negb_true_iff in H.
  apply text_eqb_false in H. exact H.
Qed.

Lemma all_settled_spec (same : text -> text -> bool) (watch : list text)
  (steps : list (text * text)) (q : text) :
  all_settled same watch steps = true -> In q watch ->
  settles is_char same q steps = true.
Proof.
  unfold all_settled. rewrite forallb_forall. auto.
Qed.

(** ** Remapped colours *)

(** C3, as the code has it.  For every pair (old, new) of the table:
    - fix_svgs_properly.py: the text that leaves the colour loop has no
      [fill=`old`] and no [stroke=`old`] spelled as in the table;
    - fix_all_svgs.py: the text that leaves the colour loop has none
      spelled as in the table and none in lower case;
    - minimal_svg_fix.py: the text that leaves the [replace] calls has no
      [fill=`old`]; [stroke] is not remapped by this script. *)
Theorem C3_remapped_colours_are_gone :
  (forall content old new,
      In (old, new) FixSvgsProperly.color_replacements ->
      contains (fill_attr old) (FixSvgsProperly.remap_colors content) = false
      /\ contains (stroke_attr old) (FixSvgsProperly.remap_colors content) = false)
  /\ (forall content old new,
         In (old, new) FixAllSvgs.color_map ->
         contains (fill_attr old) (FixAllSvgs.remap_colors content) = false
         /\ contains (stroke_attr old) (FixAllSvgs.remap_colors content) = false
         /\ contains (fill_attr (lower old)) (FixAllSvgs.remap_colors content) = false
         /\ contains (stroke_attr (lower old)) (FixAllSvgs.remap_colors content) = false)
  /\ (forall content old new,
         In (old, new) MinimalSvgFix.fill_replacements ->
         contains (fill_attr old) (MinimalSvgFix.remap_fills content) = false).
Proof.
  refine (conj _ (conj _ _)).
  - intros content old new Hin.
    assert (Hne : Forall (fun st => fst st <> []) properly_steps)
      by (apply patterns_nonempty_spec; vm_compute; reflexivity).
    assert (Hall : all_settled same_ci
                     (flat_map (fun e => [fill_attr (fst e); stroke_attr (fst e)])
                               FixSvgsProperly.color_replacements)
                     properly_steps = true) by (vm_compute; reflexivity).
    rewrite !contains_occurs_by, properly_remap_steps.
    split; apply (settles_absent is_char same_ci); auto using sub_ci_absent;
      apply (all_settled_spec _ _ _ _ Hall), in_flat_map;
      exists (old, new); (split; [exact Hin | simpl; auto]).
  - intros content old new Hin.
    assert (Hne : Forall (fun st => fst st <> []) fix_all_steps)
      by (apply patterns_nonempty_spec; vm_compute; reflexivity).
    assert (Hall : all_settled text_eqb
                     (flat_map (fun e => [fill_attr (fst e); stroke_attr (fst e);
                                          fill_attr (lower (fst e));
                                          stroke_attr (lower (fst e))])
                               FixAllSvgs.color_map)
                     fix_all_steps = true) by (vm_compute; reflexivity).
    rewrite !contains_occurs_by, fix_all_remap_steps.
    repeat split; apply (settles_absent is_char text_eqb);
      auto using replace_step_absent;
      apply (all_settled_spec _ _ _ _ Hall), in_flat_map;
      exists (old, new); (split; [exact Hin | simpl; auto]).
  - intros content old new Hin.
    assert (Hne : Forall (fun st => fst st <> []) minimal_steps)
      by (apply patterns_nonempty_spec; vm_compute; reflexivity).
    assert (Hall : all_settled text_eqb
                     (map (fun e => fill_attr (fst e)) MinimalSvgFix.fill_replacements)
                     minimal_steps = true) by (vm_compute; reflexivity).
    rewrite contains_occurs_by, minimal_remap_steps.
    apply (settles_absent is_char text_eqb); auto using replace_step_absent.
    apply (all_settled_spec _ _ _ _ Hall), in_map_iff.
    exists (old, new). split; [reflexivity | exact Hin].
Qed.

(** C3 at the first pair of each table. *)
Lemma C3_remapped_colours_are_gone_witness :
  contains (fill_attr (txt "#CBD5E0"))
    (FixSvgsProperly.remap_colors (txt "<text fill=`#CBD5E0`>a</text>")) = false
  /\ contains (stroke_attr (txt "#63B3ED"))
       (FixAllSvgs.remap_colors (txt "<path stroke=`#63B3ED`/>")) = false
  /\ contains (fill_attr (txt "#CBD5E0"))
       (MinimalSvgFix.remap_fills (txt "<text fill=`#CBD5E0`>a</text>")) = false.
Proof.
  destruct C3_remapped_colours_are_gone as (H1 & H2 & H3).
  refine (conj _ (conj _ _)).
  - exact (proj1 (H1 (txt "<text fill=`#CBD5E0`>a</text>") (txt "#CBD5E0")
                     (txt "#1F2937") (or_introl eq_refl))).
  - exact (proj1 (proj2 (H2 (txt "<path stroke=`#63B3ED`/>") (txt "#63B3ED")
                            (txt "#2563EB") (or_introl eq_refl)))).
  - exact (H3 (txt "<text fill=`#CBD5E0`>a</text>") (txt "#CBD5E0")
              (txt "#1F2937") (or_introl eq_refl)).
Defined.

(** The claim as worded fails in three ways: minimal_svg_fix.py leaves
    [stroke=`old`] as it is; fix_svgs_properly.py, which matches in any
    letter case, can put the capital F of a new colour in front of
    [ill=`old`]; and its later removal of white rects can join the two
    halves of a [fill=`old`]. *)
Lemma C3_counterexample :
  In (txt "#CBD5E0", txt "#1F2937") MinimalSvgFix.fill_replacements
  /\ MinimalSvgFix.fix_content (txt "<path stroke=`#CBD5E0`/>")
     = txt "<path stroke=`#CBD5E0`/>"
  /\ In (txt "#CBD5E0", txt "#1F2937") FixSvgsProperly.color_replacements
  /\ FixSvgsProperly.fix_svg_content
       (txt "<!-- fill:#90CDF4ill=`#CBD5E0` -->") []
     = Some (txt "<!-- fill:#1E40AFill=`#CBD5E0` -->")
  /\ FixSvgsProperly.fix_svg_content
       (txt "<!-- fill=`#CBD<rect fill=`white`/>5E0` -->") []
     = Some (txt "<!-- fill=`#CBD5E0` -->").
Proof.
  repeat split; try (vm_compute; reflexivity).
  - left. reflexivity.
  - left. reflexivity.
Qed.

(** ** Decimal numbers *)

Lemma string_of_uint_digits (d : Decimal.uint) :
  forallb is_digit (list_ascii_of_string (NilEmpty.string_of_uint d)) = true.
Proof. induction d; simpl; auto. Qed.

Lemma str_of_N_digits (n : N) : forallb is_digit (str_of_N n) = true.
Proof. apply string_of_uint_digits. Qed.

Lemma int_of_str_of_N (n : N) : int_of_text (str_of_N n) = n.
Proof.
  unfold int_of_text, str_of_N. rewrite string_of_list_ascii_of_string.
  rewrite NilEmpty.usu. apply DecimalN.Unsigned.of_to.
Qed.

Lemma str_of_N_nonempty (n : N) : str_of_N n <> [].
Proof.
  unfold str_of_N. destruct n as [|p]; [discriminate|].
  intros H. simpl in H.
  pose proof (DecimalPos.Unsigned.to_uint_nonnil p) as Hp.
  destruct (Pos.to_uint p); simpl in H; congruence.
Qed.

(** Two runs of digits closed by the same quote are the same run. *)
Lemma digits_until_quote (a b x y : text) :
  forallb is_digit a = true -> forallb is_digit b = true ->
  a ++ dq :: x = b ++ dq :: y -> a = b.
Proof.
  revert b. induction a as [|c a IH]; intros [|d b] Ha Hb H; simpl in *;
    auto; inversion H; subst.
  - apply andb_true_iff in Hb as [Hd _]. vm_compute in Hd. discriminate.
  - apply andb_true_iff in Ha as [Hc _]. vm_compute in Hc. discriminate.
  - apply andb_true_iff in Ha as [_ Ha]. apply andb_true_iff in Hb as [_ Hb].
    f_equal. eauto.
Qed.

(** ** Patterns with one bracketed group *)

Lemma lit_is_lit_by (s : text) : lit s = lit_by is_char s.
Proof. reflexivity. Qed.

Lemma starts_by_is_char (p s : text) :
  starts_by is_char p s = true <-> exists t, s = p ++ t.
Proof. rewrite <- starts_with_by. apply starts_with_spec. Qed.

Lemma starts_by_skipn (p s : text) :
  starts_by is_char p s = true -> s = p ++ skipn (length p) s.
Proof.
  intros H. apply starts_by_is_char in H as [t ->].
  rewrite skipn_app, skipn_all, Nat.sub_diag. reflexivity.
Qed.

Lemma forallb_firstn_skipn {A : Type} (l : list A) (j : nat) :
  l = firstn j l ++ skipn j l.
Proof. symmetry. apply firstn_skipn. Qed.

Section Bracketed.

(** The pattern [L(P{lo,})stop R]: a literal, a group holding a greedy run
    of the class [P], and a literal that begins with a character outside
    [P]. *)
Variables (L R : text) (P : ascii -> bool) (lo : nat) (stop : ascii).
Hypothesis stop_outside : P stop = false.

Abbreviation bracketed := (Re.bracketed L R P lo stop).

Lemma bracketed_sound (s : text) (m : mobj) (rest : text) :
  match_at bracketed s = Some (m, rest) ->
  exists u, s = L ++ u ++ stop :: R ++ rest
            /\ forallb P u = true /\ lo <= length u
            /\ whole m = L ++ u ++ stop :: R /\ group m 1 = u.
Proof.
  intros Hm. pose proof (match_at_whole _ _ _ _ Hm) as Hs.
  unfold match_at, Re.bracketed in Hm.
  rewrite lit_is_lit_by, rmatch_lit in Hm.
  destruct (starts_by is_char L s) eqn:EL; [|discriminate].
  apply starts_by_skipn in EL. set (s1 := skipn (length L) s) in *.
  cbn [app rmatch] in Hm.
  destruct (backoff _ lo (run P s1)) as [[rest' cs]|] eqn:Eb; [|discriminate].
  apply backoff_sound in Eb as (j & Hj & Hk).
  change (Close 1 :: lit (stop :: R)) with ([Close 1] ++ lit (stop :: R)) in Hk.
  cbn [app rmatch] in Hk.
  rewrite <- (app_nil_r (lit (stop :: R))), lit_is_lit_by, rmatch_lit in Hk.
  destruct (starts_by is_char (stop :: R) (skipn j s1)) eqn:ER; [|discriminate].
  apply starts_by_skipn in ER. cbn [rmatch] in Hk.
  inversion Hk; subst rest' cs; clear Hk.
  inversion Hm; subst m; clear Hm. cbn [whole caps] in *.
  set (u := firstn j s1).
  assert (Hs1 : s1 = u ++ stop :: R ++ rest).
  { rewrite (forallb_firstn_skipn s1 j) at 1. fold u. f_equal.
    rewrite ER at 1. simpl. rewrite H1. reflexivity. }
  pose proof (run_le P s1) as Hrun.
  assert (Hlu : length u = j) by (unfold u; rewrite length_firstn; lia).
  exists u. rewrite H1. split; [rewrite EL at 1; rewrite Hs1 at 1; reflexivity|].
  split; [apply run_all; lia|]. split; [lia|]. split.
  - assert (Hfull : s = (L ++ u ++ stop :: R) ++ rest)
      by (rewrite EL at 1; rewrite Hs1 at 1; rewrite <- !app_assoc; reflexivity).
    rewrite Hfull at 2. rewrite Hfull at 1. rewrite length_app.
    replace (length (L ++ u ++ stop :: R) + length rest - length rest)
      with (length (L ++ u ++ stop :: R)) by lia.
    rewrite firstn_app, firstn_all, Nat.sub_diag. simpl. apply app_nil_r.
  - unfold group, capture, mark. simpl. rewrite length_skipn.
    replace (length s1 - (length s1 - j)) with j by lia. reflexivity.
Qed.

Lemma bracketed_complete (u rest : text) :
  forallb P u = true -> lo <= length u ->
  exists m, match_at bracketed (L ++ u ++ stop :: R ++ rest) = Some (m, rest).
Proof.
  intros Hu Hlo. unfold match_at, Re.bracketed.
  rewrite lit_is_lit_by, rmatch_lit.
  assert (HL : starts_by is_char L (L ++ u ++ stop :: R ++ rest) = true)
    by (apply starts_by_is_char; eauto).
  rewrite HL, skipn_app, skipn_all, Nat.sub_diag. cbn [app rmatch].
  rewrite !skipn_O.
  rewrite (run_app_stop P u stop (R ++ rest) Hu stop_outside).
  match goal with
  | |- context [backoff ?k lo (length u)] =>
      assert (Hk : exists cs, k (length u) = Some (rest, cs))
  end.
  { rewrite skipn_app, skipn_all, Nat.sub_diag, skipn_O. cbn [app].
    change (lit (stop :: R)) with (lit_by is_char (stop :: R)).
    rewrite <- (app_nil_r (lit_by is_char (stop :: R))), rmatch_lit.
    assert (HR : starts_by is_char (stop :: R) (stop :: R ++ rest) = true)
      by (apply starts_by_is_char; exists rest; reflexivity).
    rewrite HR. cbn [rmatch]. eexists. f_equal. f_equal.
    change (stop :: R ++ rest) with ((stop :: R) ++ rest).
    rewrite skipn_app, skipn_all, Nat.sub_diag. reflexivity. }
  destruct Hk as [cs Hk].
  rewrite (backoff_first _ lo (length u) (rest, cs) Hlo Hk).
  eexists. reflexivity.
Qed.

End Bracketed.

(** ** The font-size pass *)

Abbreviation fs_open := (txt "font-size=`").

Lemma re_font_size_bracketed :
  FixSvgsProperly.re_font_size = Re.bracketed fs_open [] is_digit 1 dq.
Proof. reflexivity. Qed.

Lemma font_match_sound (s : text) (m : mobj) (rest : text) :
  match_at FixSvgsProperly.re_font_size s = Some (m, rest) ->
  exists ds, s = fs_open ++ ds ++ dq :: rest
             /\ forallb is_digit ds = true /\ ds <> []
             /\ whole m = fs_open ++ ds ++ [dq] /\ group m 1 = ds.
Proof.
  rewrite re_font_size_bracketed. intros H.
  apply (bracketed_sound fs_open [] is_digit 1 dq) in H
    as (u & Hs & Hu & Hlo & Hw & Hg).
  exists u. repeat split; auto. destruct u; [simpl in Hlo; lia | discriminate].
Qed.

Lemma font_match_complete (ds rest : text) :
  forallb is_digit ds = true -> ds <> [] ->
  match_at FixSvgsProperly.re_font_size (fs_open ++ ds ++ dq :: rest) <> None.
Proof.
  intros Hd Hne. rewrite re_font_size_bracketed.
  destruct (bracketed_complete fs_open [] is_digit 1 dq eq_refl ds rest Hd)
    as [m Hm].
  - destruct ds; [congruence | simpl; lia].
  - change (fs_open ++ ds ++ dq :: [] ++ rest)
      with (fs_open ++ ds ++ dq :: rest) in Hm.
    rewrite Hm. discriminate.
Qed.

Section FontPass.

(** A callback that answers every match [font-size=`ds`] with an attribute
    [font-size=`ds'`] whose value satisfies [ok]. *)
Variable cb : mobj -> text.
Variable ok : N -> Prop.

Hypothesis cb_spec : forall m ds,
    whole m = fs_open ++ ds ++ [dq] -> group m 1 = ds ->
    forallb is_digit ds = true -> ds <> [] ->
    exists ds', cb m = fs_open ++ ds' ++ [dq]
                /\ forallb is_digit ds' = true /\ ds' <> []
                /\ ok (int_of_text ds').

Abbreviation font_pass := (sub FixSvgsProperly.re_font_size cb None).

Lemma font_pass_nil : font_pass [] = [].
Proof. apply sub_nil_none. reflexivity. Qed.

Lemma font_pass_some (s : text) (m : mobj) (rest : text) :
  match_at FixSvgsProperly.re_font_size s = Some (m, rest) ->
  font_pass s = cb m ++ font_pass rest.
Proof.
  intros H. apply sub_cons_some; [exact H|].
  apply font_match_sound in H as (ds & _ & _ & _ & Hw & _).
  rewrite Hw. discriminate.
Qed.

Lemma no_f_in_tail (ds : text) :
  forallb is_digit ds = true ->
  Forall (fun c => c <> "f"%char) (txt "ont-size=`" ++ ds ++ [dq]).
Proof.
  intros Hd. apply Forall_app. split.
  - vm_compute. repeat constructor; discriminate.
  - apply Forall_app. split.
    + apply List.Forall_forall. intros c Hc.
      rewrite forallb_forall in Hd. specialize (Hd c Hc).
      intros ->. vm_compute in Hd. discriminate.
    + repeat constructor. vm_compute. discriminate.
Qed.

(** Text of the output that holds no [f] was copied from the input. *)
Lemma font_pass_copied :
  forall w s t,
    Forall (fun c => c <> "f"%char) w ->
    font_pass s = w ++ t -> exists s2, s = w ++ s2.
Proof.
  induction w as [|a w IH]; intros s t Hw H.
  - exists s. reflexivity.
  - inversion Hw as [|? ? Ha Hw']; subst. destruct s as [|c s].
    + rewrite font_pass_nil in H. discriminate.
    + destruct (match_at FixSvgsProperly.re_font_size (c :: s))
        as [[m rest]|] eqn:E.
      * rewrite (font_pass_some _ _ _ E) in H.
        pose proof E as E'. apply font_match_sound in E' as (ds & _ & Hd & Hne & Hwh & Hg).
        destruct (cb_spec m ds Hwh Hg Hd Hne) as (ds' & Hcb & _).
        rewrite Hcb in H. simpl in H. inversion H. congruence.
      * rewrite (sub_cons_none _ _ _ _ E) in H. simpl in H.
        inversion H; subst. destruct (IH _ _ Hw' H2) as [s2 ->].
        exists s2. reflexivity.
Qed.

Lemma font_pass_at :
  forall s j ds post,
    skipn j (font_pass s) = fs_open ++ ds ++ dq :: post ->
    forallb is_digit ds = true -> ds <> [] ->
    ok (int_of_text ds).
Proof.
  intros s. remember (length s) as n eqn:Hn. revert s Hn.
  induction n as [n IH] using lt_wf_ind. intros s Hn j ds post Hj Hd Hne.
  destruct s as [|c s].
  - rewrite font_pass_nil in Hj. destruct j; discriminate.
  - destruct (match_at FixSvgsProperly.re_font_size (c :: s))
      as [[m rest]|] eqn:E.
    + rewrite (font_pass_some _ _ _ E) in Hj.
      pose proof E as E'.
      apply font_match_sound in E' as (ds0 & Hs & Hd0 & Hne0 & Hwh & Hg).
      destruct (cb_spec m ds0 Hwh Hg Hd0 Hne0) as (ds' & Hcb & Hd' & Hne' & Hmin).
      rewrite Hcb in Hj.
      destruct (Nat.lt_ge_cases j (length (fs_open ++ ds' ++ [dq]))) as [Hlt|Hge].
      * destruct j as [|j].
        -- rewrite skipn_O, <- !app_assoc in Hj. apply app_inv_head in Hj.
           apply (digits_until_quote ds' ds (font_pass rest) post) in Hj; auto.
           subst ds'. exact Hmin.
        -- exfalso. rewrite skipn_app in Hj.
           pose proof (no_f_in_tail ds' Hd') as Hnf.
           assert (HR : fs_open ++ ds' ++ [dq]
                        = "f"%char :: (txt "ont-size=`" ++ ds' ++ [dq]))
             by reflexivity.
           rewrite HR in Hj, Hlt. rewrite skipn_cons in Hj.
           set (R' := txt "ont-size=`" ++ ds' ++ [dq]) in *.
           destruct (skipn j R') as [|x tl0] eqn:Ek.
           ++ apply (f_equal (@length _)) in Ek. rewrite length_skipn in Ek.
              simpl in Ek, Hlt. lia.
           ++ assert (Hx : x = "f"%char).
              { apply (f_equal (fun l => hd x l)) in Hj. exact Hj. }
              assert (Hin : In "f"%char R').
              { rewrite <- (firstn_skipn j R'), Ek, <- Hx.
                apply in_or_app. right. left. reflexivity. }
              rewrite List.Forall_forall in Hnf. apply (Hnf _ Hin). reflexivity.
      * rewrite skipn_app, skipn_all2 in Hj by lia. simpl in Hj.
        apply (IH (length rest)) with (s := rest) in Hj; auto.
        subst n. rewrite Hs. rewrite !length_app. simpl. lia.
    + rewrite (sub_cons_none _ _ _ _ E) in Hj. destruct j as [|j].
      * exfalso. simpl in Hj. inversion Hj as [[Hc Hrest]].
        destruct (font_pass_copied (txt "ont-size=`" ++ ds ++ [dq]) s post)
          as [s2 Hs2].
        -- apply no_f_in_tail, Hd.
        -- rewrite Hrest. rewrite <- !app_assoc. reflexivity.
        -- apply (font_match_complete ds s2 Hd Hne).
           rewrite <- E. f_equal. rewrite Hs2, Hc. rewrite <- !app_assoc.
           reflexivity.
      * simpl in Hj. apply (IH (length s)) with (s := s) in Hj; auto.
        subst n. simpl. lia.
Qed.

Lemma font_pass_satisfies (s : text) : font_sizes_satisfy ok (font_pass s).
Proof.
  intros ds (Hne & Hd & pre & post & Hout).
  apply (font_pass_at s (length pre) ds post); auto.
  rewrite Hout, skipn_app, skipn_all, Nat.sub_diag. reflexivity.
Qed.

End FontPass.

Lemma properly_new_font_size_min (n : N) :
  (16 <= FixSvgsProperly.new_font_size n)%N.
Proof.
  unfold FixSvgsProperly.new_font_size.
  repeat match goal with
         | |- context [(?a <? ?b)%N] => destruct (N.ltb_spec a b)
         end; lia.
Qed.

Lemma minimal_new_font_size_min (n : N) :
  (16 <= MinimalSvgFix.new_font_size n)%N.
Proof.
  unfold MinimalSvgFix.new_font_size.
  destruct (N.leb_spec n 11); [lia|].
  destruct (N.eqb_spec n 12); [lia|].
  destruct (N.leb_spec n 14); lia.
Qed.

Lemma properly_callback_spec (m : mobj) (ds : text) :
  whole m = fs_open ++ ds ++ [dq] -> group m 1 = ds ->
  forallb is_digit ds = true -> ds <> [] ->
  exists ds', FixSvgsProperly.increase_font_size m = fs_open ++ ds' ++ [dq]
              /\ forallb is_digit ds' = true /\ ds' <> []
              /\ (16 <= int_of_text ds')%N.
Proof.
  intros _ Hg _ _. unfold FixSvgsProperly.increase_font_size,
    FixSvgsProperly.font_size_attr.
  eexists. split; [reflexivity|].
  split; [apply str_of_N_digits|]. split; [apply str_of_N_nonempty|].
  rewrite int_of_str_of_N. apply properly_new_font_size_min.
Qed.

Lemma minimal_callback_spec (m : mobj) (ds : text) :
  whole m = fs_open ++ ds ++ [dq] -> group m 1 = ds ->
  forallb is_digit ds = true -> ds <> [] ->
  exists ds', MinimalSvgFix.fix_font_size m = fs_open ++ ds' ++ [dq]
              /\ forallb is_digit ds' = true /\ ds' <> []
              /\ (16 <= int_of_text ds')%N.
Proof.
  intros _ Hg _ _. unfold MinimalSvgFix.fix_font_size.
  eexists. split; [reflexivity|].
  split; [apply str_of_N_digits|]. split; [apply str_of_N_nonempty|].
  rewrite int_of_str_of_N. apply minimal_new_font_size_min.
Qed.

Lemma safe_callback_spec (m : mobj) (ds : text) :
  whole m = fs_open ++ ds ++ [dq] -> group m 1 = ds ->
  forallb is_digit ds = true -> ds <> [] ->
  exists ds', SafeSvgImprove.increase_font_size m = fs_open ++ ds' ++ [dq]
              /\ forallb is_digit ds' = true /\ ds' <> []
              /\ (14 <= int_of_text ds')%N.
Proof.
  intros Hw Hg Hd Hne. unfold SafeSvgImprove.increase_font_size.
  rewrite Hg. destruct (N.ltb_spec (int_of_text ds) 12) as [Hlt|Hge].
  - exists (str_of_N 14). repeat split; try reflexivity. discriminate.
  - destruct (N.eqb_spec (int_of_text ds) 12) as [H12|H12];
      [|destruct (N.eqb_spec (int_of_text ds) 13) as [H13|H13]]; simpl.
    + exists (str_of_N 14). repeat split; try reflexivity. discriminate.
    + exists (str_of_N 14). repeat split; try reflexivity. discriminate.
    + exists ds. unfold group. rewrite Hw. repeat split; auto. lia.
Qed.

Lemma fix_all_callback_spec (m : mobj) (ds : text) :
  whole m = fs_open ++ ds ++ [dq] -> group m 1 = ds ->
  forallb is_digit ds = true -> ds <> [] ->
  exists ds', FixAllSvgs.fix_font_size m = fs_open ++ ds' ++ [dq]
              /\ forallb is_digit ds' = true /\ ds' <> []
              /\ (14 <= int_of_text ds' <= 24)%N.
Proof.
  intros Hw Hg Hd Hne. unfold FixAllSvgs.fix_font_size. rewrite Hg.
  destruct (N.ltb_spec (int_of_text ds) 12) as [Hlt|Hge].
  - exists (str_of_N 14). repeat split; try reflexivity; vm_compute; discriminate.
  - destruct (N.ltb_spec (int_of_text ds) 14) as [H14|H14].
    + exists (str_of_N 14). repeat split; try reflexivity; vm_compute; discriminate.
    + destruct (N.ltb_spec 24 (int_of_text ds)) as [H24|H24].
      * exists (str_of_N 24). repeat split; try reflexivity; vm_compute; discriminate.
      * exists ds. unfold group. rewrite Hw. repeat split; auto; lia.
Qed.

Lemma beautify_callback_spec (m : mobj) (ds : text) :
  whole m = fs_open ++ ds ++ [dq] -> group m 1 = ds ->
  forallb is_digit ds = true -> ds <> [] ->
  exists ds', BeautifyAllSvgs.update_font_size m = fs_open ++ ds' ++ [dq]
              /\ forallb is_digit ds' = true /\ ds' <> []
              /\ In (int_of_text ds') [12; 14; 16; 18; 24]%N.
Proof.
  intros Hw Hg Hd Hne. unfold BeautifyAllSvgs.update_font_size.
  repeat match goal with
         | |- context [(?a <=? ?b)%N] => destruct (N.leb_spec a b)
         end;
    eexists; (split; [reflexivity|]); (split; [reflexivity|]);
    (split; [discriminate|]); vm_compute; tauto.
Qed.

(** ** Font sizes after the font-size pass *)

(** X1: the text that leaves the font-size pass of a script (its [re.sub]
    over [font-size=`N`]) holds no [font-size=`M`] attribute with [M] below
    the script's minimum: 16 for fix_svgs_properly.py and
    minimal_svg_fix.py, 14 for safe_svg_improve.py. *)
Theorem font_pass_minimum :
  forall content : text,
    font_sizes_at_least 16
      (sub FixSvgsProperly.re_font_size FixSvgsProperly.increase_font_size
           None content)
    /\ font_sizes_at_least 16
         (sub MinimalSvgFix.re_font_size MinimalSvgFix.fix_font_size
              None content)
    /\ font_sizes_at_least 14
         (sub SafeSvgImprove.re_font_size SafeSvgImprove.increase_font_size
              None content).
Proof.
  intros content. refine (conj _ (conj _ _)).
  - apply (font_pass_satisfies FixSvgsProperly.increase_font_size
             (fun n => (16 <= n)%N)), properly_callback_spec.
  - apply (font_pass_satisfies MinimalSvgFix.fix_font_size
             (fun n => (16 <= n)%N)), minimal_callback_spec.
  - apply (font_pass_satisfies SafeSvgImprove.increase_font_size
             (fun n => (14 <= n)%N)), safe_callback_spec.
Qed.

(** X2: the text that leaves the font-size pass of fix_all_svgs.py holds
    only [font-size=`M`] attributes with [M] between 14 and 24. *)
Theorem fix_all_font_pass_clamps :
  forall main_content : text,
    font_sizes_satisfy (fun n => (14 <= n <= 24)%N)
      (sub FixAllSvgs.re_font_size FixAllSvgs.fix_font_size None
           main_content).
Proof.
  intros c. apply (font_pass_satisfies FixAllSvgs.fix_font_size).
  apply fix_all_callback_spec.
Qed.

(** X3: the text that leaves the first font-size pass of
    beautify_all_svgs.py holds only [font-size=`M`] attributes with [M] one
    of the sizes of [FONT_SIZES] in use: 12, 14, 16, 18 or 24. *)
Theorem beautify_font_pass_palette :
  forall content : text,
    font_sizes_satisfy (fun n => In n [12; 14; 16; 18; 24]%N)
      (sub BeautifyAllSvgs.re_font_size BeautifyAllSvgs.update_font_size None
           content).
Proof.
  intros c. apply (font_pass_satisfies BeautifyAllSvgs.update_font_size).
  apply beautify_callback_spec.
Qed.

(** X1 at a text with a size of 9: the attribute that comes out is 16. *)
Lemma font_pass_minimum_witness :
  let out := sub FixSvgsProperly.re_font_size
                 FixSvgsProperly.increase_font_size None
                 (txt "<text font-size=`9`>a</text>") in
  has_font_size out (txt "16") /\ (16 <= int_of_text (txt "16"))%N.
Proof.
  intros out.
  assert (H : has_font_size out (txt "16")).
  { split; [discriminate|]. split; [reflexivity|].
    exists (txt "<text "), (txt ">a</text>"). vm_compute. reflexivity. }
  split; [exact H|].
  exact (proj1 (font_pass_minimum (txt "<text font-size=`9`>a</text>"))
               (txt "16") H).
Defined.

(** X2 at a text with a size of 40: the attribute that comes out is 24. *)
Lemma fix_all_font_pass_clamps_witness :
  let out := sub FixAllSvgs.re_font_size FixAllSvgs.fix_font_size None
                 (txt "<text font-size=`40`>a</text>") in
  has_font_size out (txt "24") /\ (14 <= int_of_text (txt "24") <= 24)%N.
Proof.
  intros out.
  assert (H : has_font_size out (txt "24")).
  { split; [discriminate|]. split; [reflexivity|].
    exists (txt "<text "), (txt ">a</text>"). vm_compute. reflexivity. }
  split; [exact H|].
  exact (fix_all_font_pass_clamps (txt "<text font-size=`40`>a</text>")
           (txt "24") H).
Defined.

(** X3 at a text with a size of 13: the attribute that comes out is 14. *)
Lemma beautify_font_pass_palette_witness :
  let out := sub BeautifyAllSvgs.re_font_size BeautifyAllSvgs.update_font_size
                 None (txt "<text font-size=`13`>a</text>") in
  has_font_size out (txt "14")
  /\ In (int_of_text (txt "14")) [12; 14; 16; 18; 24]%N.
Proof.
  intros out.
  assert (H : has_font_size out (txt "14")).
  { split; [discriminate|]. split; [reflexivity|].
    exists (txt "<text "), (txt ">a</text>"). vm_compute. reflexivity. }
  split; [exact H|].
  exact (beautify_font_pass_palette (txt "<text font-size=`13`>a</text>")
           (txt "14") H).
Defined.

(** ** The colour loops, script by script *)

Lemma settled_in_run (same : text -> text -> bool)
  (step : text -> text -> text -> text) (watch : list text)
  (steps : list (text * text)) :
  (forall q p r s,
      p <> [] -> clash is_char q r = true ->
      same q p = true \/ occurs_by is_char q s = false ->
      occurs_by is_char q (step p r s) = false) ->
  patterns_nonempty steps = true ->
  all_settled same watch steps = true ->
  forall q content,
    In q watch -> contains q (run_steps step steps content) = false.
Proof.
  intros Hstep Hne Hall q content Hin. rewrite contains_occurs_by.
  apply (settles_absent is_char same step q (Hstep q) steps content).
  - apply patterns_nonempty_spec, Hne.
  - apply (all_settled_spec same watch steps q Hall Hin).
Qed.

(** X4: for every pair (old, new) of [color_replacements], the text that
    leaves the colour loop of fix_svgs_properly.py has no [fill=`old`] and
    no [stroke=`old`] in the spelling of the table. *)
Theorem properly_colours_remapped :
  forall content old new,
    In (old, new) FixSvgsProperly.color_replacements ->
    contains (fill_attr old) (FixSvgsProperly.remap_colors content) = false
    /\ contains (stroke_attr old) (FixSvgsProperly.remap_colors content) = false.
Proof.
  intros content old new Hin. rewrite properly_remap_steps.
  assert (Hall : all_settled same_ci
                   (flat_map (fun e => [fill_attr (fst e); stroke_attr (fst e)])
                             FixSvgsProperly.color_replacements)
                   properly_steps = true) by (vm_compute; reflexivity).
  assert (Hne : patterns_nonempty properly_steps = true)
    by (vm_compute; reflexivity).
  split; apply (settled_in_run same_ci FixSvgsProperly.sub_ci _ _
                  sub_ci_absent Hne Hall);
    apply in_flat_map; exists (old, new); (split; [exact Hin|]);
    [left | right; left]; reflexivity.
Qed.

(** X5: for every pair (old, new) of [color_map], the text that leaves the
    colour loop of fix_all_svgs.py has no [fill=`old`] and no
    [stroke=`old`], neither in the spelling of the table nor in lower
    case. *)
Theorem fix_all_colours_remapped :
  forall main_content old new,
    In (old, new) FixAllSvgs.color_map ->
    contains (fill_attr old) (FixAllSvgs.remap_colors main_content) = false
    /\ contains (stroke_attr old) (FixAllSvgs.remap_colors main_content) = false
    /\ contains (fill_attr (lower old)) (FixAllSvgs.remap_colors main_content)
       = false
    /\ contains (stroke_attr (lower old)) (FixAllSvgs.remap_colors main_content)
       = false.
Proof.
  intros content old new Hin. rewrite fix_all_remap_steps.
  assert (Hall : all_settled text_eqb
                   (flat_map (fun e => [fill_attr (fst e); stroke_attr (fst e);
                                        fill_attr (lower (fst e));
                                        stroke_attr (lower (fst e))])
                             FixAllSvgs.color_map)
                   fix_all_steps = true) by (vm_compute; reflexivity).
  assert (Hne : patterns_nonempty fix_all_steps = true)
    by (vm_compute; reflexivity).
  refine (conj _ (conj _ (conj _ _)));
    apply (settled_in_run text_eqb replace _ _ replace_step_absent Hne Hall);
    apply in_flat_map; exists (old, new); (split; [exact Hin|]).
  - left. reflexivity.
  - right; left. reflexivity.
  - right; right; left. reflexivity.
  - right; right; right; left. reflexivity.
Qed.

(** X6: for every pair (old, new) of the [replace] calls of
    minimal_svg_fix.py, the text that leaves them has no [fill=`old`]. *)
Theorem minimal_fills_remapped :
  forall content old new,
    In (old, new) MinimalSvgFix.fill_replacements ->
    contains (fill_attr old) (MinimalSvgFix.remap_fills content) = false.
Proof.
  intros content old new Hin. rewrite minimal_remap_steps.
  assert (Hall : all_settled text_eqb
                   (map (fun e => fill_attr (fst e)) MinimalSvgFix.fill_replacements)
                   minimal_steps = true) by (vm_compute; reflexivity).
  assert (Hne : patterns_nonempty minimal_steps = true)
    by (vm_compute; reflexivity).
  apply (settled_in_run text_eqb replace _ _ replace_step_absent Hne Hall).
  apply in_map_iff. exists (old, new). split; [reflexivity | exact Hin].
Qed.

(** X4 at the first pair of the table. *)
Lemma properly_colours_remapped_witness :
  let content := txt "<rect fill=`#CBD5E0` stroke=`#CBD5E0`/>" in
  In (txt "#CBD5E0", txt "#1F2937") FixSvgsProperly.color_replacements
  /\ contains (fill_attr (txt "#CBD5E0")) (FixSvgsProperly.remap_colors content)
     = false.
Proof.
  intros content. split; [left; reflexivity|].
  exact (proj1 (properly_colours_remapped content (txt "#CBD5E0")
                  (txt "#1F2937") (or_introl eq_refl))).
Defined.

(** X5 at the first pair of the table, written in lower case in the
    text. *)
Lemma fix_all_colours_remapped_witness :
  let main_content := txt "<rect fill=`#63b3ed` stroke=`#63B3ED`/>" in
  In (txt "#63B3ED", txt "#2563EB") FixAllSvgs.color_map
  /\ contains (fill_attr (lower (txt "#63B3ED")))
              (FixAllSvgs.remap_colors main_content) = false.
Proof.
  intros main_content. split; [left; reflexivity|].
  exact (proj1 (proj2 (proj2 (fix_all_colours_remapped main_content
                  (txt "#63B3ED") (txt "#2563EB") (or_introl eq_refl))))).
Defined.

(** X6 at the first pair of the table. *)
Lemma minimal_fills_remapped_witness :
  let content := txt "<rect fill=`#CBD5E0`/>" in
  In (txt "#CBD5E0", txt "#1F2937") MinimalSvgFix.fill_replacements
  /\ contains (fill_attr (txt "#CBD5E0")) (MinimalSvgFix.remap_fills content)
     = false.
Proof.
  intros content. split; [left; reflexivity|].
  exact (minimal_fills_remapped content (txt "#CBD5E0") (txt "#1F2937")
           (or_introl eq_refl)).
Defined.

(** ** Counters and writes of the batch loops *)

(** A loop whose body never raises and extends a relation between
    accumulator and disk; the relation is indexed by the number of files
    handled. *)
Lemma for_each_related {A : Type} (body : path -> A -> M A)
  (R : nat -> A -> state -> A -> state -> Prop) :
  (forall a st, R 0 a st a st) ->
  (forall n m a1 s1 a2 s2 a3 s3,
      R n a1 s1 a2 s2 -> R m a2 s2 a3 s3 -> R (n + m) a1 s1 a3 s3) ->
  (forall x a st, exists a',
      snd (body x a st) = Ok a' /\ R 1 a st a' (fst (body x a st))) ->
  forall l a st, exists a',
      snd (for_each body l a st) = Ok a'
      /\ R (length l) a st a' (fst (for_each body l a st)).
Proof.
  intros Hrefl Htrans Hbody. induction l as [|x l IH]; intros a st; simpl.
  - exists a. split; [reflexivity | apply Hrefl].
  - unfold bind. destruct (Hbody x a st) as (a1 & H1 & HR1).
    destruct (body x a st) as [st1 [a1'|msg]]; simpl in *; inversion H1; subst.
    destruct (IH a1 st1) as (a2 & H2 & HR2).
    exists a2. split; [exact H2 |].
    change (S (length l)) with (1 + length l). eapply Htrans; eauto.
Qed.

(** [grown n st n' st']: from [st] to [st'] the log grew by exactly
    [n' - n] writes. *)
Lemma grown_refl (n : nat) (st : state) :
  exists new, writes st = writes st ++ new /\ n = n + length new.
Proof. exists []. rewrite app_nil_r. simpl. split; [reflexivity | lia]. Qed.

Lemma write_file_log (p : path) (c : text) (st : state) :
  (snd (write_file p c st) = Ok tt
   /\ writes (fst (write_file p c st)) = writes st ++ [(p, c)])
  \/ (exists msg, write_file p c st = (st, Raised msg)).
Proof.
  unfold write_file. destruct (write_fault st p) as [msg|]; simpl.
  - right. eauto.
  - left. split; reflexivity.
Qed.

Lemma properly_body_counts (x : path) (c : FixSvgsProperlyMain.counts)
  (st : state) :
  exists c',
    snd (FixSvgsProperlyMain.loop_body x c st) = Ok c'
    /\ exists new,
        writes (fst (FixSvgsProperlyMain.loop_body x c st)) = writes st ++ new
        /\ FixSvgsProperlyMain.fixed c'
           = FixSvgsProperlyMain.fixed c + length new.
Proof.
  unfold FixSvgsProperlyMain.loop_body, FixSvgsProperlyMain.fix_one,
    try_except, bind, ret, raise.
  pose proof (read_file_state x st) as Hr.
  destruct (read_file x st) as [st0 [content|msg]]; simpl in Hr; subst st0;
    simpl.
  - destruct (FixSvgsProperly.fix_svg_content content x) as [fixed_content|];
      simpl.
    + destruct (write_file_log x fixed_content st) as [[Hok Hlog] | [msg Hw]].
      * destruct (write_file x fixed_content st) as [st1 [[]|msg]];
          simpl in *; [|discriminate].
        eexists. split; [reflexivity|]. exists [(x, fixed_content)].
        simpl. split; [exact Hlog | lia].
      * rewrite Hw. simpl. eexists. split; [reflexivity|]. exists [].
        rewrite app_nil_r. simpl. split; [reflexivity | lia].
    + eexists. split; [reflexivity|]. exists []. rewrite app_nil_r. simpl.
      split; [reflexivity | lia].
  - eexists. split; [reflexivity|]. exists []. rewrite app_nil_r. simpl.
    split; [reflexivity | lia].
Qed.

Lemma attributes_body_counts (x : path) (s : FixSvgAttributesMain.stats)
  (st : state) :
  exists s',
    snd (FixSvgAttributesMain.loop_body x s st) = Ok s'
    /\ exists new,
        writes (fst (FixSvgAttributesMain.loop_body x s st)) = writes st ++ new
        /\ FixSvgAttributesMain.n_fixed s'
           = FixSvgAttributesMain.n_fixed s + length new.
Proof.
  unfold FixSvgAttributesMain.loop_body, FixSvgAttributesMain.fix_svg_file,
    try_except, bind, ret.
  pose proof (read_file_state x st) as Hr.
  destruct (read_file x st) as [st0 [content|msg]]; simpl in Hr; subst st0;
    simpl.
  - destruct (is_font_or_favicon x); simpl.
    + eexists. split; [reflexivity|]. exists []. rewrite app_nil_r. simpl.
      split; [reflexivity | lia].
    + destruct (negb (text_eqb (FixSvgAttributes.fix_malformed_attributes content)
                               content)); simpl.
      * destruct (write_file_log x
                    (FixSvgAttributes.fix_malformed_attributes content) st)
          as [[Hok Hlog] | [msg Hw]].
        -- destruct (write_file x _ st) as [st1 [[]|msg]];
             simpl in *; [|discriminate].
           eexists. split; [reflexivity|]. eexists [_].
           simpl. split; [exact Hlog | lia].
        -- rewrite Hw. simpl. eexists. split; [reflexivity|]. exists [].
           rewrite app_nil_r. simpl. split; [reflexivity | lia].
      * eexists. split; [reflexivity|]. exists []. rewrite app_nil_r. simpl.
        split; [reflexivity | lia].
  - eexists. split; [reflexivity|]. exists []. rewrite app_nil_r. simpl.
    split; [reflexivity | lia].
Qed.

Lemma minimal_body_counts (x : path) (n : nat) (st : state) :
  exists n',
    snd (MinimalSvgFixMain.loop_body x n st) = Ok n'
    /\ exists new,
        writes (fst (MinimalSvgFixMain.loop_body x n st)) = writes st ++ new
        /\ n' = n + length new.
Proof.
  unfold MinimalSvgFixMain.loop_body, MinimalSvgFixMain.minimal_fix_svg,
    try_except, bind, ret.
  pose proof (read_file_state x st) as Hr.
  destruct (read_file x st) as [st0 [content|msg]]; simpl in Hr; subst st0;
    simpl.
  - destruct (is_font_or_favicon x); simpl.
    + eexists. split; [reflexivity|]. exists []. rewrite app_nil_r. simpl.
      split; [reflexivity | lia].
    + destruct (write_file_log x (MinimalSvgFix.fix_content content) st)
        as [[Hok Hlog] | [msg Hw]].
      * destruct (write_file x _ st) as [st1 [[]|msg]];
          simpl in *; [|discriminate].
        eexists. split; [reflexivity|]. eexists [_].
        simpl. split; [exact Hlog | lia].
      * rewrite Hw. simpl. eexists. split; [reflexivity|]. exists [].
        rewrite app_nil_r. simpl. split; [reflexivity | lia].
  - eexists. split; [reflexivity|]. exists []. rewrite app_nil_r. simpl.
    split; [reflexivity | lia].
Qed.


(** What one call of [safe_improve_svg] does to the log: it never raises,
    and a call that reports success made one or two writes, the last of
    them to the file itself. *)
Lemma safe_improve_svg_log (x : path) (st : state) :
  exists ok m new,
    snd (SafeSvgImproveMain.safe_improve_svg x st) = Ok (ok, m)
    /\ writes (fst (SafeSvgImproveMain.safe_improve_svg x st))
       = writes st ++ new
    /\ length new <= 2
    /\ (ok = true -> 1 <= length new).
Proof.
  unfold SafeSvgImproveMain.safe_improve_svg, try_except, bind, ret,
    path_exists.
  pose proof (read_file_state x st) as Hr.
  destruct (read_file x st) as [st0 [content|msg]]; cbn [fst snd] in Hr;
    subst st0; cbn [fst snd].
  2: { exists false, (txt "Error: " ++ msg), [].
       rewrite app_nil_r. cbn [length]. auto with lia. }
  destruct (is_font_or_favicon x).
  { eexists false, _, []. rewrite app_nil_r. cbn [fst snd length].
    split; [reflexivity|]. auto with lia. }
  generalize (SafeSvgImprove.improve content). intros content'.
  destruct (negb (text_eqb content' content)).
  2: { eexists false, _, []. rewrite app_nil_r. cbn [fst snd length].
       split; [reflexivity|]. auto with lia. }
  destruct (bool_decide (is_Some (files st !! SafeSvgImproveMain.backup_of x)));
    cbn [negb].
  - destruct (write_file_log x content' st) as [[Hok Hlog] | [msg Hw]].
    + destruct (write_file x content' st) as [st1 [[]|msg]];
        cbn [fst snd] in *; [|discriminate].
      eexists true, _, [(x, content')].
      split; [reflexivity|]. split; [exact Hlog|]. cbn [length]. lia.
    + rewrite Hw. cbn [fst snd]. eexists false, _, [].
      rewrite app_nil_r. cbn [length]. split; [reflexivity|]. auto with lia.
  - destruct (write_file_log (SafeSvgImproveMain.backup_of x) content st)
      as [[Hok Hlog] | [msg Hw]].
    + destruct (write_file (SafeSvgImproveMain.backup_of x) content st)
        as [st1 [[]|msg]]; cbn [fst snd] in *; [|discriminate].
      destruct (write_file_log x content' st1) as [[Hok2 Hlog2] | [msg Hw]].
      * destruct (write_file x content' st1) as [st2 [[]|msg]];
          cbn [fst snd] in *; [|discriminate].
        eexists true, _,
          [(SafeSvgImproveMain.backup_of x, content); (x, content')].
        split; [reflexivity|]. rewrite Hlog2, Hlog, <- app_assoc.
        split; [reflexivity|]. cbn [length]. lia.
      * rewrite Hw. cbn [fst snd].
        eexists false, _, [(SafeSvgImproveMain.backup_of x, content)].
        split; [reflexivity|]. split; [exact Hlog|]. cbn [length].
        split; [lia | discriminate].
    + rewrite Hw. cbn [fst snd]. eexists false, _, [].
      rewrite app_nil_r. cbn [length]. split; [reflexivity|]. auto with lia.
Qed.

Lemma safe_body_counts (x : path) (c : SafeSvgImproveMain.counts) (st : state) :
  exists c',
    snd (SafeSvgImproveMain.loop_body x c st) = Ok c'
    /\ (SafeSvgImproveMain.improved c' + SafeSvgImproveMain.skipped c'
        + SafeSvgImproveMain.unchanged c' + SafeSvgImproveMain.errors c'
        = SafeSvgImproveMain.improved c + SafeSvgImproveMain.skipped c
          + SafeSvgImproveMain.unchanged c + SafeSvgImproveMain.errors c + 1)
    /\ exists new di,
        writes (fst (SafeSvgImproveMain.loop_body x c st)) = writes st ++ new
        /\ SafeSvgImproveMain.improved c' = SafeSvgImproveMain.improved c + di
        /\ di <= length new <= 2.
Proof.
  unfold SafeSvgImproveMain.loop_body, bind, ret.
  destruct (safe_improve_svg_log x st) as (ok & m & new & Hs & Hw & H2 & Hok).
  destruct (SafeSvgImproveMain.safe_improve_svg x st) as [st1 o];
    cbn [fst snd] in *. subst o.
  destruct ok.
  - eexists. split; [reflexivity|]. cbn [SafeSvgImproveMain.improved
      SafeSvgImproveMain.skipped SafeSvgImproveMain.unchanged
      SafeSvgImproveMain.errors fst]. split; [lia|].
    exists new, 1. split; [exact Hw|]. specialize (Hok eq_refl). lia.
  - destruct (contains (txt "Skipped") m);
      [|destruct (contains (txt "No changes") m)];
      (eexists; split; [reflexivity|];
       cbn [SafeSvgImproveMain.improved SafeSvgImproveMain.skipped
            SafeSvgImproveMain.unchanged SafeSvgImproveMain.errors fst];
       split; [lia|]; exists new, 0; split; [exact Hw|]; lia).
Qed.

Lemma fix_all_body_counts (rewrite : text -> option text) (x : path)
  (c : FixAllSvgsMain.counts) (st : state) :
  exists c',
    snd (FixAllSvgsMain.loop_body rewrite x c st) = Ok c'
    /\ exists new,
        writes (fst (FixAllSvgsMain.loop_body rewrite x c st))
        = writes st ++ new
        /\ FixAllSvgsMain.fixed_count c'
           = FixAllSvgsMain.fixed_count c + length new
        /\ FixAllSvgsMain.skipped_count c'
           = FixAllSvgsMain.skipped_count c
             + (if is_font_or_favicon x then 1 else 0)
        /\ FixAllSvgsMain.fixed_count c' + FixAllSvgsMain.skipped_count c'
           + FixAllSvgsMain.error_count c'
           = FixAllSvgsMain.fixed_count c + FixAllSvgsMain.skipped_count c
             + FixAllSvgsMain.error_count c + 1.
Proof.
  unfold FixAllSvgsMain.loop_body, FixAllSvgsMain.fix_svg_file, try_except,
    bind, ret, raise.
  destruct (is_font_or_favicon x) eqn:Hf.
  { eexists. split; [reflexivity|]. exists []. rewrite app_nil_r.
    split; [reflexivity|]. simpl. lia. }
  pose proof (read_file_state x st) as Hr.
  destruct (read_file x st) as [st0 [content|msg]]; cbn [fst snd] in Hr;
    subst st0; cbn [fst snd].
  2: { eexists. split; [reflexivity|]. exists []. rewrite app_nil_r.
       split; [reflexivity|]. simpl. lia. }
  destruct (rewrite content) as [final_svg|].
  2: { eexists. split; [reflexivity|]. exists []. rewrite app_nil_r.
       split; [reflexivity|]. simpl. lia. }
  destruct (write_file_log x final_svg st) as [[Hok Hlog] | [msg Hw]].
  - destruct (write_file x final_svg st) as [st1 [[]|msg]];
      cbn [fst snd] in *; [|discriminate].
    eexists. split; [reflexivity|]. exists [(x, final_svg)].
    split; [exact Hlog|]. simpl. lia.
  - rewrite Hw. eexists. split; [reflexivity|]. exists []. rewrite app_nil_r.
    split; [reflexivity|]. simpl. lia.
Qed.

(** X8: safe_svg_improve.py's main never raises, whatever the disk does;
    every file of the list ends up in exactly one of its four counters; and
    the run makes at least one write per file counted as improved and at
    most two writes per file of the list. *)
Theorem safe_main_counts :
  forall (glob : list path) (st : state),
    exists c new,
      snd (SafeSvgImproveMain.main glob st) = Ok c
      /\ SafeSvgImproveMain.improved c + SafeSvgImproveMain.skipped c
         + SafeSvgImproveMain.unchanged c + SafeSvgImproveMain.errors c
         = length glob
      /\ writes (fst (SafeSvgImproveMain.main glob st)) = writes st ++ new
      /\ SafeSvgImproveMain.improved c <= length new <= 2 * length glob.
Proof.
  intros glob st. unfold SafeSvgImproveMain.main.
  destruct (for_each_related SafeSvgImproveMain.loop_body
    (fun n c s c' s' =>
       SafeSvgImproveMain.improved c' + SafeSvgImproveMain.skipped c'
       + SafeSvgImproveMain.unchanged c' + SafeSvgImproveMain.errors c'
       = SafeSvgImproveMain.improved c + SafeSvgImproveMain.skipped c
         + SafeSvgImproveMain.unchanged c + SafeSvgImproveMain.errors c + n
       /\ exists new di, writes s' = writes s ++ new
          /\ SafeSvgImproveMain.improved c' = SafeSvgImproveMain.improved c + di
          /\ di <= length new <= 2 * n))
    with (l := glob) (a := SafeSvgImproveMain.mkCounts 0 0 0 0) (st := st)
    as (c & Hc & Ht & new & di & Hw & Hi & Hn).
  - intros a s. split; [lia|]. exists [], 0. rewrite app_nil_r.
    split; [reflexivity|]. simpl. lia.
  - intros n m a1 s1 a2 s2 a3 s3 (T1 & n1 & d1' & H1 & E1 & B1)
      (T2 & n2 & d2' & H2 & E2 & B2).
    split; [lia|]. exists (n1 ++ n2), (d1' + d2').
    rewrite H2, H1, app_assoc, length_app. split; [reflexivity | lia].
  - intros x a s. destruct (safe_body_counts x a s)
      as (c' & Hc & Ht & new & di & Hw & Hi & Hn).
    exists c'. split; [exact Hc|]. split; [exact Ht|].
    exists new, di. split; [exact Hw|]. lia.
  - exists c, new. simpl in *. split; [exact Hc|]. split; [lia|].
    split; [exact Hw | lia].
Qed.


(** ** Error messages and the half-done improvement of safe_svg_improve.py *)

Lemma error_prefix_has_no_keyword (msg : text) :
  contains (txt "Skipped") (txt "Error: " ++ msg)
  = contains (txt "Skipped") msg
  /\ contains (txt "No changes") (txt "Error: " ++ msg)
     = contains (txt "No changes") msg.
Proof. split; reflexivity. Qed.

(** X10: in safe_svg_improve.py's main the kind of a failure is read off
    the text of the message.  When reading a file raises, the file is
    counted as skipped if the exception's text contains [Skipped], as
    unchanged if it contains [No changes] (and not [Skipped]), and as an
    error only otherwise; the disk is not touched. *)
Theorem safe_main_files_errors_by_message :
  forall (f : path) (c : SafeSvgImproveMain.counts) (st : state) (msg : text),
    read_fault st f = Some msg ->
    SafeSvgImproveMain.loop_body f c st
    = (st, Ok (if contains (txt "Skipped") msg
               then SafeSvgImproveMain.mkCounts
                      (SafeSvgImproveMain.improved c)
                      (SafeSvgImproveMain.skipped c + 1)
                      (SafeSvgImproveMain.unchanged c)
                      (SafeSvgImproveMain.errors c)
               else if contains (txt "No changes") msg
               then SafeSvgImproveMain.mkCounts
                      (SafeSvgImproveMain.improved c)
                      (SafeSvgImproveMain.skipped c)
                      (SafeSvgImproveMain.unchanged c + 1)
                      (SafeSvgImproveMain.errors c)
               else SafeSvgImproveMain.mkCounts
                      (SafeSvgImproveMain.improved c)
                      (SafeSvgImproveMain.skipped c)
                      (SafeSvgImproveMain.unchanged c)
                      (SafeSvgImproveMain.errors c + 1))).
Proof.
  intros f c st msg Hf.
  unfold SafeSvgImproveMain.loop_body, SafeSvgImproveMain.safe_improve_svg,
    try_except, bind, ret, read_file.
  rewrite Hf.
  destruct (error_prefix_has_no_keyword msg) as [E1 E2].
  cbv beta iota. rewrite E1, E2.
  destruct (contains (txt "Skipped") msg);
    [|destruct (contains (txt "No changes") msg)]; reflexivity.
Qed.

(** X10 at a file that cannot be opened and whose name contains
    [Skipped]: it is counted as skipped. *)
Lemma safe_main_files_errors_by_message_witness :
  let f := txt "docs/Skipped.svg" in
  let msg := txt "[Errno 13] Permission denied: 'docs/Skipped.svg'" in
  let st := mkState ∅ (fun _ => Some msg) (fun _ => None) [] in
  read_fault st f = Some msg
  /\ SafeSvgImproveMain.loop_body f (SafeSvgImproveMain.mkCounts 0 0 0 0) st
     = (st, Ok (SafeSvgImproveMain.mkCounts 0 1 0 0)).
Proof.
  intros f msg st. split; [reflexivity|].
  exact (safe_main_files_errors_by_message f
           (SafeSvgImproveMain.mkCounts 0 0 0 0) st msg eq_refl).
Defined.

(** X11: when [safe_improve_svg] has a change to make, no backup exists yet
    and the backup is written, a failing write of the file itself is
    reported as [(False, Error: ...)] with the text of the exception, and
    the content read survives in the backup.  If [open] raises, the file
    keeps its content as well; if the write fails after the file was
    opened, the file holds what the failed write left and the backup is the
    only copy of the content read. *)
Theorem safe_failed_write_leaves_backup :
  forall (improve : text -> outcome text) (late : FsLate.late_fault)
         (p : path) (st : state) (content new : text),
    read_fault st p = None ->
    files st !! p = Some content ->
    is_font_or_favicon p = false ->
    improve content = Ok new ->
    new <> content ->
    files st !! SafeSvgImproveMain.backup_of p = None ->
    write_fault st (SafeSvgImproveMain.backup_of p) = None ->
    late (SafeSvgImproveMain.backup_of p) content = None ->
    let run := SafeSvgImproveAny.safe_improve_svg improve late p st in
    (forall wmsg,
        write_fault st p = Some wmsg ->
        snd run = Ok (false, txt "Error: " ++ wmsg)
        /\ files (fst run) !! p = Some content
        /\ files (fst run) !! SafeSvgImproveMain.backup_of p = Some content
        /\ writes (fst run)
           = writes st ++ [(SafeSvgImproveMain.backup_of p, content)])
    /\ (forall remains wmsg,
           write_fault st p = None ->
           late p new = Some (remains, wmsg) ->
           snd run = Ok (false, txt "Error: " ++ wmsg)
           /\ files (fst run) !! p = Some remains
           /\ files (fst run) !! SafeSvgImproveMain.backup_of p = Some content
           /\ writes (fst run)
              = writes st ++ [(SafeSvgImproveMain.backup_of p, content);
                              (p, remains)]).
Proof.
  intros improve late p st content new Hrf Hf Hfont Htr Hne Hb Hwb Hlb run.
  assert (E : forall o,
    FsLate.write_file late p new
      (after_write (SafeSvgImproveMain.backup_of p) content st) = o ->
    run = match o with
          | (st', Ok _) => (st', Ok (true, txt "Improved successfully"))
          | (st', Raised e) => (st', Ok (false, txt "Error: " ++ e))
          end).
  { intros o Ho. unfold run, SafeSvgImproveAny.safe_improve_svg,
      SafeSvgImproveAny.safe_improve_svg_try, try_except, bind,
      FsLate.pure_step, path_exists, ret.
    rewrite (read_file_ok _ _ _ Hrf Hf), Hfont, Htr.
    apply text_eqb_false in Hne. rewrite Hne. cbn [negb]. rewrite Hb.
    replace (bool_decide (is_Some (@None text))) with false
      by (symmetry; apply bool_decide_eq_false; intros [? ?]; discriminate).
    cbn [negb]. rewrite (late_write_ok _ _ _ _ Hwb Hlb), Ho.
    destruct o as [st' [[]|e]]; reflexivity. }
  pose proof (backup_of_neq p) as Hbk.
  split.
  - intros wmsg Hw.
    rewrite (E (after_write (SafeSvgImproveMain.backup_of p) content st,
                Raised wmsg))
      by (unfold FsLate.write_file, after_write; cbn [write_fault];
          rewrite Hw; reflexivity).
    unfold after_write. cbn [fst snd files writes].
    split; [reflexivity|]. split; [|split; [|reflexivity]].
    + rewrite lookup_insert_ne by exact Hbk. exact Hf.
    + apply lookup_insert_eq.
  - intros remains wmsg Hw Hl.
    rewrite (E (mkState (<[p := remains]>
                           (<[SafeSvgImproveMain.backup_of p := content]>
                              (files st)))
                        (read_fault st) (write_fault st)
                        ((writes st ++ [(SafeSvgImproveMain.backup_of p, content)])
                           ++ [(p, remains)]),
                Raised wmsg))
      by (unfold FsLate.write_file, after_write;
          cbn [write_fault files read_fault writes]; rewrite Hw, Hl;
          reflexivity).
    cbn [fst snd files writes].
    split; [reflexivity|]. split; [|split].
    + apply lookup_insert_eq.
    + rewrite lookup_insert_ne by congruence. apply lookup_insert_eq.
    + rewrite <- app_assoc. reflexivity.
Qed.

(** X11 on a disk where the file is opened but the write breaks off after
    the first five characters. *)
Lemma safe_failed_write_leaves_backup_witness :
  let p := txt "docs/a.svg" in
  let c := txt "<line stroke-width=`1`/>" in
  let st := disk [(p, c)] in
  let improve := fun c => Ok (SafeSvgImprove.improve c) in
  let late := fun (q : path) (new : text) =>
                if text_eqb q p
                then Some (firstn 5 new, txt "[Errno 28] No space left on device")
                else None in
  files (fst (SafeSvgImproveAny.safe_improve_svg improve late p st)) !! p
  = Some (txt "<line")
  /\ files (fst (SafeSvgImproveAny.safe_improve_svg improve late p st))
       !! SafeSvgImproveMain.backup_of p = Some c.
Proof.
  intros p c st improve late.
  assert (Hrf : read_fault st p = None) by reflexivity.
  assert (Hf : files st !! p = Some c) by (vm_compute; reflexivity).
  assert (Hfont : is_font_or_favicon p = false) by (vm_compute; reflexivity).
  assert (H : improve c = Ok (txt "<line stroke-width=`2`/>"))
    by (vm_compute; reflexivity).
  assert (Hne : txt "<line stroke-width=`2`/>" <> c)
    by (intros E; vm_compute in E; discriminate).
  assert (Hb : files st !! SafeSvgImproveMain.backup_of p = None)
    by (vm_compute; reflexivity).
  assert (Hwb : write_fault st (SafeSvgImproveMain.backup_of p) = None)
    by reflexivity.
  assert (Hlb : late (SafeSvgImproveMain.backup_of p) c = None)
    by (vm_compute; reflexivity).
  destruct (safe_failed_write_leaves_backup improve late p st c
              (txt "<line stroke-width=`2`/>") Hrf Hf Hfont H Hne Hb Hwb Hlb)
    as [_ H2].
  destruct (H2 (txt "<line") (txt "[Errno 28] No space left on device"))
    as (_ & Hp & Hbk & _); [reflexivity | vm_compute; reflexivity |].
  split; assumption.
Defined.

(** ** A second run of beautify_all_svgs.py *)

Lemma contains_app_r (p a b : text) :
  contains p b = true -> contains p (a ++ b) = true.
Proof.
  rewrite !contains_spec. intros (u & v & ->). exists (a ++ u), v.
  rewrite <- app_assoc. reflexivity.
Qed.

Lemma contains_app_l (p a b : text) :
  contains p a = true -> contains p (a ++ b) = true.
Proof.
  rewrite !contains_spec. intros (u & v & ->). exists u, (v ++ b).
  rewrite <- !app_assoc. reflexivity.
Qed.

(** Whatever the size and the body are, the new file carries the marker
    line of [new_header]. *)
Lemma create_improved_svg_marked (dimensions : text -> option (Z * Z))
  (restyle : text -> option text) (content filename out : text) :
  BeautifyAllSvgs.create_improved_svg dimensions restyle content filename
  = Some out ->
  contains BeautifyAllSvgs.marker out = true.
Proof.
  unfold BeautifyAllSvgs.create_improved_svg.
  destruct (dimensions content) as [[width height]|]; [|discriminate].
  destruct (restyle content) as [body|]; [|discriminate].
  intros H. apply (inj Some) in H. rewrite <- H.
  apply contains_app_l. unfold BeautifyAllSvgs.new_header.
  match goal with
  | |- contains _ (?t0 ++ ?w ++ ?sp ++ ?h ++ ?t1 ++ ?rest) = true =>
      refine (contains_app_r _ t0 _ (contains_app_r _ w _
               (contains_app_r _ sp _ (contains_app_r _ h _
                 (contains_app_l _ t1 rest _)))))
  end.
  vm_compute. reflexivity.
Qed.

Lemma read_file_snd (p : path) (st : state) :
  snd (read_file p st)
  = match read_fault st p with
    | Some msg => Raised msg
    | None =>
        match files st !! p with
        | Some c => Ok c
        | None => Raised (missing_msg p)
        end
    end.
Proof. unfold read_file. repeat case_match; reflexivity. Qed.

Section BeautifyAgain.

Variable create : text -> path -> option text.
Hypothesis create_marks :
  forall content f out,
    create content f = Some out -> contains BeautifyAllSvgs.marker out = true.

(** [settled f st]: on the disk [st] the loop has nothing to do for [f]. *)
Abbreviation settled f st :=
  (is_font_or_favicon f = true
   \/ (exists msg, snd (read_file f st) = Raised msg)
   \/ exists content,
       snd (read_file f st) = Ok content
       /\ (contains BeautifyAllSvgs.marker content = true
           \/ create content f = None
           \/ exists msg, write_fault st f = Some msg)).

Lemma beautify_settled_stable (f : path) (st : state) :
  settled f st -> BeautifyAllSvgsMain.loop_body create f tt st = (st, Ok tt).
Proof.
  unfold BeautifyAllSvgsMain.loop_body, try_except, bind, ret, raise.
  intros [Hf | [[msg Hr] | (content & Hr & H)]].
  - rewrite Hf. reflexivity.
  - destruct (is_font_or_favicon f); [reflexivity|].
    pose proof (read_file_state f st) as Hs.
    destruct (read_file f st) as [st0 o]; simpl in *. subst. reflexivity.
  - destruct (is_font_or_favicon f); [reflexivity|].
    pose proof (read_file_state f st) as Hs.
    destruct (read_file f st) as [st0 o]; simpl in *. subst.
    change (txt "Beautiful gradient definitions") with BeautifyAllSvgs.marker.
    destruct (contains BeautifyAllSvgs.marker content) eqn:Hm; [reflexivity|].
    destruct H as [H | [H | [msg H]]]; [discriminate | |].
    + rewrite H. reflexivity.
    + destruct (create content f); [|reflexivity].
      unfold write_file. rewrite H. reflexivity.
Qed.

(** One step of the loop either leaves the disk alone or writes a marked
    content to a readable file. *)
Lemma beautify_body_cases (g : path) (st : state) :
  BeautifyAllSvgsMain.loop_body create g tt st = (st, Ok tt)
  \/ exists out,
      contains BeautifyAllSvgs.marker out = true
      /\ read_fault st g = None
      /\ BeautifyAllSvgsMain.loop_body create g tt st
         = (after_write g out st, Ok tt).
Proof.
  unfold BeautifyAllSvgsMain.loop_body, try_except, bind, ret, raise.
  destruct (is_font_or_favicon g); [left; reflexivity|].
  unfold read_file.
  destruct (read_fault st g) as [msg|] eqn:Hrf; [left; reflexivity|].
  destruct (files st !! g) as [content|]; [|left; reflexivity].
  destruct (contains (txt "Beautiful gradient definitions") content);
    [left; reflexivity|].
  destruct (create content g) as [out|] eqn:Hc; [|left; reflexivity].
  unfold write_file. destruct (write_fault st g) as [msg|];
    [left; reflexivity|].
  right. exists out. split; [eapply create_marks; exact Hc|].
  split; reflexivity.
Qed.

Lemma beautify_settled_kept (f g : path) (st : state) :
  settled f st ->
  settled f (fst (BeautifyAllSvgsMain.loop_body create g tt st)).
Proof.
  intros Hs. destruct (beautify_body_cases g st) as [E | (out & Hm & Hrf & E)];
    rewrite E; cbn [fst]; [exact Hs|].
  destruct Hs as [Hf | Hs]; [left; exact Hf|]. right.
  rewrite !read_file_snd in *. unfold after_write.
  cbn [read_fault files write_fault].
  destruct (decide (f = g)) as [->|Hne].
  - right. exists out. rewrite Hrf, lookup_insert_eq. split; [reflexivity|].
    left. exact Hm.
  - rewrite lookup_insert_ne by congruence. exact Hs.
Qed.

Lemma beautify_body_settles (f : path) (st : state) :
  settled f (fst (BeautifyAllSvgsMain.loop_body create f tt st)).
Proof.
  destruct (beautify_body_cases f st) as [E | (out & Hm & Hrf & E)].
  - rewrite E. cbn [fst]. revert E.
    unfold BeautifyAllSvgsMain.loop_body, try_except, bind, ret, raise.
    destruct (is_font_or_favicon f); [left; reflexivity|]. intros E. right.
    unfold read_file in *.
    destruct (read_fault st f) as [msg|]; [left; eauto|].
    destruct (files st !! f) as [content|]; [|left; eauto].
    right. exists content. split; [reflexivity|].
    change (txt "Beautiful gradient definitions") with BeautifyAllSvgs.marker
      in E.
    destruct (contains BeautifyAllSvgs.marker content); [left; reflexivity|].
    right. destruct (create content f) as [out|]; [|left; reflexivity].
    right. unfold write_file in E.
    destruct (write_fault st f) as [msg|]; [eauto|].
    exfalso. apply (f_equal (fun r => length (writes (fst r)))) in E.
    cbn [fst writes] in E. rewrite length_app in E. simpl in E. lia.
  - rewrite E. cbn [fst]. right. right. exists out.
    rewrite read_file_snd. unfold after_write. cbn [read_fault files].
    rewrite Hrf, lookup_insert_eq. split; [reflexivity|]. left. exact Hm.
Qed.

Lemma beautify_run_settles (l : list path) :
  forall st,
    Forall (fun f => settled f
              (fst (BeautifyAllSvgsMain.process_all_svgs create l st))) l
    /\ forall f, settled f st ->
         settled f (fst (BeautifyAllSvgsMain.process_all_svgs create l st)).
Proof.
  unfold BeautifyAllSvgsMain.process_all_svgs.
  induction l as [|x l IH]; intros st.
  - split; [constructor | intros f Hf; exact Hf].
  - cbn [for_each]. unfold bind.
    pose proof (beautify_body_settles x st) as Hx.
    pose proof (fun f => beautify_settled_kept f x st) as Hk.
    destruct (beautify_body_cases x st) as [E | (out & _ & _ & E)];
      rewrite E in *; cbn [fst] in *;
      match goal with
      | |- context [for_each _ l tt ?s] =>
          destruct (IH s) as [Hall Hkeep]
      end; (split; [constructor; [apply Hkeep; exact Hx | exact Hall]
                   | intros f Hf; apply Hkeep, Hk, Hf]).
Qed.

Lemma beautify_settled_run (l : list path) (st : state) :
  Forall (fun f => settled f st) l ->
  BeautifyAllSvgsMain.process_all_svgs create l st = (st, Ok tt).
Proof.
  unfold BeautifyAllSvgsMain.process_all_svgs.
  induction 1 as [|x l Hx Hl IH]; [reflexivity|].
  cbn [for_each]. unfold bind. rewrite (beautify_settled_stable x st Hx).
  exact IH.
Qed.

(** Every write of a run carries the marker. *)
Lemma beautify_writes_marked (l : list path) :
  forall st, exists new,
    writes (fst (BeautifyAllSvgsMain.process_all_svgs create l st))
    = writes st ++ new
    /\ Forall (fun w => contains BeautifyAllSvgs.marker (snd w) = true) new.
Proof.
  unfold BeautifyAllSvgsMain.process_all_svgs.
  induction l as [|x l IH]; intros st.
  - exists []. rewrite app_nil_r. split; [reflexivity | constructor].
  - cbn [for_each]. unfold bind.
    destruct (beautify_body_cases x st) as [E | (out & Hm & _ & E)];
      rewrite E.
    + apply IH.
    + destruct (IH (after_write x out st)) as (new & Hw & Hall).
      exists ((x, out) :: new). rewrite Hw. unfold after_write. cbn [writes].
      rewrite <- app_assoc. split; [reflexivity|]. constructor; assumption.
Qed.

End BeautifyAgain.

(** Without late failures the loop over any transformation is the loop of
    the first part. *)
Lemma beautify_any_instance (create : text -> path -> option text)
  (late : FsLate.late_fault) (l : list path) :
  (forall p c, late p c = None) ->
  forall st,
    BeautifyAllSvgsAny.process_all_svgs
      (fun c f => FsLate.of_option (create c f)) late l st
    = BeautifyAllSvgsMain.process_all_svgs create l st.
Proof.
  intros Hlate. unfold BeautifyAllSvgsAny.process_all_svgs,
    BeautifyAllSvgsMain.process_all_svgs.
  induction l as [|x l IH]; intros st; [reflexivity|].
  cbn [for_each]. unfold bind.
  assert (E : BeautifyAllSvgsAny.loop_body
                (fun c f => FsLate.of_option (create c f)) late x tt st
              = BeautifyAllSvgsMain.loop_body create x tt st).
  { unfold BeautifyAllSvgsAny.loop_body, BeautifyAllSvgsMain.loop_body,
      try_except, bind, ret, raise, FsLate.pure_step, FsLate.of_option.
    destruct (is_font_or_favicon x); [reflexivity|].
    destruct (read_file x st) as [st1 [content|msg]]; [|reflexivity].
    destruct (contains (txt "Beautiful gradient definitions") content);
      [reflexivity|].
    destruct (create content x) as [out|]; [|reflexivity].
    unfold FsLate.write_file, write_file. rewrite Hlate.
    destruct (write_fault st1 x); reflexivity. }
  rewrite E. destruct (BeautifyAllSvgsMain.loop_body create x tt st)
    as [st1 [[]|msg]]; [apply IH | reflexivity].
Qed.

(** One step writes at most the file it is about. *)
Lemma beautify_any_body_frame (create : text -> path -> outcome text)
  (late : FsLate.late_fault) (g : path) (st : state) :
  writes_only (fun q => q = g) st
    (fst (BeautifyAllSvgsAny.loop_body create late g tt st)).
Proof.
  unfold BeautifyAllSvgsAny.loop_body, try_except, bind, ret,
    FsLate.pure_step.
  destruct (is_font_or_favicon g); [apply writes_only_refl|].
  pose proof (read_file_state g st) as Hs.
  destruct (read_file g st) as [st1 [content|msg]]; cbn [fst] in Hs; subst st1;
    [|apply writes_only_refl].
  destruct (contains (txt "Beautiful gradient definitions") content);
    [apply writes_only_refl|].
  destruct (create content g) as [out|msg]; [|apply writes_only_refl].
  unfold FsLate.write_file.
  destruct (write_fault st g); [apply writes_only_refl|].
  destruct (late g out) as [[remains msg]|]; cbn [fst].
  - split; [reflexivity|]. split; [reflexivity|]. split.
    + intros q Hq. cbn [files]. apply lookup_insert_ne. congruence.
    + eexists [_]. split; [reflexivity|]. repeat constructor.
  - split; [reflexivity|]. split; [reflexivity|]. split.
    + intros q Hq. cbn [files]. apply lookup_insert_ne. congruence.
    + eexists [_]. split; [reflexivity|]. repeat constructor.
Qed.

(** A file that carries the marker is passed over. *)
Lemma beautify_any_marked_skip (create : text -> path -> outcome text)
  (late : FsLate.late_fault) (f : path) (st : state) (content : text) :
  files st !! f = Some content ->
  contains BeautifyAllSvgs.marker content = true ->
  BeautifyAllSvgsAny.loop_body create late f tt st = (st, Ok tt).
Proof.
  intros Hf Hm. unfold BeautifyAllSvgsAny.loop_body, try_except, bind, ret,
    read_file.
  destruct (is_font_or_favicon f); [reflexivity|].
  destruct (read_fault st f); [reflexivity|]. rewrite Hf.
  change (txt "Beautiful gradient definitions") with BeautifyAllSvgs.marker.
  rewrite Hm. reflexivity.
Qed.

Lemma beautify_any_marked_untouched (create : text -> path -> outcome text)
  (late : FsLate.late_fault) (f : path) (content : text) :
  contains BeautifyAllSvgs.marker content = true ->
  forall l st,
    files st !! f = Some content ->
    writes_only (fun q => q <> f) st
      (fst (BeautifyAllSvgsAny.process_all_svgs create late l st)).
Proof.
  intros Hm. unfold BeautifyAllSvgsAny.process_all_svgs.
  induction l as [|x l IH]; intros st Hf; [apply writes_only_refl|].
  cbn [for_each]. unfold bind.
  assert (Hx : writes_only (fun q => q <> f) st
                 (fst (BeautifyAllSvgsAny.loop_body create late x tt st))).
  { destruct (decide (x = f)) as [->|Hne].
    - rewrite (beautify_any_marked_skip create late f st content Hf Hm).
      apply writes_only_refl.
    - eapply writes_only_mono; [|apply beautify_any_body_frame].
      intros q ->. exact Hne. }
  assert (Hok : exists st1, BeautifyAllSvgsAny.loop_body create late x tt st
                            = (st1, Ok tt)).
  { unfold BeautifyAllSvgsAny.loop_body, try_except, ret.
    destruct (is_font_or_favicon x); [eauto|].
    match goal with
    | |- context [match ?m st with _ => _ end] =>
        destruct (m st) as [st1 [[]|msg]]; eauto
    end. }
  destruct Hok as [st1 E]. rewrite E in *. cbn [fst] in Hx.
  eapply writes_only_trans; [exact Hx|]. apply IH.
  destruct Hx as (_ & _ & Hfiles & _). rewrite Hfiles; [exact Hf|].
  intros Hq. apply Hq. reflexivity.
Qed.

(** X12: beautify_all_svgs.py recognises its own output.  A file whose
    content carries the comment line [Beautiful gradient definitions] is
    never written by a run, whatever else fails; every content that a run
    writes in full carries that line, which [new_header] puts there; so,
    when no read and no write fails, a second run right after a first one
    writes nothing and leaves the disk as the first run left it. *)
Theorem beautify_output_is_recognised :
  forall (dimensions : text -> option (Z * Z)) (restyle : text -> option text)
         (late : FsLate.late_fault) (glob : list path) (st : state),
    let create := fun c f =>
      FsLate.of_option
        (BeautifyAllSvgs.create_improved_svg dimensions restyle c f) in
    let run := BeautifyAllSvgsAny.process_all_svgs create late glob in
    (forall f content,
        files st !! f = Some content ->
        contains BeautifyAllSvgs.marker content = true ->
        untouched f st (fst (run st)))
    /\ ((forall p c, late p c = None) ->
        exists new,
          writes (fst (run st)) = writes st ++ new
          /\ Forall (fun w => contains BeautifyAllSvgs.marker (snd w) = true)
                    new)
    /\ ((forall p c, late p c = None) ->
        (forall p, read_fault st p = None) ->
        (forall p, write_fault st p = None) ->
        run (fst (run st)) = (fst (run st), Ok tt)).
Proof.
  intros dimensions restyle late glob st create run.
  refine (conj _ (conj _ _)).
  - intros f content Hf Hm.
    apply (writes_only_untouched (fun q => q <> f)); [intros H; apply H; reflexivity|].
    apply (beautify_any_marked_untouched create late f content Hm glob st Hf).
  - intros Hlate. unfold run, create.
    rewrite (beautify_any_instance _ late glob Hlate).
    apply beautify_writes_marked, create_improved_svg_marked.
  - intros Hlate _ _. unfold run, create.
    rewrite !(beautify_any_instance _ late glob Hlate).
    apply beautify_settled_run.
    apply (beautify_run_settles _ (create_improved_svg_marked dimensions restyle)).
Qed.

(** X12 on one diagram, with a size fixed at 800 by 600 and a body left as
    it is: the second run is idle. *)
Lemma beautify_output_is_recognised_witness :
  let p := txt "docs/a.svg" in
  let st := disk [(p, txt "<svg><circle r=`5`/></svg>")] in
  let run := BeautifyAllSvgsAny.process_all_svgs
               (fun c f =>
                  FsLate.of_option
                    (BeautifyAllSvgs.create_improved_svg
                       (fun _ => Some (800, 600)%Z) (fun c => Some c) c f))
               FsLate.no_late [p] in
  length (writes (fst (run st))) = 1
  /\ run (fst (run st)) = (fst (run st), Ok tt).
Proof.
  intros p st run. split; [vm_compute; reflexivity|].
  exact (proj2 (proj2 (beautify_output_is_recognised
                         (fun _ => Some (800, 600)%Z) (fun c => Some c)
                         FsLate.no_late [p] st))
           (fun _ _ => eq_refl) (fun _ => eq_refl) (fun _ => eq_refl)).
Defined.

(** ** Rounded corners *)

(** A match of [L[P]{lo,}R]: the two literals around a run of the class. *)
Lemma framed_sound (L R : text) (P : ascii -> bool) (lo : nat) (s : text)
  (m : mobj) (rest : text) :
  match_at (lit L ++ [Rep P lo] ++ lit R) s = Some (m, rest) ->
  exists u, whole m = L ++ u ++ R /\ forallb P u = true /\ lo <= length u.
Proof.
  intros Hm. pose proof (match_at_whole _ _ _ _ Hm) as Hs.
  unfold match_at in Hm.
  rewrite lit_is_lit_by, rmatch_lit in Hm.
  destruct (starts_by is_char L s) eqn:EL; [|discriminate].
  apply starts_by_skipn in EL. set (s1 := skipn (length L) s) in *.
  cbn [app rmatch] in Hm.
  destruct (backoff _ lo (run P s1)) as [[rest' cs]|] eqn:Eb; [|discriminate].
  apply backoff_sound in Eb as (j & Hj & Hk).
  rewrite <- (app_nil_r (lit R)), lit_is_lit_by, rmatch_lit in Hk.
  destruct (starts_by is_char R (skipn j s1)) eqn:ER; [|discriminate].
  apply starts_by_skipn in ER. cbn [rmatch] in Hk.
  inversion Hk as [[Hrest Hcs]]; subst cs; clear Hk.
  inversion Hm; subst m; clear Hm. cbn [whole] in *.
  set (u := firstn j s1).
  pose proof (run_le P s1) as Hrun.
  assert (Hlu : length u = j) by (unfold u; rewrite length_firstn; lia).
  assert (Hs1 : s1 = u ++ R ++ rest).
  { rewrite (forallb_firstn_skipn s1 j) at 1. fold u. f_equal.
    rewrite ER at 1. rewrite Hrest, H1. reflexivity. }
  assert (Hfull : s = (L ++ u ++ R) ++ rest)
    by (rewrite EL at 1; rewrite Hs1 at 1; rewrite <- !app_assoc; reflexivity).
  exists u. split; [|split; [apply run_all; lia | lia]].
  rewrite Hfull at 2. rewrite Hfull at 1. rewrite length_app.
  replace (length (L ++ u ++ R) + length rest - length rest)
    with (length (L ++ u ++ R)) by lia.
  rewrite firstn_app, firstn_all, Nat.sub_diag. simpl. apply app_nil_r.
Qed.

Lemma rect_match_shape (s : text) (m : mobj) (rest : text) :
  match_at SafeSvgImprove.re_rect_selfclosed s = Some (m, rest) ->
  exists u, whole m = txt "<rect" ++ u ++ txt "/>".
Proof.
  intros Hm. apply framed_sound in Hm as (u & Hw & _). eauto.
Qed.

Lemma firstn_drop_last (a b : text) (k : nat) :
  k <= length b ->
  firstn (length (a ++ b) - k) (a ++ b) = a ++ firstn (length b - k) b.
Proof.
  intros Hk. rewrite length_app, firstn_app.
  replace (length a + length b - k - length a) with (length b - k) by lia.
  rewrite firstn_all2 by lia. reflexivity.
Qed.

(** X13: the rounded-corner callback of fix_all_svgs.py cuts one character
    off the matched tag ([rect[:-1]]), not two.  For every match of
    [<rect[^>]*/>] that holds no [rx=], what it returns is the tag up to
    and including the slash of its [/>], followed by [ rx=`6`/>]: the old
    slash stays inside the tag, in front of the new attribute. *)
Theorem fix_all_rounded_corners_keep_slash :
  forall (s : text) (m : mobj) (rest : text),
    match_at FixAllSvgs.re_rect_selfclosed s = Some (m, rest) ->
    contains (txt "rx=") (group m 0) = false ->
    exists u,
      group m 0 = txt "<rect" ++ u ++ txt "/>"
      /\ FixAllSvgs.add_rounded_corners m
         = txt "<rect" ++ u ++ txt "/ rx=`6`/>".
Proof.
  intros s m rest Hm Hrx. destruct (rect_match_shape s m rest Hm) as [u Hw].
  exists u. cbn [group] in *. split; [exact Hw|].
  unfold FixAllSvgs.add_rounded_corners. cbn [group]. rewrite Hrx. cbn [negb].
  rewrite Hw. rewrite app_assoc.
  rewrite (firstn_drop_last (txt "<rect" ++ u) (txt "/>") 1)
    by (vm_compute; lia).
  rewrite <- !app_assoc. reflexivity.
Qed.

(** X13 at a rect in a line of text. *)
Lemma fix_all_rounded_corners_keep_slash_witness :
  exists m rest u,
    match_at FixAllSvgs.re_rect_selfclosed (txt "<rect x=`1`/><g/>")
    = Some (m, rest)
    /\ FixAllSvgs.add_rounded_corners m
       = txt "<rect" ++ u ++ txt "/ rx=`6`/>".
Proof.
  destruct (match_at FixAllSvgs.re_rect_selfclosed (txt "<rect x=`1`/><g/>"))
    as [[m rest]|] eqn:E; [|vm_compute in E; discriminate].
  destruct (fix_all_rounded_corners_keep_slash _ m rest E) as (u & _ & Hu).
  - apply (f_equal (fun r => match r with
                             | Some (m0, _) => contains (txt "rx=") (group m0 0)
                             | None => true
                             end)) in E.
    vm_compute in E. symmetry. exact E.
  - exists m, rest, u. split; [reflexivity | exact Hu].
Defined.

(** X14: the rounded-corner callback of safe_svg_improve.py cuts the whole
    [/>] off ([rect[:-2]]).  For every match of [<rect[^>]*/>] that holds
    [fill=`none`] and no [rx=], what it returns is the tag without its
    [/>], followed by [ rx=`4`/>]; every other match is returned as it
    is. *)
Theorem safe_rounded_corners_insert :
  forall (s : text) (m : mobj) (rest : text),
    match_at SafeSvgImprove.re_rect_selfclosed s = Some (m, rest) ->
    exists u,
      group m 0 = txt "<rect" ++ u ++ txt "/>"
      /\ SafeSvgImprove.add_rounded_corners m
         = if negb (contains (txt "rx=") (group m 0))
              && contains (txt "fill=`none`") (group m 0)
           then txt "<rect" ++ u ++ txt " rx=`4`/>"
           else group m 0.
Proof.
  intros s m rest Hm. destruct (rect_match_shape s m rest Hm) as [u Hw].
  exists u. cbn [group] in *. split; [exact Hw|].
  unfold SafeSvgImprove.add_rounded_corners. cbn [group].
  destruct (negb (contains (txt "rx=") (whole m))
            && contains (txt "fill=`none`") (whole m)); [|reflexivity].
  rewrite Hw. rewrite app_assoc.
  rewrite (firstn_drop_last (txt "<rect" ++ u) (txt "/>") 2)
    by (vm_compute; lia).
  rewrite <- !app_assoc. reflexivity.
Qed.

(** X14 at a rect with [fill=`none`]. *)
Lemma safe_rounded_corners_insert_witness :
  exists m rest u,
    match_at SafeSvgImprove.re_rect_selfclosed (txt "<rect fill=`none`/><g/>")
    = Some (m, rest)
    /\ group m 0 = txt "<rect" ++ u ++ txt "/>"
    /\ SafeSvgImprove.add_rounded_corners m
       = if negb (contains (txt "rx=") (group m 0))
            && contains (txt "fill=`none`") (group m 0)
         then txt "<rect" ++ u ++ txt " rx=`4`/>"
         else group m 0.
Proof.
  destruct (match_at SafeSvgImprove.re_rect_selfclosed
              (txt "<rect fill=`none`/><g/>"))
    as [[m rest]|] eqn:E; [|vm_compute in E; discriminate].
  destruct (safe_rounded_corners_insert _ m rest E) as (u & Hw & Hu).
  exists m, rest, u. split; [reflexivity|]. split; [exact Hw | exact Hu].
Defined.

(** ** The validator's small-font check after a font-size pass *)

Lemma findall_from_skip (re : regex) :
  forall (k : nat) (s : text),
    k <= length s ->
    ValidateSvgs.findall_from re k s = ValidateSvgs.findall_from re 0 (skipn k s).
Proof.
  induction k as [|k IH]; intros s Hk; [reflexivity|].
  destruct s as [|c s]; simpl in Hk; [lia|]. simpl. apply IH. lia.
Qed.

Lemma findall_cons_none (re : regex) (c : ascii) (s : text) :
  match_at re (c :: s) = None ->
  ValidateSvgs.findall re (c :: s) = ValidateSvgs.findall re s.
Proof. intros H. unfold ValidateSvgs.findall. simpl. rewrite H. reflexivity. Qed.

Lemma findall_cons_some (re : regex) (s : text) (m : mobj) (rest : text) :
  match_at re s = Some (m, rest) -> whole m <> [] ->
  ValidateSvgs.findall re s = group m 1 :: ValidateSvgs.findall re rest.
Proof.
  intros H Hne. pose proof (match_at_whole _ _ _ _ H) as Hs.
  destruct s as [|c s'].
  - destruct (whole m); [congruence | discriminate].
  - unfold ValidateSvgs.findall. cbn [ValidateSvgs.findall_from]. rewrite H.
    f_equal. destruct (whole m) as [|c0 w] eqn:Hw; [congruence|]. simpl.
    simpl in Hs. inversion Hs; subst.
    rewrite findall_from_skip by (rewrite length_app; lia).
    rewrite skipn_app, skipn_all, Nat.sub_diag. reflexivity.
Qed.

(** Every size that [re.findall] returns stands in a [font-size]
    attribute of the text. *)
Lemma findall_font_sizes (s : text) :
  forall ds, In ds (ValidateSvgs.findall ValidateSvgs.re_font_size s) ->
             has_font_size s ds.
Proof.
  remember (length s) as n eqn:Hn. revert s Hn.
  induction n as [n IH] using lt_wf_ind. intros s Hn ds Hin.
  destruct s as [|c s].
  - vm_compute in Hin. contradiction.
  - destruct (match_at ValidateSvgs.re_font_size (c :: s)) as [[m rest]|] eqn:E.
    + pose proof E as E'.
      apply font_match_sound in E' as (ds0 & Hs & Hd0 & Hne0 & Hwh & Hg).
      rewrite (findall_cons_some _ _ _ _ E) in Hin
        by (rewrite Hwh; discriminate).
      destruct Hin as [Hhd | Htl].
      * subst ds. rewrite Hg. split; [exact Hne0|]. split; [exact Hd0|].
        exists [], rest. exact Hs.
      * apply (IH (length rest)) with (s := rest) in Htl;
          [| subst n; rewrite Hs, !length_app; simpl; lia | reflexivity].
        destruct Htl as (Hne & Hd & pre & post & Hrest).
        split; [exact Hne|]. split; [exact Hd|].
        exists (fs_open ++ ds0 ++ [dq] ++ pre), post.
        rewrite Hs, Hrest. rewrite <- !app_assoc. reflexivity.
    + rewrite (findall_cons_none _ _ _ E) in Hin.
      apply (IH (length s)) with (s := s) in Hin;
        [| subst n; simpl; lia | reflexivity].
      destruct Hin as (Hne & Hd & pre & post & Hrest).
      split; [exact Hne|]. split; [exact Hd|].
      exists (c :: pre), post. rewrite Hrest. reflexivity.
Qed.

Lemma no_small_fonts (ok : N -> Prop) (s : text) :
  (forall n, ok n -> (12 <= n)%N) ->
  font_sizes_satisfy ok s -> ValidateSvgs.small_fonts s = [].
Proof.
  intros Hok Hs. unfold ValidateSvgs.small_fonts.
  pose proof (findall_font_sizes s) as Hall.
  induction (ValidateSvgs.findall ValidateSvgs.re_font_size s) as [|ds l IH].
  - reflexivity.
  - cbn [map]. rewrite filter_cons.
    destruct (decide (int_of_text ds <? 12)%N) as [Hlt|Hge].
    + exfalso. apply Is_true_true, N.ltb_lt in Hlt.
      specialize (Hok _ (Hs ds (Hall ds (or_introl eq_refl)))). lia.
    + apply IH. intros ds' Hin. apply Hall. right. exact Hin.
Qed.

(** X15: the small-font check of validate_svgs.py finds nothing in a text
    that has just left the font-size pass of any of the five scripts that
    have one: the list [small_fonts] of [analyze_svg] (sizes below 12) is
    empty for it. *)
Theorem no_small_fonts_after_font_pass :
  forall content : text,
    ValidateSvgs.small_fonts
      (sub FixSvgsProperly.re_font_size FixSvgsProperly.increase_font_size
           None content) = []
    /\ ValidateSvgs.small_fonts
         (sub MinimalSvgFix.re_font_size MinimalSvgFix.fix_font_size
              None content) = []
    /\ ValidateSvgs.small_fonts
         (sub SafeSvgImprove.re_font_size SafeSvgImprove.increase_font_size
              None content) = []
    /\ ValidateSvgs.small_fonts
         (sub FixAllSvgs.re_font_size FixAllSvgs.fix_font_size None content)
       = []
    /\ ValidateSvgs.small_fonts
         (sub BeautifyAllSvgs.re_font_size BeautifyAllSvgs.update_font_size
              None content) = [].
Proof.
  intros content. refine (conj _ (conj _ (conj _ (conj _ _)))).
  - apply (no_small_fonts (fun n => (16 <= n)%N)); [intros; lia|].
    apply (font_pass_satisfies FixSvgsProperly.increase_font_size),
      properly_callback_spec.
  - apply (no_small_fonts (fun n => (16 <= n)%N)); [intros; lia|].
    apply (font_pass_satisfies MinimalSvgFix.fix_font_size),
      minimal_callback_spec.
  - apply (no_small_fonts (fun n => (14 <= n)%N)); [intros; lia|].
    apply (font_pass_satisfies SafeSvgImprove.increase_font_size),
      safe_callback_spec.
  - apply (no_small_fonts (fun n => (14 <= n <= 24)%N)); [intros; lia|].
    apply (font_pass_satisfies FixAllSvgs.fix_font_size),
      fix_all_callback_spec.
  - apply (no_small_fonts (fun n => In n [12; 14; 16; 18; 24]%N)).
    + intros n Hn. simpl in Hn. lia.
    + apply (font_pass_satisfies BeautifyAllSvgs.update_font_size),
        beautify_callback_spec.
Qed.

(** ** Font sizes in what minimal_svg_fix.py writes *)

Lemma agree_prefix_false (eqv : ascii -> ascii -> bool) (a b x : text) :
  agree eqv a x = false -> agree eqv (a ++ b) x = false.
Proof.
  revert x. induction a as [|c a IH]; intros [|d x] H; simpl in *;
    try discriminate.
  apply andb_false_iff in H as [H | H].
  - rewrite H. reflexivity.
  - rewrite (IH _ H). apply andb_false_r.
Qed.

Lemma skipn_head_in {A : Type} (e : nat) (l : list A) :
  e < length l -> exists y rest, skipn e l = y :: rest /\ In y l.
Proof.
  revert l. induction e as [|e IH]; intros [|a l] He; simpl in *; try lia.
  - exists a, l. auto.
  - destruct (IH l ltac:(lia)) as (y & rest & Hs & Hin).
    exists y, rest. auto.
Qed.

(** A copy of a foreign text cannot overlap a font-size attribute. *)
Lemma font_attr_clash (ds r : text) :
  forallb is_digit ds = true -> font_foreign r = true ->
  clash is_char (fs_open ++ ds ++ [dq]) r = true.
Proof.
  intros Hd Hr. unfold font_foreign in Hr. destruct r as [|r0 r']; [discriminate|].
  apply andb_true_iff in Hr as [Hr Hfo]. apply andb_true_iff in Hr as [Hr Hsuf].
  apply andb_true_iff in Hr as [Hdig Hq].
  change (txt "font-size=`") with fs_open in Hfo, Hsuf.
  assert (Hlen : length fs_open = 11) by reflexivity.
  unfold clash. apply andb_true_iff. split; apply forallb_forall.
  - intros d Hin. rewrite forallb_forall in Hfo. specialize (Hfo d Hin).
    apply negb_true_iff in Hfo. apply negb_true_iff.
    apply agree_prefix_false, Hfo.
  - intros e Hin. apply in_seq in Hin. apply negb_true_iff.
    rewrite length_app, Hlen in Hin.
    destruct (Nat.le_gt_cases e 10) as [Hle|Hgt].
    + rewrite skipn_app, Hlen.
      replace (e - 11) with 0 by lia. rewrite skipn_O.
      apply agree_prefix_false.
      rewrite forallb_forall in Hsuf. apply negb_true_iff, Hsuf, in_seq. lia.
    + rewrite skipn_app, Hlen. rewrite skipn_all2 by lia. cbn [app].
      destruct (skipn_head_in (e - 11) (ds ++ [dq])) as (y & rest & Hs & Hy);
        [lia|].
      rewrite Hs. cbn [agree]. apply andb_false_iff. left.
      unfold is_char. apply Ascii.eqb_neq. intros ->.
      apply in_app_or in Hy as [Hy | [Hy | []]].
      * rewrite forallb_forall in Hd. rewrite (Hd _ Hy) in Hdig. discriminate.
      * subst y. rewrite Ascii.eqb_refl in Hq. discriminate.
Qed.

(** A copy of [r] put into a text brings no occurrence of [q] when the two
    cannot overlap. *)
Lemma starts_by_app_split (eqv : ascii -> ascii -> bool) (q X Z : text) :
  starts_by eqv q (X ++ Z) = true ->
  (length q <= length X /\ forall Z', starts_by eqv q (X ++ Z') = true)
  \/ (length X < length q /\ starts_by eqv (skipn (length X) q) Z = true).
Proof.
  revert X. induction q as [|a q IH]; intros X H.
  - left. split; [simpl; lia | reflexivity].
  - destruct X as [|c X].
    + right. split; [simpl; lia | exact H].
    + simpl in H. apply andb_true_iff in H as [Ha H].
      destruct (IH _ H) as [[Hl Hz] | [Hl Hz]].
      * left. split; [simpl; lia|]. intros Z'. simpl. rewrite Ha. apply Hz.
      * right. split; [simpl; lia | exact Hz].
Qed.

Lemma occurs_by_app_r (eqv : ascii -> ascii -> bool) (q X Y : text) :
  occurs_by eqv q (X ++ Y) = false -> occurs_by eqv q Y = false.
Proof.
  induction X as [|c X IH]; intros H; [exact H|].
  cbn [app occurs_by] in H. apply orb_false_iff in H as [_ H]. auto.
Qed.

Lemma occurs_by_insert (eqv : ascii -> ascii -> bool) (q r : text) :
  clash eqv q r = true ->
  forall X Y,
    occurs_by eqv q (X ++ Y) = false -> occurs_by eqv q (X ++ r ++ Y) = false.
Proof.
  intros Hc. destruct (clash_spec _ _ _ Hc) as [Hin Hout].
  induction X as [|c X IH]; intros Y H.
  - cbn [app] in *. apply occurs_by_over_copy; [exact H | exact Hin].
  - cbn [app occurs_by] in *. apply orb_false_iff in H as [H0 H].
    apply orb_false_iff. split; [|apply IH, H].
    destruct (starts_by eqv q (c :: X ++ r ++ Y)) eqn:E; [|reflexivity].
    apply (starts_by_app_split eqv q (c :: X) (r ++ Y)) in E
      as [[Hl Hz] | [Hl Hz]].
    + rewrite <- H0. symmetry. apply (Hz Y).
    + apply starts_by_app_agree in Hz.
      rewrite Hout in Hz; [discriminate|]. simpl in *. lia.
Qed.

(** *** The [replace] calls *)

Lemma has_font_size_contains (s ds : text) :
  has_font_size s ds
  <-> ds <> [] /\ forallb is_digit ds = true
      /\ occurs_by is_char (fs_open ++ ds ++ [dq]) s = true.
Proof.
  unfold has_font_size. rewrite <- contains_occurs_by, contains_spec.
  split; intros (Hne & Hd & H); (split; [exact Hne|]; split; [exact Hd|]).
  - destruct H as (pre & post & ->). exists pre, post.
    rewrite <- !app_assoc. reflexivity.
  - destruct H as (pre & post & ->). exists pre, post.
    rewrite <- !app_assoc. reflexivity.
Qed.

(** A step that brings no new [font-size] attribute keeps what holds of
    all of them. *)
Lemma font_sizes_kept (ok : N -> Prop) (s out : text) :
  (forall ds, forallb is_digit ds = true ->
     occurs_by is_char (fs_open ++ ds ++ [dq]) s = false ->
     occurs_by is_char (fs_open ++ ds ++ [dq]) out = false) ->
  font_sizes_satisfy ok s -> font_sizes_satisfy ok out.
Proof.
  intros Hstep Hs ds Hout. apply has_font_size_contains in Hout as (Hne & Hd & Ho).
  apply Hs. apply has_font_size_contains. split; [exact Hne|]. split; [exact Hd|].
  destruct (occurs_by is_char (fs_open ++ ds ++ [dq]) s) eqn:E; [reflexivity|].
  rewrite (Hstep ds Hd E) in Ho. discriminate.
Qed.

Lemma replace_keeps_font_sizes (ok : N -> Prop) (p r s : text) :
  p <> [] -> font_foreign r = true ->
  font_sizes_satisfy ok s -> font_sizes_satisfy ok (replace p r s).
Proof.
  intros Hp Hr. apply font_sizes_kept. intros ds Hd Ho.
  apply replace_step_absent; [exact Hp | apply font_attr_clash; auto | auto].
Qed.

Lemma run_steps_keep_font_sizes (ok : N -> Prop) (steps : list (text * text)) :
  forallb (fun st => negb (text_eqb (fst st) []) && font_foreign (snd st)) steps
  = true ->
  forall s, font_sizes_satisfy ok s ->
            font_sizes_satisfy ok (run_steps replace steps s).
Proof.
  unfold run_steps. induction steps as [|[p r] steps IH]; intros Hall s Hs.
  - exact Hs.
  - cbn [forallb fst snd] in Hall. apply andb_true_iff in Hall as [H1 Hall].
    apply andb_true_iff in H1 as [Hp Hr]. cbn [fold_left fst snd].
    apply IH; [exact Hall|]. apply replace_keeps_font_sizes; auto.
    apply negb_true_iff, text_eqb_false in Hp. exact Hp.
Qed.

(** *** The style attribute *)

Lemma sub_from_exhausted (re : regex) (repl : mobj -> text) :
  forall (k : nat) (s : text), sub_from re repl (Some 0) k s = skipn k s.
Proof.
  intros k s. revert k. induction s as [|c s IH]; intros k.
  - destruct k; reflexivity.
  - destruct k as [|k]; cbn [sub_from exhausted].
    + rewrite IH. reflexivity.
    + rewrite IH. reflexivity.
Qed.

(** [re.sub] with [count=1] leaves the text alone or replaces one match. *)
Lemma sub_once_shape (re : regex) (repl : mobj -> text) :
  (forall t m r, match_at re t = Some (m, r) -> whole m <> []) ->
  forall s,
    sub re repl (Some 1) s = s
    \/ exists pre m rest,
        s = pre ++ whole m ++ rest
        /\ match_at re (whole m ++ rest) = Some (m, rest)
        /\ sub re repl (Some 1) s = pre ++ repl m ++ rest.
Proof.
  intros Hne. unfold sub. induction s as [|c s IH].
  - cbn [sub_from exhausted].
    destruct (match_at re []) as [[m r]|] eqn:E; [|left; reflexivity].
    exfalso. apply (Hne _ _ _ E). apply match_at_whole in E.
    destruct (whole m); [reflexivity | discriminate].
  - cbn [sub_from exhausted dec_count].
    destruct (match_at re (c :: s)) as [[m rest]|] eqn:E.
    + right. exists [], m, rest. pose proof (match_at_whole _ _ _ _ E) as Hs.
      split; [exact Hs|]. split; [rewrite <- Hs; exact E|].
      cbn [app]. f_equal.
      destruct (whole m) as [|c0 w] eqn:Hw; [exfalso; eapply Hne; eauto|].
      cbn [length]. rewrite sub_from_exhausted.
      simpl in Hs. inversion Hs; subst.
      rewrite skipn_app, skipn_all, Nat.sub_diag. reflexivity.
    + destruct IH as [IH | (pre & m & rest & Hs & Hm & Hout)].
      * left. rewrite IH. reflexivity.
      * right. exists (c :: pre), m, rest. rewrite Hs at 1.
        split; [reflexivity|]. split; [exact Hm|]. rewrite Hout. reflexivity.
Qed.

Lemma firstn_app_exact {A : Type} (a b : list A) (n : nat) :
  n = length a -> firstn n (a ++ b) = a.
Proof.
  intros ->. rewrite firstn_app, firstn_all, Nat.sub_diag. simpl.
  apply app_nil_r.
Qed.

(** A match of [re_svg_open]: group 1 is the opening tag up to its [>],
    group 2 the [>]. *)
Lemma svg_open_sound (s : text) (m : mobj) (rest : text) :
  match_at SafeSvgImprove.re_svg_open s = Some (m, rest) ->
  exists u,
    whole m = txt "<svg" ++ u ++ txt ">"
    /\ group m 1 = txt "<svg" ++ u /\ group m 2 = txt ">".
Proof.
  intros Hm. pose proof (match_at_whole _ _ _ _ Hm) as Hs.
  unfold match_at, SafeSvgImprove.re_svg_open in Hm.
  cbn [app rmatch] in Hm.
  rewrite lit_is_lit_by, rmatch_lit in Hm.
  destruct (starts_by is_char (txt "<svg") s) eqn:EL; [|discriminate].
  apply starts_by_skipn in EL. set (s1 := skipn (length (txt "<svg")) s) in *.
  cbn [app rmatch] in Hm.
  destruct (backoff _ 0 (run (not_char ">"%char) s1)) as [[rest' cs]|] eqn:Eb;
    [|discriminate].
  apply backoff_sound in Eb as (j & Hj & Hk).
  rewrite lit_is_lit_by, rmatch_lit in Hk.
  destruct (starts_by is_char (txt ">") (skipn j s1)) eqn:ER; [|discriminate].
  apply starts_by_skipn in ER.
  set (s3 := skipn (length (txt ">")) (skipn j s1)) in *.
  cbn [rmatch] in Hk. inversion Hk as [[Hrest Hcs]]; clear Hk.
  inversion Hm as [[Hwhole Hr]]; clear Hm. clear Hwhole Hs m.
  set (u := firstn j s1).
  assert (Hs2 : skipn j s1 = txt ">" ++ rest) by (rewrite ER, Hrest, Hr; reflexivity).
  assert (Hs1 : s1 = u ++ txt ">" ++ rest).
  { rewrite <- (firstn_skipn j s1) at 1. fold u. rewrite Hs2. reflexivity. }
  assert (Hfull : s = txt "<svg" ++ u ++ txt ">" ++ rest).
  { rewrite EL at 1. rewrite Hs1 at 1. reflexivity. }
  rewrite Hrest, Hr in Hcs. rewrite Hs2 in Hcs. subst cs.
  clear ER Hrest Hr Hs2 Hs1 EL Hj. clearbody u. clear s3 s1 rest' j.
  subst s. generalize (txt "<svg") (txt ">"). intros A B.
  exists u. unfold group, capture, mark.
  cbn [whole caps marks groups assoc Nat.eqb].
  split; [|split].
  - rewrite !app_assoc. apply firstn_app_exact. rewrite !length_app. lia.
  - rewrite (app_assoc A u). apply firstn_app_exact. rewrite !length_app. lia.
  - apply firstn_app_exact. rewrite !length_app. lia.
Qed.

Lemma svg_open_nonempty (t : text) (m : mobj) (r : text) :
  match_at SafeSvgImprove.re_svg_open t = Some (m, r) -> whole m <> [].
Proof.
  intros H. apply svg_open_sound in H as (u & Hw & _). rewrite Hw. discriminate.
Qed.

(** The substitution that adds the style attribute puts one copy of the
    attribute into the text and changes nothing else. *)
Lemma style_sub_shape (s : text) :
  sub SafeSvgImprove.re_svg_open (expand SafeSvgImprove.tpl_style) (Some 1) s = s
  \/ exists X Y,
      s = X ++ Y
      /\ sub SafeSvgImprove.re_svg_open (expand SafeSvgImprove.tpl_style)
             (Some 1) s
         = X ++ txt " style=`max-width: 100%; height: auto;`" ++ Y.
Proof.
  destruct (sub_once_shape SafeSvgImprove.re_svg_open
              (expand SafeSvgImprove.tpl_style) svg_open_nonempty s)
    as [H | (pre & m & rest & Hs & Hm & Hout)]; [left; exact H|].
  right. apply svg_open_sound in Hm as (u & Hw & H1 & H2).
  exists (pre ++ txt "<svg" ++ u), (txt ">" ++ rest). split.
  - rewrite Hs, Hw. rewrite <- !app_assoc. reflexivity.
  - rewrite Hout. unfold expand, SafeSvgImprove.tpl_style.
    cbn [map expand_piece concat]. rewrite H1, H2, app_nil_r.
    rewrite <- !app_assoc. reflexivity.
Qed.

Lemma style_sub_keeps_font_sizes (ok : N -> Prop) (s : text) :
  font_sizes_satisfy ok s ->
  font_sizes_satisfy ok
    (sub SafeSvgImprove.re_svg_open (expand SafeSvgImprove.tpl_style) (Some 1) s).
Proof.
  destruct (style_sub_shape s) as [-> | (X & Y & Hs & ->)]; [auto|].
  subst s. apply font_sizes_kept. intros ds Hd Ho.
  apply occurs_by_insert; [|exact Ho].
  apply font_attr_clash; [exact Hd | vm_compute; reflexivity].
Qed.

(** X16: every [font-size=`N`] attribute in the content that
    minimal_svg_fix.py writes for a file has a value of at least 16,
    whatever the file held: the fill replacements and the style attribute
    that follow the font-size pass bring no such attribute with them and
    remove no text.  So the small-font check of validate_svgs.py finds
    nothing in a file this script has written. *)
Theorem minimal_fix_font_sizes :
  forall content : text,
    font_sizes_at_least 16 (MinimalSvgFix.fix_content content)
    /\ ValidateSvgs.small_fonts (MinimalSvgFix.fix_content content) = [].
Proof.
  intros content.
  assert (H : font_sizes_satisfy (fun n => (16 <= n)%N)
                (MinimalSvgFix.fix_content content)).
  { unfold MinimalSvgFix.fix_content, MinimalSvgFix.add_style.
    match goal with
    | |- font_sizes_satisfy _ (if ?b then _ else _) => destruct b
    end.
    - apply style_sub_keeps_font_sizes. rewrite minimal_remap_steps.
      apply run_steps_keep_font_sizes; [vm_compute; reflexivity|].
      apply (font_pass_satisfies MinimalSvgFix.fix_font_size),
        minimal_callback_spec.
    - rewrite minimal_remap_steps.
      apply run_steps_keep_font_sizes; [vm_compute; reflexivity|].
      apply (font_pass_satisfies MinimalSvgFix.fix_font_size),
        minimal_callback_spec. }
  split; [exact H|].
  apply (no_small_fonts (fun n => (16 <= n)%N)); [intros; lia | exact H].
Qed.

(** X16 at a file with a size of 9 and a fill of the table. *)
Lemma minimal_fix_font_sizes_witness :
  let out := MinimalSvgFix.fix_content
               (txt "<svg><text font-size=`9` fill=`#CBD5E0`>a</text></svg>") in
  has_font_size out (txt "16") /\ (16 <= int_of_text (txt "16"))%N.
Proof.
  intros out.
  assert (H : has_font_size out (txt "16")).
  { split; [discriminate|]. split; [reflexivity|].
    exists (txt "<svg style=`max-width: 100%; height: auto;`><text "),
           (txt " fill=`#1F2937`>a</text></svg>").
    vm_compute. reflexivity. }
  split; [exact H|].
  exact (proj1 (minimal_fix_font_sizes
                  (txt "<svg><text font-size=`9` fill=`#CBD5E0`>a</text></svg>"))
               (txt "16") H).
Defined.

(** ** Edits, and font sizes in what safe_svg_improve.py writes *)

Section Edits.

Variable good : text -> bool.

Lemma edit_refl (s : text) : edit good s s.
Proof. induction s; constructor; auto. Qed.

Lemma edit_app (a a' b b' : text) :
  edit good a a' -> edit good b b' -> edit good (a ++ b) (a' ++ b').
Proof.
  intros Ha Hb. induction Ha as [|c s out Ha IH|o r s out Hr Ha IH].
  - exact Hb.
  - cbn [app]. constructor. exact IH.
  - rewrite <- !app_assoc. constructor; assumption.
Qed.

Lemma edit_put_mid (A o r B : text) :
  good r = true -> edit good (A ++ o ++ B) (A ++ r ++ B).
Proof.
  intros Hr. apply edit_app; [apply edit_refl|].
  constructor; [exact Hr | apply edit_refl].
Qed.

(** A [re.sub] whose every replacement edits the match edits the text. *)
Lemma sub_edit (re : regex) (repl : mobj -> text) :
  (forall t m rest, match_at re t = Some (m, rest) ->
     whole m <> [] /\ edit good (whole m) (repl m)) ->
  forall s, edit good s (sub re repl None s).
Proof.
  intros Hm s. remember (length s) as n eqn:Hn. revert s Hn.
  induction n as [n IH] using lt_wf_ind. intros s Hn.
  destruct (match_at re s) as [[m rest]|] eqn:E.
  - destruct (Hm _ _ _ E) as [Hne He].
    rewrite (sub_cons_some _ _ _ _ _ E Hne).
    pose proof (match_at_whole _ _ _ _ E) as Hs. rewrite Hs at 1.
    apply edit_app; [exact He|].
    apply (IH (length rest)); [|reflexivity].
    subst n. rewrite Hs, length_app. destruct (whole m); [congruence|].
    simpl. lia.
  - destruct s as [|c s].
    + rewrite (sub_nil_none _ _ E). constructor.
    + rewrite (sub_cons_none _ _ _ _ E). constructor.
      apply (IH (length s)); [subst n; simpl; lia | reflexivity].
Qed.

Lemma sub_lit_edit (p r : text) :
  p <> [] -> good r = true ->
  forall s, edit good s (sub (lit p) (fun _ => r) None s).
Proof.
  intros Hp Hr. apply sub_edit. intros t m rest H.
  rewrite lit_is_lit_by, match_at_lit in H.
  destruct (starts_by is_char p t) eqn:E; [|discriminate].
  inversion H; subst m rest; clear H. cbn [whole].
  apply starts_by_length in E.
  assert (Hw : firstn (length p) t <> []).
  { intros Hnil. apply (f_equal (@length _)) in Hnil.
    rewrite length_firstn in Hnil.
    assert (length p <> 0) by (destruct p; [congruence | discriminate]).
    cbn [length] in Hnil. lia. }
  split; [exact Hw|].
  rewrite <- (app_nil_r (firstn (length p) t)), <- (app_nil_r r).
  constructor; [exact Hr | constructor].
Qed.

Variable eqv : ascii -> ascii -> bool.
Variable q : text.
Hypothesis q_clash : forall r, good r = true -> clash eqv q r = true.

Lemma edit_prefix (s out : text) :
  edit good s out ->
  forall q1,
    starts_by eqv q1 out = true ->
    starts_by eqv q1 s = true
    \/ exists r e, good r = true /\ e < length q1
                   /\ agree eqv (skipn e q1) r = true.
Proof.
  induction 1 as [|c s out He IH|o r s out Hr He IH]; intros q1 H.
  - destruct q1; [left; reflexivity | discriminate].
  - destruct q1 as [|a q1]; [left; reflexivity|].
    simpl in H. apply andb_true_iff in H as [Ha H].
    destruct (IH _ H) as [Hl | (r & e & Hr & Hlt & Hag)].
    + left. simpl. rewrite Ha, Hl. reflexivity.
    + right. exists r, (S e). split; [exact Hr|]. split; [simpl; lia | exact Hag].
  - destruct q1 as [|a q1]; [left; reflexivity|].
    right. exists r, 0. split; [exact Hr|]. split; [simpl; lia|].
    apply starts_by_app_agree in H. exact H.
Qed.

(** An edit by pieces that cannot overlap [q] brings no occurrence of
    [q]. *)
Lemma edit_absent (s out : text) :
  edit good s out ->
  occurs_by eqv q s = false -> occurs_by eqv q out = false.
Proof.
  induction 1 as [|c s out He IH|o r s out Hr He IH]; intros Hq.
  - exact Hq.
  - cbn [occurs_by] in *. apply orb_false_iff in Hq as [H0 Hq].
    apply orb_false_iff. split; [|apply IH, Hq].
    destruct (starts_by eqv q (c :: out)) eqn:E; [|reflexivity].
    destruct q as [|a q'] eqn:Eq; [discriminate|].
    simpl in E. apply andb_true_iff in E as [Ha E].
    destruct (edit_prefix s out He _ E) as [Hl | (r & e & Hr & Hlt & Hag)].
    + simpl in H0. rewrite Ha, Hl in H0. discriminate.
    + destruct (clash_spec _ _ _ (q_clash r Hr)) as [_ Hout].
      pose proof (Hout (S e) ltac:(simpl; lia)) as Ho. simpl in Ho. congruence.
  - destruct (clash_spec _ _ _ (q_clash r Hr)) as [Hin _].
    apply occurs_by_over_copy; [|exact Hin].
    apply IH. eapply occurs_by_app_r. exact Hq.
Qed.

End Edits.

Lemma edit_keeps_font_sizes (ok : N -> Prop) (s out : text) :
  edit font_foreign s out ->
  font_sizes_satisfy ok s -> font_sizes_satisfy ok out.
Proof.
  intros He. apply font_sizes_kept. intros ds Hd Ho.
  apply (edit_absent font_foreign is_char (fs_open ++ ds ++ [dq])) with (s := s);
    [| exact He | exact Ho].
  intros r Hr. apply font_attr_clash; assumption.
Qed.

Lemma lit_ci_is_lit_by (s : text) : lit_ci s = lit_by is_char_ci s.
Proof. reflexivity. Qed.

Lemma starts_by_split (eqv : ascii -> ascii -> bool) (p s : text) :
  starts_by eqv p s = true ->
  s = firstn (length p) s ++ skipn (length p) s
  /\ length (firstn (length p) s) = length p.
Proof.
  intros H. apply starts_by_length in H. split.
  - symmetry. apply firstn_skipn.
  - rewrite length_firstn. lia.
Qed.

(** A match of [re_text_fill old]: group 1, a spelling of the old colour,
    group 2. *)
Lemma text_fill_sound (old s : text) (m : mobj) (rest : text) :
  match_at (SafeSvgImprove.re_text_fill old) s = Some (m, rest) ->
  exists g1 o g2,
    whole m = g1 ++ o ++ g2 /\ group m 1 = g1 /\ group m 2 = g2 /\ g1 <> [].
Proof.
  intros Hm. unfold match_at, SafeSvgImprove.re_text_fill in Hm.
  cbn [app rmatch] in Hm.
  rewrite !lit_ci_is_lit_by in Hm. rewrite rmatch_lit in Hm.
  destruct (starts_by is_char_ci (txt "<text") s) eqn:E1; [|discriminate].
  apply starts_by_split in E1 as [E1 L1].
  set (a1 := firstn (length (txt "<text")) s) in *.
  set (s1 := skipn (length (txt "<text")) s) in *.
  cbn [app rmatch] in Hm.
  destruct (backoff _ 0 (run (not_char ">"%char) s1)) as [[rest' cs]|] eqn:Eb;
    [|discriminate].
  apply backoff_sound in Eb as (j & Hj & Hk). cbv beta in Hk.
  rewrite !lit_ci_is_lit_by in Hk.
  pose proof (firstn_skipn j s1) as E2.
  set (a2 := firstn j s1) in *. set (s2 := skipn j s1) in *.
  rewrite rmatch_lit in Hk.
  destruct (starts_by is_char_ci (txt "fill=`") s2) eqn:E3; [|discriminate].
  apply starts_by_split in E3 as [E3 L3].
  set (a3 := firstn (length (txt "fill=`")) s2) in *.
  set (s3 := skipn (length (txt "fill=`")) s2) in *.
  cbn [app rmatch] in Hk. rewrite ?lit_ci_is_lit_by in Hk.
  rewrite rmatch_lit in Hk.
  destruct (starts_by is_char_ci old s3) eqn:E4; [|discriminate].
  apply starts_by_split in E4 as [E4 L4].
  set (o := firstn (length old) s3) in *.
  set (s4 := skipn (length old) s3) in *.
  cbn [app rmatch] in Hk. rewrite ?lit_ci_is_lit_by in Hk.
  rewrite rmatch_lit in Hk.
  destruct (starts_by is_char_ci (txt "`") (s4)) eqn:E5; [|discriminate].
  apply starts_by_split in E5 as [E5 L5].
  set (g2 := firstn (length (txt "`")) s4) in *.
  set (s5 := skipn (length (txt "`")) s4) in *.
  cbn [rmatch] in Hk. inversion Hk as [[Hrest Hcs]]; clear Hk.
  inversion Hm as [[Hwhole Hr]]; clear Hm.
  assert (H5 : s5 = rest) by congruence.
  rewrite <- Hcs. clear Hwhole Hrest Hr Hcs.
  exists (a1 ++ a2 ++ a3), o, g2.
  assert (Hs4 : s4 = g2 ++ rest) by (rewrite E5 at 1; rewrite H5; reflexivity).
  assert (Hs3 : s3 = o ++ g2 ++ rest) by (rewrite E4 at 1; rewrite Hs4; reflexivity).
  assert (Hs : s = (a1 ++ a2 ++ a3) ++ o ++ g2 ++ rest).
  { rewrite E1 at 1. rewrite <- E2. rewrite E3 at 1. rewrite Hs3.
    rewrite <- !app_assoc. reflexivity. }
  assert (Hg1 : a1 ++ a2 ++ a3 <> []).
  { intros Hnil. apply (f_equal (@length _)) in Hnil.
    rewrite length_app, L1 in Hnil. vm_compute (length (txt "<text")) in Hnil.
    simpl in Hnil. lia. }
  unfold group, capture, mark.
  cbn [whole caps marks groups assoc Nat.eqb].
  rewrite H5, Hs4, Hs3, Hs.
  generalize (a1 ++ a2 ++ a3) Hg1. intros g1 Hg1'.
  split; [|split; [|split; [|exact Hg1']]].
  - rewrite !app_assoc. apply firstn_app_exact. rewrite !length_app. lia.
  - apply firstn_app_exact. rewrite !length_app. lia.
  - apply firstn_app_exact. rewrite !length_app. lia.
Qed.

Lemma text_color_edit (old new s : text) :
  font_foreign new = true ->
  edit font_foreign s (SafeSvgImprove.improve_text_color s (old, new)).
Proof.
  intros Hnew. unfold SafeSvgImprove.improve_text_color.
  apply sub_edit. intros t m rest H.
  destruct (text_fill_sound _ _ _ _ H) as (g1 & o & g2 & Hw & H1 & H2 & Hne).
  split.
  - rewrite Hw. destruct g1; [congruence | discriminate].
  - unfold expand. cbn [map expand_piece concat].
    rewrite H1, H2, Hw, app_nil_r. apply edit_put_mid, Hnew.
Qed.

Lemma text_colors_edit (table : list (text * text)) :
  forallb (fun e => font_foreign (snd e)) table = true ->
  forall (ok : N -> Prop) (s : text),
    font_sizes_satisfy ok s ->
    font_sizes_satisfy ok (fold_left SafeSvgImprove.improve_text_color table s).
Proof.
  induction table as [|[old new] table IH]; intros Hall ok s Hs; [exact Hs|].
  cbn [forallb snd] in Hall. apply andb_true_iff in Hall as [Hnew Hall].
  cbn [fold_left]. apply IH; [exact Hall|].
  eapply edit_keeps_font_sizes; [apply text_color_edit, Hnew | exact Hs].
Qed.

Lemma rounded_corners_edit (s : text) :
  edit font_foreign s
    (sub SafeSvgImprove.re_rect_selfclosed SafeSvgImprove.add_rounded_corners
         None s).
Proof.
  apply sub_edit. intros t m rest H.
  destruct (safe_rounded_corners_insert _ _ _ H) as (u & Hw & Hcb).
  cbn [group] in Hw. split; [rewrite Hw; discriminate|].
  rewrite Hcb. cbn [group].
  destruct (negb (contains (txt "rx=") (whole m))
            && contains (txt "fill=`none`") (whole m)); [|apply edit_refl].
  rewrite Hw.
  change (txt " rx=`4`/>") with (txt " rx=`4`" ++ txt "/>").
  rewrite !app_assoc. rewrite <- (app_assoc _ (txt " rx=`4`")).
  rewrite <- (app_nil_l (txt "/>")) at 1. rewrite <- !app_assoc.
  rewrite (app_assoc (txt "<rect") u).
  rewrite (app_assoc (txt "<rect") u (txt " rx=`4`" ++ txt "/>")).
  apply (edit_put_mid font_foreign (txt "<rect" ++ u) [] (txt " rx=`4`")
           (txt "/>")).
  vm_compute. reflexivity.
Qed.

(** X17: every [font-size=`N`] attribute in the content that
    safe_svg_improve.py computes for a file has a value of at least 14,
    whatever the file held: the colour, stroke, corner, font-family and
    font-weight substitutions that follow the font-size pass only replace
    or insert texts that cannot be part of such an attribute.  So the
    small-font check of validate_svgs.py finds nothing in it. *)
Theorem safe_improve_font_sizes :
  forall content : text,
    font_sizes_at_least 14 (SafeSvgImprove.improve content)
    /\ ValidateSvgs.small_fonts (SafeSvgImprove.improve content) = [].
Proof.
  intros content.
  assert (H : font_sizes_satisfy (fun n => (14 <= n)%N)
                (SafeSvgImprove.improve content)).
  { unfold SafeSvgImprove.improve. cbv zeta.
    generalize (SafeSvgImprove.add_style content). intros c0.
    eapply edit_keeps_font_sizes;
      [apply sub_lit_edit; [discriminate | vm_compute; reflexivity]|].
    eapply edit_keeps_font_sizes;
      [apply sub_lit_edit; [discriminate | vm_compute; reflexivity]|].
    eapply edit_keeps_font_sizes;
      [apply sub_lit_edit; [discriminate | vm_compute; reflexivity]|].
    eapply edit_keeps_font_sizes; [apply rounded_corners_edit|].
    eapply edit_keeps_font_sizes;
      [apply sub_lit_edit; [discriminate | vm_compute; reflexivity]|].
    eapply edit_keeps_font_sizes;
      [apply sub_lit_edit; [discriminate | vm_compute; reflexivity]|].
    apply text_colors_edit; [vm_compute; reflexivity|].
    apply (font_pass_satisfies SafeSvgImprove.increase_font_size),
      safe_callback_spec. }
  split; [exact H|].
  apply (no_small_fonts (fun n => (14 <= n)%N)); [intros; lia | exact H].
Qed.

(** X17 at a file with a size of 9 in a text of a light colour. *)
Lemma safe_improve_font_sizes_witness :
  let out := SafeSvgImprove.improve
               (txt "<svg><text font-size=`9` fill=`#CBD5E0`>a</text></svg>") in
  has_font_size out (txt "14") /\ (14 <= int_of_text (txt "14"))%N.
Proof.
  intros out.
  assert (H : has_font_size out (txt "14")).
  { split; [discriminate|]. split; [reflexivity|].
    exists (txt "<svg style=`max-width: 100%; height: auto;`><text "),
           (txt " fill=`#374151`>a</text></svg>").
    vm_compute. reflexivity. }
  split; [exact H|].
  exact (proj1 (safe_improve_font_sizes
                  (txt "<svg><text font-size=`9` fill=`#CBD5E0`>a</text></svg>"))
               (txt "14") H).
Defined.

(** ** The line pass of fix_svg_attributes.py *)

Lemma split_on_nonempty (a : ascii) (s : text) : split_on a s <> [].
Proof.
  destruct s as [|c s]; simpl; [discriminate|].
  destruct (Ascii.eqb c a); [discriminate|].
  destruct (split_on a s); discriminate.
Qed.

Lemma split_on_no_sep (a : ascii) (s : text) :
  Forall (fun l => ~ In a l) (split_on a s).
Proof.
  induction s as [|c s IH]; simpl.
  - repeat constructor. auto.
  - destruct (Ascii.eqb c a) eqn:E.
    + constructor; auto.
    + apply Ascii.eqb_neq in E.
      destruct (split_on a s) as [|l ls]; inversion IH; subst.
      * repeat constructor. intros [H | []]. congruence.
      * constructor; [|assumption]. intros [H | H]; [congruence | auto].
Qed.

Lemma split_on_plain (a : ascii) (l : text) :
  ~ In a l -> split_on a l = [l].
Proof.
  induction l as [|c l IH]; intros H; [reflexivity|]. simpl.
  destruct (Ascii.eqb c a) eqn:E.
  - apply Ascii.eqb_eq in E. subst. exfalso. apply H. left. reflexivity.
  - rewrite IH by (intros Hin; apply H; right; exact Hin). reflexivity.
Qed.

Lemma split_on_app_sep (a : ascii) (l s : text) :
  ~ In a l -> split_on a (l ++ a :: s) = l :: split_on a s.
Proof.
  induction l as [|c l IH]; intros H; simpl.
  - rewrite Ascii.eqb_refl. reflexivity.
  - destruct (Ascii.eqb c a) eqn:E.
    + apply Ascii.eqb_eq in E. subst. exfalso. apply H. left. reflexivity.
    + rewrite IH by (intros Hin; apply H; right; exact Hin). reflexivity.
Qed.

(** Joining lines and splitting again gives the lines back. *)
Lemma split_join (a : ascii) (ls : list text) :
  ls <> [] -> Forall (fun l => ~ In a l) ls ->
  split_on a (join_with a ls) = ls.
Proof.
  induction ls as [|l ls IH]; intros Hne Hall; [congruence|].
  inversion Hall as [|? ? Hl Hls]; subst.
  destruct ls as [|l2 ls].
  - simpl. apply split_on_plain, Hl.
  - change (join_with a (l :: l2 :: ls)) with (l ++ a :: join_with a (l2 :: ls)).
    rewrite split_on_app_sep by exact Hl. f_equal. apply IH; [discriminate|].
    exact Hls.
Qed.

Lemma lstrip_char_suffix (a : ascii) (s : text) :
  exists k, lstrip_char a s = skipn k s.
Proof.
  induction s as [|c s [k IH]]; simpl.
  - exists 0. reflexivity.
  - destruct (Ascii.eqb c a); [exists (S k); exact IH | exists 0; reflexivity].
Qed.

Lemma rstrip_char_prefix (a : ascii) (s : text) :
  exists k, rstrip_char a s = firstn k s.
Proof.
  unfold rstrip_char. destruct (lstrip_char_suffix a (rev s)) as [k Hk].
  rewrite Hk. exists (length s - k).
  rewrite List.skipn_rev, rev_involutive. reflexivity.
Qed.

Lemma fix_line_no_nl (l : text) :
  ~ In nl l -> ~ In nl (FixSvgAttributes.fix_line l).
Proof.
  intros H. unfold FixSvgAttributes.fix_line.
  repeat match goal with
         | |- context [if ?b then _ else _] => destruct b
         end; try exact H.
  destruct (rstrip_char_prefix ">"%char l) as [k ->].
  intros Hin. apply in_app_or in Hin as [Hin | Hin].
  - apply H. rewrite <- (firstn_skipn k l). apply in_or_app. left. exact Hin.
  - vm_compute in Hin. destruct Hin as [Hin | [Hin | []]]; discriminate.
Qed.

Lemma lstrip_keeps_close (x : text) :
  exists y, lstrip (x ++ txt "/>") = y ++ txt "/>".
Proof.
  induction x as [|c x [y IH]].
  - exists []. reflexivity.
  - cbn [app lstrip]. destruct (is_space c).
    + exists y. exact IH.
    + exists (c :: x). reflexivity.
Qed.

Lemma strip_keeps_close (x : text) :
  ends_with (txt "/>") (strip (x ++ txt "/>")) = true.
Proof.
  unfold strip, rstrip. destruct (lstrip_keeps_close x) as [y ->].
  unfold ends_with. rewrite rev_involutive, !rev_app_distr.
  reflexivity.
Qed.

Lemma fix_line_idempotent (l : text) :
  FixSvgAttributes.fix_line (FixSvgAttributes.fix_line l)
  = FixSvgAttributes.fix_line l.
Proof.
  destruct (contains (txt "<rect") l && ends_with (txt ">") (strip l)
            && negb (ends_with (txt "/>") (strip l))) eqn:E1;
    [destruct (contains (txt "fill=`none`") l
               || contains (txt "fill=`transparent`") l
               || contains (txt "fill=`white`") l) eqn:E2|].
  - assert (Hl : FixSvgAttributes.fix_line l = rstrip_char ">"%char l ++ txt "/>")
      by (unfold FixSvgAttributes.fix_line; rewrite E1, E2; reflexivity).
    rewrite Hl. unfold FixSvgAttributes.fix_line.
    rewrite strip_keeps_close. cbn [negb]. rewrite andb_false_r. reflexivity.
  - assert (Hl : FixSvgAttributes.fix_line l = l)
      by (unfold FixSvgAttributes.fix_line; rewrite E1, E2; reflexivity).
    rewrite !Hl. reflexivity.
  - assert (Hl : FixSvgAttributes.fix_line l = l)
      by (unfold FixSvgAttributes.fix_line; rewrite E1; reflexivity).
    rewrite !Hl. reflexivity.
Qed.

(** X18: the line pass that closes fix_malformed_attributes (the loop over
    [content.split] that turns the [>] of a rect line into [/>]) keeps the
    number of lines and does nothing when run again on its own output. *)
Theorem fix_lines_idempotent :
  forall content : text,
    FixSvgAttributes.fix_lines (FixSvgAttributes.fix_lines content)
    = FixSvgAttributes.fix_lines content
    /\ length (split_on nl (FixSvgAttributes.fix_lines content))
       = length (split_on nl content).
Proof.
  intros content. unfold FixSvgAttributes.fix_lines.
  assert (Hs : split_on nl
                 (join_with nl (map FixSvgAttributes.fix_line (split_on nl content)))
               = map FixSvgAttributes.fix_line (split_on nl content)).
  { apply split_join.
    - pose proof (split_on_nonempty nl content).
      destruct (split_on nl content); [congruence | discriminate].
    - apply Forall_map. eapply Forall_impl; [apply split_on_no_sep|].
      intros l Hl. apply fix_line_no_nl, Hl. }
  rewrite Hs. split.
  - f_equal. rewrite map_map. apply map_ext. intros l. apply fix_line_idempotent.
  - apply length_map.
Qed.

(** ** The header step of fix_svg_content and the backslash *)

(** A replacement text without backslash is its own template. *)
Lemma parse_template_plain (ngroups : nat) :
  forall (fuel : nat) (t : text),
    length t <= fuel -> ~ In bslash t ->
    parse_template_fuel fuel ngroups t = Some (map (fun c => Lit [c]) t).
Proof.
  induction fuel as [|fuel IH]; intros t Hlen Hno.
  - destruct t; [reflexivity | simpl in Hlen; lia].
  - destruct t as [|c t]; [reflexivity|].
    cbn [parse_template_fuel].
    destruct (Ascii.eqb c bslash) eqn:E.
    + apply Ascii.eqb_eq in E. subst. exfalso. apply Hno. left. reflexivity.
    + cbn [negb]. rewrite IH; [reflexivity | simpl in Hlen; lia |].
      intros Hin. apply Hno. right. exact Hin.
Qed.

Lemma search_sound (re : regex) (s : text) (m : mobj) :
  search re s = Some m ->
  exists j rest, match_at re (skipn j s) = Some (m, rest).
Proof.
  induction s as [|c s IH]; cbn [search].
  - destruct (match_at re []) as [[m0 r]|] eqn:E; [|discriminate].
    intros H; inversion H; subst. exists 0, r. exact E.
  - destruct (match_at re (c :: s)) as [[m0 r]|] eqn:E.
    + intros H; inversion H; subst. exists 0, r. exact E.
    + intros H. destruct (IH H) as (j & rest & Hj). exists (S j), rest. exact Hj.
Qed.

Lemma in_skipn {A : Type} (x : A) (j : nat) (l : list A) :
  In x (skipn j l) -> In x l.
Proof.
  intros H. rewrite <- (firstn_skipn j l). apply in_or_app. right. exact H.
Qed.

(** The value captured by a bracketed pattern is text of the content. *)
Lemma search_group_in (L R : text) (P : ascii -> bool) (lo : nat) (stop : ascii)
  (s : text) (m : mobj) (c : ascii) :
  search (Re.bracketed L R P lo stop) s = Some m ->
  In c (group m 1) -> In c s.
Proof.
  intros Hs Hc. apply search_sound in Hs as (j & rest & Hm).
  apply bracketed_sound in Hm as (u & Hsk & _ & _ & _ & Hg).
  apply (in_skipn c j). rewrite Hsk, <- Hg.
  apply in_or_app. right. apply in_or_app. left. exact Hc.
Qed.

(** X19: the header step of fix_svg_content (step 1, the only [re.sub]
    whose replacement text holds text of the file) raises only over a
    backslash: for a content without any backslash the replacement text it
    builds is accepted by [re.sub], and the step returns a text. *)
Theorem fix_header_total_without_backslash :
  forall content : text,
    ~ In bslash content ->
    exists out, FixSvgsProperly.fix_header content = Some out.
Proof.
  intros content Hno. unfold FixSvgsProperly.fix_header.
  destruct (contains (txt "<svg") content); [|eauto].
  match goal with
  | |- context [parse_template 0 (FixSvgsProperly.svg_replacement ?v)] =>
      assert (Hv : ~ In bslash v); [|revert Hv; generalize v; intros vbox Hv]
  end.
  { destruct (search FixSvgsProperly.re_viewBox content) as [vb|] eqn:Evb.
    - intros Hin. apply Hno.
      apply (search_group_in (txt "viewBox=`") [] (not_char dq) 1 dq content vb
               bslash Evb Hin).
    - destruct (search FixSvgsProperly.re_width content) as [w|] eqn:Ew;
        [destruct (search FixSvgsProperly.re_height content) as [h|] eqn:Eh|].
      + intros Hin. apply Hno.
        apply in_app_or in Hin as [Hin | Hin];
          [vm_compute in Hin; intuition discriminate|].
        apply in_app_or in Hin as [Hin | Hin].
        * apply (search_group_in (txt "width=`") [] is_digit 1 dq content w
                   bslash Ew Hin).
        * apply in_app_or in Hin as [Hin | Hin];
            [vm_compute in Hin; intuition discriminate|].
          apply (search_group_in (txt "height=`") [] is_digit 1 dq content h
                   bslash Eh Hin).
      + intros Hin. vm_compute in Hin. intuition discriminate.
      + intros Hin. vm_compute in Hin. intuition discriminate. }
  unfold parse_template. rewrite parse_template_plain; [eauto | lia |].
  unfold FixSvgsProperly.svg_replacement. intros Hin.
  apply in_app_or in Hin as [Hin | Hin];
    [vm_compute in Hin; intuition discriminate|].
  apply in_app_or in Hin as [Hin | Hin]; [exact (Hv Hin)|].
  vm_compute in Hin. intuition discriminate.
Qed.

(** X19 at a header with a width and a height; and a content whose
    viewBox holds a backslash before a letter, on which the step raises. *)
Lemma fix_header_total_without_backslash_witness :
  (exists out,
     FixSvgsProperly.fix_header
       (txt "<svg width=`10` height=`20`><text font-size=`9`>a</text></svg>")
     = Some out)
  /\ FixSvgsProperly.fix_header (txt "<svg viewBox=`\q`></svg>") = None.
Proof.
  split.
  - apply fix_header_total_without_backslash.
    intros Hin. vm_compute in Hin. intuition discriminate.
  - vm_compute. reflexivity.
Defined.
